(** * WB Canvas: the scene store, its history engine and the canvas gestures

    A shallow embedding of [src/store/canvas-store.ts] (the zustand/immer
    store), of the types of [types/canvas.ts] and of the pointer handlers of
    [components/Canvas.tsx], with the properties of the specification proved
    or refuted on it.

    Conventions of the embedding.
    - JavaScript numbers are rationals ([Q]); equalities between computed
      numbers are stated with [==] ([Qeq]).  Timestamps are integers ([Z]).
    - [Record<string, T>] objects are finite maps ([gmap string T]); arrays
      are lists.  An object that is read from a text comes with the list
      that [Object.keys] gives for it ([JsObject]), since the order that
      the store takes from an imported document is that list.  Where the
      store enumerates its own map ([selectAll], [zoomToFit]) the
      statements do not depend on the order of the enumeration.
    - The store is updated through immer: every [set] produces a new
      immutable state, objects saved in history entries are never mutated
      later, and a recipe that throws leaves the state as it was.  A state
      is therefore a value, and an operation is a function on states.
    - [createId()] and [Date.now()] are inputs of the operations that call
      them.
    - An operation that may throw, or that may leave a value outside the
      declared types in the store (an [undefined] array slot or map entry),
      returns an [option]; [None] stands for those runs. *)

From Stdlib Require Import ZArith QArith Qround Qminmax Qabs Sorted Lia Lqa.
From stdpp Require Import base option list gmap strings pretty fin_maps.

Local Open Scope Z_scope.

(** ** Base types ([types/canvas.ts]) *)

Record Point := mkPoint { p_x : Q; p_y : Q }.

Record Bounds := mkBounds { b_x : Q; b_y : Q; b_width : Q; b_height : Q }.

Record Transform := mkTransform { t_x : Q; t_y : Q; t_scale : Q }.

Inductive ElementType :=
  | rectangle | ellipse | diamond | triangle | line | arrow
  | freedraw | text | image | frame | sticky | connector.

Inductive StrokeKind := solid | dashed | dotted.

Record StrokeStyle := mkStroke
  { stroke_color : string; stroke_width : Q; stroke_style : StrokeKind }.

Inductive FillKind := fill_solid | fill_hachure | fill_cross_hatch | fill_none.

Record FillStyle := mkFill { fill_type : FillKind; fill_color : string }.

Inductive FontWeight := weight_normal | weight_bold.
Inductive FontStyle := style_normal | style_italic.
Inductive TextAlign := align_left | align_center | align_right.
Inductive VerticalAlign := valign_top | valign_middle | valign_bottom.

Record TextStyle := mkTextStyle
  { fontSize : Q; fontFamily : string; fontWeight : FontWeight;
    fontStyle : FontStyle; textAlign : TextAlign;
    verticalAlign : VerticalAlign; textColor : string; lineHeight : Q }.

(** The fields a variant adds to [BaseElement].  The store copies them as
    they are; only the gestures of the canvas build them. *)
Inductive Detail :=
  | ShapeDetail (stroke : StrokeStyle) (fill : FillStyle) (cornerRadius : Q)
                (label : option string)
  | PathDetail (points : list Point) (stroke : StrokeStyle)
  | TextDetail (content : string) (style : TextStyle)
  | OtherDetail.

Record Element := mkElement
  { el_id : string;
    el_type : ElementType;
    el_x : Q;
    el_y : Q;
    el_width : Q;
    el_height : Q;
    el_rotation : Q;
    el_opacity : Q;
    el_locked : bool;
    el_groupId : option string;
    el_zIndex : Z;
    el_createdAt : Z;
    el_updatedAt : Z;
    el_detail : Detail }.

(** [Partial<CanvasElement>]: the fields present in an update object. *)
Record ElementPatch := mkPatch
  { u_id : option string;
    u_type : option ElementType;
    u_x : option Q;
    u_y : option Q;
    u_width : option Q;
    u_height : option Q;
    u_rotation : option Q;
    u_opacity : option Q;
    u_locked : option bool;
    u_groupId : option (option string);
    u_zIndex : option Z;
    u_createdAt : option Z;
    u_detail : option Detail }.

Definition noPatch : ElementPatch :=
  mkPatch None None None None None None None None None None None None None.

Inductive Tool :=
  | tool_select | tool_hand | tool_rectangle | tool_ellipse | tool_diamond
  | tool_triangle | tool_line | tool_arrow | tool_freedraw | tool_text
  | tool_sticky | tool_frame | tool_connector | tool_eraser | tool_laser.

Inductive ResizeHandle :=
  | h_nw | h_n | h_ne | h_w | h_e | h_sw | h_s | h_se | h_rotation.

Inductive HistoryType := hist_add | hist_update | hist_delete | hist_batch.

Record HistoryEntry := mkEntry
  { h_id : string;
    h_timestamp : Z;
    h_type : HistoryType;
    h_elementIds : list string;
    h_before : gmap string (option Element);
    h_after : gmap string (option Element) }.

(** The argument of [pushHistory]: [Omit<HistoryEntry, 'id' | 'timestamp'>]. *)
Record HistoryInput := mkInput
  { i_type : HistoryType;
    i_elementIds : list string;
    i_before : gmap string (option Element);
    i_after : gmap string (option Element) }.

Record CanvasState := mkState
  { elements : gmap string Element;
    elementOrder : list string;
    transform : Transform;
    gridEnabled : bool;
    snapToGrid : bool;
    gridSize : Q;
    selectedIds : list string;
    hoveredId : option string;
    activeTool : Tool;
    currentStroke : StrokeStyle;
    currentFill : FillStyle;
    currentTextStyle : TextStyle;
    roughStyle : bool;
    darkMode : bool;
    history : list HistoryEntry;
    historyIndex : Z;
    isDrawing : bool;
    isPanning : bool;
    isResizing : bool;
    resizeHandle : option ResizeHandle;
    clipboard : list Element }.

Definition DEFAULT_STROKE : StrokeStyle := mkStroke "#e5e7eb" 2 solid.
Definition DEFAULT_FILL : FillStyle := mkFill fill_solid "#ffffff".
Definition DEFAULT_TEXT_STYLE : TextStyle :=
  mkTextStyle 16 "Inter, system-ui, sans-serif" weight_normal style_normal
              align_center valign_middle "#1e1e1e" (14 # 10).

Definition initialState : CanvasState :=
  {| elements := ∅; elementOrder := [];
     transform := mkTransform 0 0 1;
     gridEnabled := true; snapToGrid := true; gridSize := 20;
     selectedIds := []; hoveredId := None; activeTool := tool_select;
     currentStroke := DEFAULT_STROKE; currentFill := DEFAULT_FILL;
     currentTextStyle := DEFAULT_TEXT_STYLE;
     roughStyle := false; darkMode := false;
     history := []; historyIndex := -1;
     isDrawing := false; isPanning := false; isResizing := false;
     resizeHandle := None; clipboard := [] |}.

(** Field updates of the draft. *)
Definition set_doc (els : gmap string Element) (ord : list string)
    (s : CanvasState) : CanvasState :=
  mkState els ord (transform s) (gridEnabled s) (snapToGrid s) (gridSize s)
    (selectedIds s) (hoveredId s) (activeTool s) (currentStroke s)
    (currentFill s) (currentTextStyle s) (roughStyle s) (darkMode s)
    (history s) (historyIndex s) (isDrawing s) (isPanning s) (isResizing s)
    (resizeHandle s) (clipboard s).

Definition set_elements (els : gmap string Element) (s : CanvasState) :=
  set_doc els (elementOrder s) s.

Definition set_elementOrder (ord : list string) (s : CanvasState) :=
  set_doc (elements s) ord s.

Definition set_selectedIds (sel : list string) (s : CanvasState)
    : CanvasState :=
  mkState (elements s) (elementOrder s) (transform s) (gridEnabled s)
    (snapToGrid s) (gridSize s) sel (hoveredId s) (activeTool s)
    (currentStroke s) (currentFill s) (currentTextStyle s) (roughStyle s)
    (darkMode s) (history s) (historyIndex s) (isDrawing s) (isPanning s)
    (isResizing s) (resizeHandle s) (clipboard s).

Definition set_transform (t : Transform) (s : CanvasState)
    : CanvasState :=
  mkState (elements s) (elementOrder s) t (gridEnabled s) (snapToGrid s)
    (gridSize s) (selectedIds s) (hoveredId s) (activeTool s)
    (currentStroke s) (currentFill s) (currentTextStyle s) (roughStyle s)
    (darkMode s) (history s) (historyIndex s) (isDrawing s) (isPanning s)
    (isResizing s) (resizeHandle s) (clipboard s).

Definition set_history (h : list HistoryEntry) (i : Z) (s : CanvasState)
    : CanvasState :=
  mkState (elements s) (elementOrder s) (transform s) (gridEnabled s)
    (snapToGrid s) (gridSize s) (selectedIds s) (hoveredId s) (activeTool s)
    (currentStroke s) (currentFill s) (currentTextStyle s) (roughStyle s)
    (darkMode s) h i (isDrawing s) (isPanning s) (isResizing s)
    (resizeHandle s) (clipboard s).

Definition set_activeTool (t : Tool) (s : CanvasState)
    : CanvasState :=
  mkState (elements s) (elementOrder s) (transform s) (gridEnabled s)
    (snapToGrid s) (gridSize s) (selectedIds s) (hoveredId s) t
    (currentStroke s) (currentFill s) (currentTextStyle s) (roughStyle s)
    (darkMode s) (history s) (historyIndex s) (isDrawing s) (isPanning s)
    (isResizing s) (resizeHandle s) (clipboard s).

Definition set_clipboard (c : list Element) (s : CanvasState)
    : CanvasState :=
  mkState (elements s) (elementOrder s) (transform s) (gridEnabled s)
    (snapToGrid s) (gridSize s) (selectedIds s) (hoveredId s) (activeTool s)
    (currentStroke s) (currentFill s) (currentTextStyle s) (roughStyle s)
    (darkMode s) (history s) (historyIndex s) (isDrawing s) (isPanning s)
    (isResizing s) (resizeHandle s) c.

(** ** Array primitives of JavaScript used by the store *)

(** [arr.indexOf(id)]: [None] is [-1]. *)
Fixpoint indexOf (i : string) (l : list string) : option nat :=
  match l with
  | [] => None
  | j :: l' => if decide (j = i) then Some 0%nat else S <$> indexOf i l'
  end.

(** [arr.includes(id)]. *)
Definition includes (l : list string) (i : string) : bool :=
  bool_decide (i ∈ l).

(** [const idx = arr.indexOf(id); if (idx !== -1) arr.splice(idx, 1)]. *)
Definition spliceOut (i : string) (l : list string) : list string :=
  match indexOf i l with
  | Some k => delete k l
  | None => l
  end.

(** [arr.slice(0, e)] for an integer [e] (a negative [e] counts from the end). *)
Definition slice0 {A} (l : list A) (e : Z) : list A :=
  if decide (e < 0) then take (Z.to_nat (Z.of_nat (length l) + e)) l
  else take (Z.to_nat e) l.

(** [arr[i]] for an integer [i]: [None] is [undefined]. *)
Definition at_index {A} (l : list A) (i : Z) : option A :=
  if decide (i < 0) then None else l !! Z.to_nat i.

(** [Object.keys(obj)]. *)
Definition keys {A} (m : gmap string A) : list string := (map_to_list m).*1.

(** ** Elements *)

(** [Object.assign(el, updates, { updatedAt: now })]. *)
Definition assign (el : Element) (u : ElementPatch) (now : Z) : Element :=
  {| el_id := default (el_id el) (u_id u);
     el_type := default (el_type el) (u_type u);
     el_x := default (el_x el) (u_x u);
     el_y := default (el_y el) (u_y u);
     el_width := default (el_width el) (u_width u);
     el_height := default (el_height el) (u_height u);
     el_rotation := default (el_rotation el) (u_rotation u);
     el_opacity := default (el_opacity el) (u_opacity u);
     el_locked := default (el_locked el) (u_locked u);
     el_groupId := default (el_groupId el) (u_groupId u);
     el_zIndex := default (el_zIndex el) (u_zIndex u);
     el_createdAt := default (el_createdAt el) (u_createdAt u);
     el_updatedAt := now;
     el_detail := default (el_detail el) (u_detail u) |}.

(** [pushHistory(entry)]; [hid] is the [createId()] and [ts] the
    [Date.now()] of the call. *)
Definition stamp (hid : string) (ts : Z) (e : HistoryInput) : HistoryEntry :=
  mkEntry hid ts (i_type e) (i_elementIds e) (i_before e) (i_after e).

Definition pushHistory (e : HistoryInput) (hid : string) (ts : Z)
    (s : CanvasState) : CanvasState :=
  let h := slice0 (history s) (historyIndex s + 1) ++ [stamp hid ts e] in
  let i := Z.of_nat (length h) - 1 in
  if decide (100 < Z.of_nat (length h))
  then set_history (drop 1 h) (i - 1) s
  else set_history h i s.

Definition addElement (el : Element) (hid : string) (ts : Z)
    (s : CanvasState) : CanvasState :=
  let before : gmap string (option Element) := {[ el_id el := None ]} in
  let after : gmap string (option Element) := {[ el_id el := Some el ]} in
  let s1 := set_doc (<[el_id el := el]> (elements s))
                    (elementOrder s ++ [el_id el]) s in
  pushHistory (mkInput hist_add [el_id el] before after) hid ts s1.

Definition updateElement (i : string) (u : ElementPatch) (now : Z)
    (hid : string) (ts : Z) (s : CanvasState) : CanvasState :=
  match elements s !! i with
  | None => s
  | Some el =>
      let before : gmap string (option Element) := {[ i := Some el ]} in
      let s1 := set_elements (<[i := assign el u now]> (elements s)) s in
      let after : gmap string (option Element) := {[ i := elements s1 !! i ]} in
      pushHistory (mkInput hist_update [i] before after) hid ts s1
  end.

Definition updateElementSilent (i : string) (u : ElementPatch) (now : Z)
    (s : CanvasState) : CanvasState :=
  match elements s !! i with
  | None => s
  | Some el => set_elements (<[i := assign el u now]> (elements s)) s
  end.

(** [ids.forEach(id => { delete elements[id]; splice it out of the order })]. *)
Definition deleteLoop (ids : list string) (s : CanvasState) : CanvasState :=
  foldl (fun d i => set_doc (delete i (elements d))
                            (spliceOut i (elementOrder d)) d) s ids.

Definition deleteElements (ids : list string) (hid : string) (ts : Z)
    (s : CanvasState) : CanvasState :=
  let before : gmap string (option Element) :=
    foldl (fun b i => <[i := elements s !! i]> b) ∅ ids in
  let after : gmap string (option Element) :=
    foldl (fun a i => <[i := None]> a) ∅ ids in
  let s1 := deleteLoop ids s in
  let s2 :=
    set_selectedIds
      (filter (fun i => negb (includes ids i)) (selectedIds s1)) s1 in
  pushHistory (mkInput hist_delete ids before after) hid ts s2.

(** A deep copy with the fields that [duplicateElements] and [paste]
    overwrite. *)
Definition cloneAt (el : Element) (newId : string) (dx dy : Q)
    (created updated : Z) : Element :=
  {| el_id := newId; el_type := el_type el;
     el_x := (el_x el + dx)%Q; el_y := (el_y el + dy)%Q;
     el_width := el_width el; el_height := el_height el;
     el_rotation := el_rotation el; el_opacity := el_opacity el;
     el_locked := el_locked el; el_groupId := el_groupId el;
     el_zIndex := el_zIndex el;
     el_createdAt := created; el_updatedAt := updated;
     el_detail := el_detail el |}.

(** The copies of [src], the [k]-th with the [k]-th identifier that
    [createId()] returns and the readings [2k] and [2k+1] of the clock. *)
Definition clones (src : list Element) (dx dy : Q) (fresh : nat -> string)
    (clock : nat -> Z) : list Element :=
  imap (fun k el => cloneAt el (fresh k) dx dy
                      (clock (2 * k)%nat) (clock (2 * k + 1)%nat)) src.

(** [newElements.forEach(el => { elements[el.id] = el; order.push(el.id) })]. *)
Definition insertAll (news : list Element) (s : CanvasState) : CanvasState :=
  foldl (fun d el => set_doc (<[el_id el := el]> (elements d))
                             (elementOrder d ++ [el_id el]) d) s news.

Definition duplicateElements (ids : list string) (fresh : nat -> string)
    (clock : nat -> Z) (s : CanvasState) : CanvasState * list Element :=
  let found := omap (fun i => elements s !! i) ids in
  let news := clones found 20 20 fresh clock in
  (set_selectedIds (el_id <$> news) (insertAll news s), news).

(** ** Selection *)

Definition setSelection (ids : list string) (s : CanvasState) : CanvasState :=
  set_selectedIds ids s.

Definition addToSelection (i : string) (s : CanvasState) : CanvasState :=
  if includes (selectedIds s) i then s
  else set_selectedIds (selectedIds s ++ [i]) s.

Definition removeFromSelection (i : string) (s : CanvasState) : CanvasState :=
  set_selectedIds (filter (fun j => j ≠ i) (selectedIds s)) s.

Definition clearSelection (s : CanvasState) : CanvasState :=
  set_selectedIds [] s.

Definition selectAll (s : CanvasState) : CanvasState :=
  set_selectedIds
    (filter (fun p => negb (el_locked p.2)) (map_to_list (elements s))).*1 s.

Definition setTool (t : Tool) (s : CanvasState) : CanvasState :=
  let s1 := set_activeTool t s in
  match t with
  | tool_select => s1
  | _ => set_selectedIds [] s1
  end.

(** ** History *)

(** One iteration of the loop of [undo] (with [snap = entry.before]) and of
    [redo] (with [snap = entry.after]).  An identifier missing from [snap]
    reads [undefined], which the loop would store in the map. *)
Definition restore (snap : gmap string (option Element)) (s : CanvasState)
    (i : string) : option CanvasState :=
  match snap !! i with
  | None => None
  | Some None =>
      Some (set_doc (delete i (elements s)) (spliceOut i (elementOrder s)) s)
  | Some (Some el) =>
      Some (set_doc (<[i := el]> (elements s))
                    (if includes (elementOrder s) i then elementOrder s
                     else elementOrder s ++ [i]) s)
  end.

Definition restoreAll (snap : gmap string (option Element))
    (ids : list string) (s : CanvasState) : option CanvasState :=
  foldl (fun acc i => acc ≫= fun d => restore snap d i) (Some s) ids.

Definition undo (s : CanvasState) : option CanvasState :=
  if decide (historyIndex s < 0) then Some s
  else
    entry ← at_index (history s) (historyIndex s);
    d ← restoreAll (h_before entry) (h_elementIds entry) s;
    Some (set_history (history d) (historyIndex d - 1) d).

Definition redo (s : CanvasState) : option CanvasState :=
  if decide (Z.of_nat (length (history s)) - 1 <= historyIndex s) then Some s
  else
    entry ← at_index (history s) (historyIndex s + 1);
    d ← restoreAll (h_after entry) (h_elementIds entry) s;
    Some (set_history (history d) (historyIndex d + 1) d).

Definition selectCanUndo (s : CanvasState) : bool :=
  bool_decide (0 <= historyIndex s).

Definition selectCanRedo (s : CanvasState) : bool :=
  bool_decide (historyIndex s < Z.of_nat (length (history s)) - 1).

(** ** Viewport transform *)

Record TransformPatch := mkTPatch
  { tp_x : option Q; tp_y : option Q; tp_scale : option Q }.

(** [Object.assign(draft.transform, transform)]. *)
Definition setTransform (p : TransformPatch) (s : CanvasState) : CanvasState :=
  set_transform
    (mkTransform (default (t_x (transform s)) (tp_x p))
                 (default (t_y (transform s)) (tp_y p))
                 (default (t_scale (transform s)) (tp_scale p))) s.

Definition with_scale (q : Q) (s : CanvasState) : CanvasState :=
  set_transform (mkTransform (t_x (transform s)) (t_y (transform s)) q) s.

Definition zoomIn (s : CanvasState) : CanvasState :=
  with_scale (Qmin (t_scale (transform s) * (12 # 10)) 10)%Q s.

Definition zoomOut (s : CanvasState) : CanvasState :=
  with_scale (Qmax (t_scale (transform s) / (12 # 10)) (1 # 10))%Q s.

Definition resetZoom (s : CanvasState) : CanvasState :=
  set_transform (mkTransform 0 0 1) s.

(** [getElementsBounds]: the running minima and maxima start at the first
    element, which is what the initial [Infinity] and [-Infinity] amount to. *)
Definition getElementsBounds (els : list Element) : option Bounds :=
  match els with
  | [] => None
  | e :: rest =>
      let minX := foldl (fun m el => Qmin m (el_x el)) (el_x e) rest in
      let minY := foldl (fun m el => Qmin m (el_y el)) (el_y e) rest in
      let maxX := foldl (fun m el => Qmax m (el_x el + el_width el)%Q)
                        (el_x e + el_width e)%Q rest in
      let maxY := foldl (fun m el => Qmax m (el_y el + el_height el)%Q)
                        (el_y e + el_height e)%Q rest in
      Some (mkBounds minX minY (maxX - minX)%Q (maxY - minY)%Q)
  end.

(** A quotient of two numbers, which need not be finite. *)
Inductive JsNum := Fin (q : Q) | PosInf | NegInf | NaN.

(** [a / b]: a division by zero gives an infinity with the sign of [a],
    and [NaN] for [0 / 0]. *)
Definition jsDiv (a b : Q) : JsNum :=
  if Qeq_bool b 0
  then (if Qeq_bool a 0 then NaN else if Qle_bool 0 a then PosInf else NegInf)
  else Fin (a / b).

(** [Math.min(a, b, 1)]. *)
Definition jsMin1 (a b : JsNum) : JsNum :=
  match a, b with
  | NaN, _ | _, NaN => NaN
  | NegInf, _ | _, NegInf => NegInf
  | PosInf, PosInf => Fin 1
  | PosInf, Fin q | Fin q, PosInf => Fin (Qmin q 1)
  | Fin p, Fin q => Fin (Qmin (Qmin p q) 1)
  end.

(** [zoomToFit] for a window of [innerWidth] by [innerHeight] pixels.  A
    box without width or height makes a quotient infinite; [None] is a
    run that stores a scale that is not a finite number ([-Infinity] or
    [NaN]). *)
Definition zoomToFit (innerWidth innerHeight : Q) (s : CanvasState)
    : option CanvasState :=
  match getElementsBounds (map_to_list (elements s)).*2 with
  | None => Some s
  | Some b =>
      let padding : Q := 100%Q in
      let viewWidth := (innerWidth - padding * 2)%Q in
      let viewHeight := (innerHeight - padding * 2)%Q in
      match jsMin1 (jsDiv viewWidth (b_width b))
                   (jsDiv viewHeight (b_height b)) with
      | Fin scale =>
          Some (set_transform
                  (mkTransform
                     (- b_x b * scale + (innerWidth - b_width b * scale) / 2)%Q
                     (- b_y b * scale
                      + (innerHeight - b_height b * scale) / 2)%Q
                     scale) s)
      | _ => None
      end
  end.

(** ** Clipboard *)

Definition copy (s : CanvasState) : CanvasState :=
  set_clipboard (omap (fun i => elements s !! i) (selectedIds s)) s.

Definition cut (hid : string) (ts : Z) (s : CanvasState) : CanvasState :=
  deleteElements (selectedIds s) hid ts (copy s).

Definition paste (offset : Point) (fresh : nat -> string) (clock : nat -> Z)
    (s : CanvasState) : CanvasState :=
  match clipboard s with
  | [] => s
  | _ =>
      let news := clones (clipboard s) (p_x offset) (p_y offset) fresh clock in
      set_selectedIds (el_id <$> news) (insertAll news s)
  end.

Definition defaultPasteOffset : Point := mkPoint 20 20.

(** ** Z-order *)

Definition bringToFront (ids : list string) (s : CanvasState) : CanvasState :=
  let remaining := filter (fun i => negb (includes ids i)) (elementOrder s) in
  set_elementOrder (remaining ++ ids) s.

Definition sendToBack (ids : list string) (s : CanvasState) : CanvasState :=
  let remaining := filter (fun i => negb (includes ids i)) (elementOrder s) in
  set_elementOrder (ids ++ remaining) s.

(** [[arr[i], arr[j]] = [arr[j], arr[i]]] for two indices inside the array. *)
Definition swapAt (i j : nat) (l : list string) : list string :=
  match l !! i, l !! j with
  | Some a, Some b => <[j := a]> (<[i := b]> l)
  | _, _ => l
  end.

(** One iteration of [bringForward].  For an identifier that is not in a
    non-empty array [idx] is [-1], the test [idx < length - 1] passes and
    the swap writes [undefined] into slot 0. *)
Definition forwardStep (ord : list string) (i : string)
    : option (list string) :=
  match indexOf i ord with
  | Some idx =>
      if decide (idx < length ord - 1)%nat
      then Some (swapAt idx (idx + 1) ord) else Some ord
  | None => match ord with [] => Some [] | _ => None end
  end.

(** One iteration of [sendBackward]. *)
Definition backwardStep (ord : list string) (i : string) : list string :=
  match indexOf i ord with
  | Some idx => if decide (0 < idx)%nat then swapAt idx (idx - 1) ord else ord
  | None => ord
  end.

Definition bringForward (ids : list string) (s : CanvasState)
    : option CanvasState :=
  ord ← foldl (fun acc i => acc ≫= fun o => forwardStep o i)
              (Some (elementOrder s)) ids;
  Some (set_elementOrder ord s).

Definition sendBackward (ids : list string) (s : CanvasState) : CanvasState :=
  set_elementOrder (foldl backwardStep (elementOrder s) ids) s.

(** ** Grouping *)

Definition with_groupId (g : option string) (el : Element) : Element :=
  mkElement (el_id el) (el_type el) (el_x el) (el_y el) (el_width el)
    (el_height el) (el_rotation el) (el_opacity el) (el_locked el) g
    (el_zIndex el) (el_createdAt el) (el_updatedAt el) (el_detail el).

Definition group (ids : list string) (groupId : string) (s : CanvasState)
    : CanvasState * string :=
  (set_elements
     (foldl (fun m i => alter (with_groupId (Some groupId)) i m)
            (elements s) ids) s,
   groupId).

Definition ungroup (groupId : string) (s : CanvasState) : CanvasState :=
  set_elements
    ((fun el => if decide (el_groupId el = Some groupId)
                then with_groupId None el else el) <$> elements s) s.

(** ** Import and clear *)

(** [ks] names each key of [m] once: it can be what [Object.keys] gives
    for an object with the properties [m]. *)
Definition enumerates (m : gmap string Element) (ks : list string) : bool :=
  bool_decide (NoDup ks)
  && forallb (fun i => bool_decide (is_Some (m !! i))) ks
  && forallb (fun i => bool_decide (i ∈ ks)) (keys m).

(** An object of elements as [JSON.parse] builds it: its properties, and
    the list of its keys in the order in which [Object.keys] gives them. *)
Record JsObject := mkObj
  { obj_map : gmap string Element;
    obj_keys : list string;
    obj_wf : Is_true (enumerates obj_map obj_keys) }.

(** What [importFromJSON] reads in a property of the parsed value. *)
Inductive Slot (A : Type) :=
  | Nullish                      (* the property is absent, or is [null] *)
  | FalsyPrim                    (* [false], [0] or the empty string *)
  | Typed (a : A)                (* a value of the declared type *)
  | Untyped (ks : list string).  (* another truthy value; [ks] are its keys *)
Arguments Nullish {A}.
Arguments FalsyPrim {A}.
Arguments Typed {A} a.
Arguments Untyped {A} ks.

(** The outcome of [JSON.parse(json)].  A number, a string, a boolean or an
    array has neither property: it is [ParsedValue Nullish Nullish]. *)
Inductive Parsed :=
  | ParseThrows
  | ParsedNull
  | ParsedValue (els : Slot JsObject) (ord : Slot (list string)).

Definition install (els : gmap string Element) (ord : list string)
    (s : CanvasState) : CanvasState :=
  set_history [] (-1) (set_selectedIds [] (set_doc els ord s)).

(** [importFromJSON] on the outcome of the parse.  An exception in the
    [try] block is caught and the store is as before; [None] is a draft
    committed with a value of a foreign type in [elements] or in
    [elementOrder]. *)
Definition importFromJSON (data : Parsed) (s : CanvasState)
    : option CanvasState :=
  match data with
  | ParseThrows => Some s
  | ParsedNull => Some s
  | ParsedValue els ord =>
      match ord with
      | Typed o =>
          match els with
          | Typed m => Some (install (obj_map m) o s)
          | Untyped _ => None
          | Nullish | FalsyPrim => Some (install ∅ o s)
          end
      | Untyped _ => None
      | Nullish | FalsyPrim =>
          match els with
          | Nullish => Some s
          | FalsyPrim => Some (install ∅ [] s)
          | Typed m => Some (install (obj_map m) (obj_keys m) s)
          | Untyped _ => None
          end
      end
  end.

Definition clear (s : CanvasState) : CanvasState := install ∅ [] s.

(** ** Canvas gestures ([components/Canvas.tsx]) *)

Definition Qltb (a b : Q) : bool := negb (Qle_bool b a).

Definition screenToCanvas (t : Transform) (screenX screenY : Q) : Point :=
  mkPoint ((screenX - t_x t) / t_scale t)%Q ((screenY - t_y t) / t_scale t)%Q.

(** [Math.round]: the nearest integer, halves upwards. *)
Definition jsRound (q : Q) : Z := Qfloor (q + (1 # 2))%Q.

(** [snap ? Math.round(v / gridSize) * gridSize : v].  With snapping on
    and a [gridSize] of 0 the code computes [NaN], for which no rational
    stands: what is stated of a snapped coordinate is stated for a grid
    size other than 0. *)
Definition snapCoord (snap : bool) (g v : Q) : Q :=
  if snap then (inject_Z (jsRound (v / g)) * g)%Q else v.

Definition snapToGridPoint (s : CanvasState) (p : Point) : Point :=
  if snapToGrid s
  then mkPoint (snapCoord true (gridSize s) (p_x p))
               (snapCoord true (gridSize s) (p_y p))
  else p.

(** [handleWheel]: [mouseX], [mouseY] is the pointer inside the canvas. *)
Definition wheelScale (scale deltaY : Q) : Q :=
  let delta := if Qltb 0 deltaY then (9 # 10)%Q else (11 # 10)%Q in
  Qmin (Qmax (scale * delta) (1 # 10)) 10%Q.

Definition handleWheel (mouseX mouseY deltaY : Q) (s : CanvasState)
    : CanvasState :=
  let t := transform s in
  let newScale := wheelScale (t_scale t) deltaY in
  let newX := (mouseX - (mouseX - t_x t) * (newScale / t_scale t))%Q in
  let newY := (mouseY - (mouseY - t_y t) * (newScale / t_scale t))%Q in
  setTransform (mkTPatch (Some newX) (Some newY) (Some newScale)) s.

(** The panning branch of [handleMouseMove]. *)
Definition panBy (dx dy : Q) (s : CanvasState) : CanvasState :=
  setTransform (mkTPatch (Some (t_x (transform s) + dx)%Q)
                         (Some (t_y (transform s) + dy)%Q) None) s.

Definition selectOrderedElements (s : CanvasState) : list Element :=
  omap (fun i => elements s !! i) (elementOrder s).

Definition hits (p : Point) (el : Element) : bool :=
  Qle_bool (el_x el) (p_x p) && Qle_bool (p_x p) (el_x el + el_width el)
  && Qle_bool (el_y el) (p_y p) && Qle_bool (p_y p) (el_y el + el_height el).

(** [findElementAtPoint]: the topmost element whose box holds the point. *)
Definition findElementAtPoint (els : list Element) (p : Point)
    : option Element :=
  head (filter (fun el => hits p el) (reverse els)).

(** What the canvas remembers of a drag of elements. *)
Record DragSession := mkDrag
  { dragStartCanvas : Point;
    draggedElementStart : list (string * Point) }.

(** The branch of [handleMouseDown] for the select tool. *)
Definition mouseDownSelect (canvasPoint : Point) (shiftKey : bool)
    (s : CanvasState) : CanvasState * option DragSession :=
  let els := selectOrderedElements s in
  match findElementAtPoint els canvasPoint with
  | Some clicked =>
      let idsToMove :=
        if includes (selectedIds s) (el_id clicked) then selectedIds s
        else if shiftKey then selectedIds s ++ [el_id clicked]
        else [el_id clicked] in
      let s1 :=
        if includes (selectedIds s) (el_id clicked) then s
        else setSelection idsToMove s in
      let starts :=
        omap (fun i => (fun el => (i, mkPoint (el_x el) (el_y el)))
                         <$> head (filter (fun el => bool_decide (el_id el = i)) els))
             idsToMove in
      (s1, Some (mkDrag canvasPoint starts))
  | None => (clearSelection s, None)
  end.

Definition positionPatch (newX newY : Q) : ElementPatch :=
  mkPatch None None (Some newX) (Some newY) None None None None None None
          None None None.

(** The branch of [handleMouseMove] that drags the selected elements; the
    [k]-th silent update reads the clock at [k]. *)
Definition dragMove (d : DragSession) (canvasPoint : Point) (clock : nat -> Z)
    (s : CanvasState) : CanvasState :=
  let dx := (p_x canvasPoint - p_x (dragStartCanvas d))%Q in
  let dy := (p_y canvasPoint - p_y (dragStartCanvas d))%Q in
  foldl (fun acc '(k, (i, startPos)) =>
           updateElementSilent i
             (positionPatch
                (snapCoord (snapToGrid s) (gridSize s) (p_x startPos + dx))
                (snapCoord (snapToGrid s) (gridSize s) (p_y startPos + dy)))
             (clock k) acc)
        s (imap (fun k x => (k, x)) (draggedElementStart d)).

(** ** Resizing *)

Definition handleName (h : ResizeHandle) : string :=
  match h with
  | h_nw => "nw" | h_n => "n" | h_ne => "ne" | h_w => "w" | h_e => "e"
  | h_sw => "sw" | h_s => "s" | h_se => "se" | h_rotation => "rotation"
  end.

(** [str.includes(sub)]. *)
Fixpoint strIncludes (s sub : string) : bool :=
  String.prefix sub s ||
  match s with
  | EmptyString => false
  | String _ s' => strIncludes s' sub
  end.

(** The [switch] over the handle. *)
Definition rawResize (el : Element) (h : ResizeHandle) (dx dy : Q) : Bounds :=
  let x := el_x el in let y := el_y el in
  let w := el_width el in let ht := el_height el in
  match h with
  | h_nw => mkBounds (x + dx) (y + dy) (w - dx) (ht - dy)
  | h_n => mkBounds x (y + dy) w (ht - dy)
  | h_ne => mkBounds x (y + dy) (w + dx) (ht - dy)
  | h_w => mkBounds (x + dx) y (w - dx) ht
  | h_e => mkBounds x y (w + dx) ht
  | h_sw => mkBounds (x + dx) y (w - dx) (ht + dy)
  | h_s => mkBounds x y w (ht + dy)
  | h_se => mkBounds x y (w + dx) (ht + dy)
  | h_rotation => mkBounds x y w ht
  end%Q.

Definition minSize : Q := 20.

(** "Ensure minimum size". *)
Definition clampMin (el : Element) (h : ResizeHandle) (b : Bounds) : Bounds :=
  let '(newX, newWidth) :=
    if Qltb (b_width b) minSize
    then (if strIncludes (handleName h) "w"
          then (el_x el + el_width el - minSize)%Q else b_x b, minSize)
    else (b_x b, b_width b) in
  let '(newY, newHeight) :=
    if Qltb (b_height b) minSize
    then (if strIncludes (handleName h) "n"
          then (el_y el + el_height el - minSize)%Q else b_y b, minSize)
    else (b_y b, b_height b) in
  mkBounds newX newY newWidth newHeight.

Definition applyResize (el : Element) (h : ResizeHandle) (dx dy : Q) : Bounds :=
  clampMin el h (rawResize el h dx dy).

(** "Snap to grid" of the resized box. *)
Definition snapBox (snap : bool) (g : Q) (b : Bounds) : Bounds :=
  mkBounds (snapCoord snap g (b_x b)) (snapCoord snap g (b_y b))
           (snapCoord snap g (b_width b)) (snapCoord snap g (b_height b)).

Definition boxPatch (b : Bounds) : ElementPatch :=
  mkPatch None None (Some (b_x b)) (Some (b_y b)) (Some (b_width b))
          (Some (b_height b)) None None None None None None None.

(** [setResizing] and [toggleSnapToGrid] of the store. *)
Definition setResizing (b : bool) (h : option ResizeHandle) (s : CanvasState)
    : CanvasState :=
  mkState (elements s) (elementOrder s) (transform s) (gridEnabled s)
    (snapToGrid s) (gridSize s) (selectedIds s) (hoveredId s) (activeTool s)
    (currentStroke s) (currentFill s) (currentTextStyle s) (roughStyle s)
    (darkMode s) (history s) (historyIndex s) (isDrawing s) (isPanning s)
    b h (clipboard s).

Definition toggleSnapToGrid (s : CanvasState) : CanvasState :=
  mkState (elements s) (elementOrder s) (transform s) (gridEnabled s)
    (negb (snapToGrid s)) (gridSize s) (selectedIds s) (hoveredId s)
    (activeTool s) (currentStroke s) (currentFill s) (currentTextStyle s)
    (roughStyle s) (darkMode s) (history s) (historyIndex s) (isDrawing s)
    (isPanning s) (isResizing s) (resizeHandle s) (clipboard s).

(** The local state [resizeStart] of the canvas: the element and the
    pointer at the first move of a resize. *)
Record ResizeStart := mkResizeStart
  { rs_element : Element; rs_point : Point }.

(** The resizing branch of [handleMouseMove].  The handler is made by
    [useCallback]: the one of the last render is kept unless a value in
    its list of dependencies has changed.  The list names [elements], a
    new array after every update of the store, so what the handler reads
    from the store is current.  It does not name [resizeStart]: [seen] is
    the [resizeStart] of the render in which the running handler was made.
    The result is the store after the move and the argument of
    [setResizeStart], when it is called. *)
Definition resizeMove (seen : option ResizeStart) (canvasPoint : Point)
    (now : Z) (s : CanvasState) : CanvasState * option ResizeStart :=
  match isResizing s, resizeHandle s, selectedIds s with
  | true, Some h, [sel] =>
      match seen with
      | None =>
          (s, (fun el => mkResizeStart el canvasPoint)
                <$> head (filter (fun e => bool_decide (el_id e = sel))
                                 (selectOrderedElements s)))
      | Some start =>
          let dx := (p_x canvasPoint - p_x (rs_point start))%Q in
          let dy := (p_y canvasPoint - p_y (rs_point start))%Q in
          let b := snapBox (snapToGrid s) (gridSize s)
                           (applyResize (rs_element start) h dx dy) in
          (updateElementSilent sel (boxPatch b) now s, None)
      end
  | _, _, _ => (s, None)
  end.

(** The moves of the pointer during one resize, each with its
    [Date.now()].  One [seen] serves them all.  The first branch of
    [resizeMove] sets [resizeStart] and leaves the store alone, which
    changes no dependency: the handler stays.  The second updates the
    store, and the handler made after it sees the [resizeStart] that the
    last one saw, since that branch does not set it.  After the press on a
    handle [seen] is [None]: [setResizing] updates the store, and the
    handler is made while [resizeStart] is [null], as it is from the start
    and after the end of every resize. *)
Definition resizeMoves (seen : option ResizeStart)
    (moves : list (Point * Z)) (s : CanvasState) : CanvasState :=
  foldl (fun acc '(p, now) => (resizeMove seen p now acc).1) s moves.

(** * Notions used in the statements *)

(** ** Ranges and handles *)

(** The range that the specification gives to the scale. *)
Definition scaleInRange (q : Q) : Prop := ((1 # 10) <= q /\ q <= 10)%Q.

(** [resizeHandle.includes('w')] and [resizeHandle.includes('n')]. *)
Definition hasWest (h : ResizeHandle) : bool := strIncludes (handleName h) "w".
Definition hasNorth (h : ResizeHandle) : bool := strIncludes (handleName h) "n".

(** ** Runs of the history engine *)

(** The last 100 entries of a stack. *)
Definition last100 {A} (l : list A) : list A := drop (length l - 100) l.

(** The cursor is on the newest entry: nothing is left to redo. *)
Definition cursorAtTop (s : CanvasState) : Prop :=
  historyIndex s = Z.of_nat (length (history s)) - 1.

(** Pushes in a row, each with its [createId()] and [Date.now()]. *)
Definition pushAll (es : list (HistoryInput * string * Z)) (s : CanvasState)
    : CanvasState :=
  foldl (fun acc '(e, hid, ts) => pushHistory e hid ts acc) s es.

Definition stampAll (es : list (HistoryInput * string * Z))
    : list HistoryEntry :=
  (fun '(e, hid, ts) => stamp hid ts e) <$> es.

(** [n] calls of [undo]. *)
Fixpoint undoN (n : nat) (s : CanvasState) : option CanvasState :=
  match n with
  | O => Some s
  | S n' => undo s ≫= undoN n'
  end.

(** The value that a snapshot holds for an identifier. *)
Definition snapAt (snap : gmap string (option Element)) (i : string)
    : option Element := mjoin (snap !! i).

(** ** What an import stores *)



(** ** Invariants of the document *)

(** The order lists the keys of the map, each once. *)
Definition docInv (els : gmap string Element) (ord : list string) : Prop :=
  NoDup ord /\ forall i, i ∈ ord <-> is_Some (els !! i).

Definition orderInv (s : CanvasState) : Prop :=
  docInv (elements s) (elementOrder s).

(** The selection names live elements only. *)
Definition selectionInv (s : CanvasState) : Prop :=
  forall i, i ∈ selectedIds s -> is_Some (elements s !! i).

(** An entry has a snapshot, before and after, for each of its identifiers,
    as the entries built by the store have; the cursor is inside the stack
    or at -1. *)
Definition inputWf (e : HistoryInput) : Prop :=
  forall i, i ∈ i_elementIds e ->
    is_Some (i_before e !! i) /\ is_Some (i_after e !! i).

Definition entryWf (e : HistoryEntry) : Prop :=
  forall i, i ∈ h_elementIds e ->
    is_Some (h_before e !! i) /\ is_Some (h_after e !! i).

Definition historyWf (s : CanvasState) : Prop :=
  -1 <= historyIndex s < Z.of_nat (length (history s))
  /\ Forall entryWf (history s).

(** ** Runs of store operations *)

(** The operations of the store on the document. *)
Inductive Op :=
  | OpAddElement (el : Element) (hid : string) (ts : Z)
  | OpUpdateElement (i : string) (u : ElementPatch) (now : Z)
                    (hid : string) (ts : Z)
  | OpUpdateElementSilent (i : string) (u : ElementPatch) (now : Z)
  | OpDeleteElements (ids : list string) (hid : string) (ts : Z)
  | OpDuplicateElements (ids : list string) (fresh : nat -> string)
                        (clock : nat -> Z)
  | OpSetSelection (ids : list string)
  | OpAddToSelection (i : string)
  | OpRemoveFromSelection (i : string)
  | OpClearSelection
  | OpSelectAll
  | OpSetTool (t : Tool)
  | OpSetTransform (p : TransformPatch)
  | OpZoomIn
  | OpZoomOut
  | OpResetZoom
  | OpUndo
  | OpRedo
  | OpCopy
  | OpCut (hid : string) (ts : Z)
  | OpPaste (offset : Point) (fresh : nat -> string) (clock : nat -> Z)
  | OpBringToFront (ids : list string)
  | OpSendToBack (ids : list string)
  | OpBringForward (ids : list string)
  | OpSendBackward (ids : list string)
  | OpGroup (ids : list string) (groupId : string)
  | OpUngroup (groupId : string)
  | OpImportFromJSON (data : Parsed)
  | OpClear.

Definition step (o : Op) (s : CanvasState) : option CanvasState :=
  match o with
  | OpAddElement el hid ts => Some (addElement el hid ts s)
  | OpUpdateElement i u now hid ts => Some (updateElement i u now hid ts s)
  | OpUpdateElementSilent i u now => Some (updateElementSilent i u now s)
  | OpDeleteElements ids hid ts => Some (deleteElements ids hid ts s)
  | OpDuplicateElements ids fresh clock =>
      Some (duplicateElements ids fresh clock s).1
  | OpSetSelection ids => Some (setSelection ids s)
  | OpAddToSelection i => Some (addToSelection i s)
  | OpRemoveFromSelection i => Some (removeFromSelection i s)
  | OpClearSelection => Some (clearSelection s)
  | OpSelectAll => Some (selectAll s)
  | OpSetTool t => Some (setTool t s)
  | OpSetTransform p => Some (setTransform p s)
  | OpZoomIn => Some (zoomIn s)
  | OpZoomOut => Some (zoomOut s)
  | OpResetZoom => Some (resetZoom s)
  | OpUndo => undo s
  | OpRedo => redo s
  | OpCopy => Some (copy s)
  | OpCut hid ts => Some (cut hid ts s)
  | OpPaste offset fresh clock => Some (paste offset fresh clock s)
  | OpBringToFront ids => Some (bringToFront ids s)
  | OpSendToBack ids => Some (sendToBack ids s)
  | OpBringForward ids => bringForward ids s
  | OpSendBackward ids => Some (sendBackward ids s)
  | OpGroup ids groupId => Some (group ids groupId s).1
  | OpUngroup groupId => Some (ungroup groupId s)
  | OpImportFromJSON data => importFromJSON data s
  | OpClear => Some (clear s)
  end.

(** A run of operations. *)
Fixpoint run (ops : list Op) (s : CanvasState) : option CanvasState :=
  match ops with
  | [] => Some s
  | o :: ops' => step o s ≫= run ops'
  end.

(** Identifiers of live elements. *)
Definition live (s : CanvasState) (i : string) : bool :=
  bool_decide (is_Some (elements s !! i)).

(** Identifiers that [createId()] may return for [n] new elements: new to
    the map and distinct. *)
Definition freshIds (s : CanvasState) (fresh : nat -> string) (n : nat)
    : bool :=
  bool_decide (NoDup (fresh <$> seq 0 n))
  && forallb (fun i => negb (live s i)) (fresh <$> seq 0 n).

(** A parsed document of the declared types whose order lists exactly the
    keys of its map, once each. *)
Definition consistentDoc (data : Parsed) : bool :=
  match data with
  | ParseThrows | ParsedNull => true
  | ParsedValue (Untyped _) _ | ParsedValue _ (Untyped _) => false
  | ParsedValue (Typed m) (Typed o) =>
      bool_decide (NoDup o)
      && forallb (fun i => bool_decide (is_Some (obj_map m !! i))) o
      && forallb (fun i => bool_decide (i ∈ o)) (keys (obj_map m))
  | ParsedValue (Nullish | FalsyPrim) (Typed o) => bool_decide (o = [])
  | ParsedValue _ (Nullish | FalsyPrim) => true
  end.

(** What the callers of the store see to: identifiers handed to the store
    are those of live elements, identifiers of new elements are new, and an
    imported document is consistent. *)
Definition guard (o : Op) (s : CanvasState) : bool :=
  match o with
  | OpAddElement el _ _ => negb (live s (el_id el))
  | OpDuplicateElements ids fresh _ =>
      freshIds s fresh (length (omap (fun i => elements s !! i) ids))
  | OpPaste _ fresh _ => freshIds s fresh (length (clipboard s))
  | OpSetSelection ids => forallb (live s) ids
  | OpAddToSelection i => live s i
  | OpBringToFront ids | OpSendToBack ids =>
      bool_decide (NoDup ids) && forallb (live s) ids
  | OpBringForward ids => forallb (live s) ids
  | OpImportFromJSON data => consistentDoc data
  | _ => true
  end.

(** Every operation of the run is admitted by [guard] in the state it is
    applied to. *)
Fixpoint guarded (ops : list Op) (s : CanvasState) : bool :=
  match ops with
  | [] => true
  | o :: ops' =>
      guard o s && from_option (guarded ops') true (step o s)
  end.

(** [undo] and [redo] restore elements but not the selection. *)
Definition keepsSelection (o : Op) : bool :=
  match o with
  | OpUndo | OpRedo => false
  | _ => true
  end.

(** ** Sample documents *)

Definition elemA : Element :=
  mkElement "a" rectangle 0 0 50 50 0 1 false None 0 0 0 OtherDetail.

(** A second element under the identifier of [elemA]. *)
Definition elemA' : Element :=
  mkElement "a" ellipse 300 300 80 80 0 1 false None 1 1 1 OtherDetail.

(** [elemA], locked. *)
Definition lockedA : Element :=
  mkElement "a" rectangle 0 0 50 50 0 1 true None 0 0 0 OtherDetail.

Definition box100 : Element :=
  mkElement "box" rectangle 10 10 100 100 0 1 false None 0 0 0 OtherDetail.

Definition wideElement : Element :=
  mkElement "wide" rectangle 0 0 20000 100 0 1 false None 0 0 0 OtherDetail.

Definition withA : CanvasState := set_doc {[ "a" := elemA ]} ["a"] initialState.

Definition withLockedA : CanvasState :=
  set_doc {[ "a" := lockedA ]} ["a"] initialState.

(** The order of scenario D. *)
Definition abc : CanvasState := set_elementOrder ["a"; "b"; "c"] initialState.

Definition demoEntries : list (HistoryInput * string * Z) :=
  (fun k => (mkInput hist_batch [] ∅ ∅,
             String.append "h" (pretty k), Z.of_nat k)) <$> seq 0 101.

(** Parsed objects: [{}], [{"a": ...}] and [{"box": ..., "a": ...}], the
    last with its keys in the order of the text. *)
Definition objEmpty : JsObject := mkObj ∅ [] I.

Definition objA : JsObject := mkObj {[ "a" := elemA ]} ["a"] I.


(** [box100] alone in the document and selected, grid snapping switched
    off, after the press on its [se] handle. *)
Definition resizingBox : CanvasState :=
  setResizing true (Some h_se)
    (toggleSnapToGrid
       (setSelection ["box"]
          (set_doc {[ "box" := box100 ]} ["box"] initialState))).

Definition demoRun : list Op :=
  [ OpAddElement elemA "h1" 1;
    OpAddElement box100 "h2" 2;
    OpSetSelection ["a"; "box"];
    OpBringToFront ["a"];
    OpCopy;
    OpPaste defaultPasteOffset (fun k => String.append "n" (pretty k))
            (fun _ => 3);
    OpUndo;
    OpRedo;
    OpDeleteElements ["a"] "h3" 4;
    OpUndo ].

(** * The rest of the store and of the canvas *)

(** ** Selectors and element factory *)

Definition selectSelectedElements (s : CanvasState) : list Element :=
  omap (fun i => elements s !! i) (selectedIds s).

(** [createBaseElement(type, x, y)]; [newId] is the [createId()] and [now]
    the [Date.now()] of the call. *)
Definition createBaseElement (type : ElementType) (x y : Q) (newId : string)
    (now : Z) (detail : Detail) : Element :=
  mkElement newId type x y 0 0 0 1 false None now now now detail.

(** ** Alignment and distribution ([canvas-store.ts]) *)

Inductive AlignmentType :=
  | al_left | al_center | al_right | al_top | al_middle | al_bottom.

Definition with_x (v : Q) (el : Element) : Element :=
  mkElement (el_id el) (el_type el) v (el_y el) (el_width el)
    (el_height el) (el_rotation el) (el_opacity el) (el_locked el)
    (el_groupId el) (el_zIndex el) (el_createdAt el) (el_updatedAt el)
    (el_detail el).

Definition with_y (v : Q) (el : Element) : Element :=
  mkElement (el_id el) (el_type el) (el_x el) v (el_width el)
    (el_height el) (el_rotation el) (el_opacity el) (el_locked el)
    (el_groupId el) (el_zIndex el) (el_createdAt el) (el_updatedAt el)
    (el_detail el).

(** The assignment of one [case] of the [switch] in [alignElements], for the
    element [el] read before the [set]. *)
Definition alignOne (alignment : AlignmentType) (b : Bounds) (el : Element)
    : Element -> Element :=
  match alignment with
  | al_left => with_x (b_x b)
  | al_center => with_x (b_x b + (b_width b - el_width el) / 2)%Q
  | al_right => with_x (b_x b + b_width b - el_width el)%Q
  | al_top => with_y (b_y b)
  | al_middle => with_y (b_y b + (b_height b - el_height el) / 2)%Q
  | al_bottom => with_y (b_y b + b_height b - el_height el)%Q
  end.

(** [draft.elements[el.id].x = v]: a write through a key that is not in the
    map throws. *)
Definition writeAt (i : string) (f : Element -> Element) (s : CanvasState)
    : option CanvasState :=
  match elements s !! i with
  | Some cur => Some (set_elements (<[i := f cur]> (elements s)) s)
  | None => None
  end.

Definition alignElements (ids : list string) (alignment : AlignmentType)
    (s : CanvasState) : option CanvasState :=
  let els := omap (fun i => elements s !! i) ids in
  if decide (length els < 2)%nat then Some s
  else
    match getElementsBounds els with
    | None => Some s
    | Some b =>
        foldl (fun acc el =>
                 acc ≫= writeAt (el_id el) (alignOne alignment b el))
              (Some s) els
    end.

Inductive Direction := horizontal | vertical.

(** [[...elements].sort((a, b) => key(a) - key(b))]: the sort of
    JavaScript is stable, and so is the insertion of each element before
    the first one that is not smaller. *)
Fixpoint insertSorted (key : Element -> Q) (x : Element) (l : list Element)
    : list Element :=
  match l with
  | [] => [x]
  | y :: l' =>
      if Qle_bool (key x) (key y) then x :: y :: l'
      else y :: insertSorted key x l'
  end.

Definition sortBy (key : Element -> Q) (l : list Element) : list Element :=
  foldr (insertSorted key) [] l.

Definition axisPos (d : Direction) (el : Element) : Q :=
  match d with horizontal => el_x el | vertical => el_y el end.

Definition axisSize (d : Direction) (el : Element) : Q :=
  match d with horizontal => el_width el | vertical => el_height el end.

Definition with_axisPos (d : Direction) (v : Q) : Element -> Element :=
  match d with horizontal => with_x v | vertical => with_y v end.

(** [sorted.reduce((sum, el) => sum + size(el), 0)]. *)
Definition totalSizeOf (d : Direction) (l : list Element) : Q :=
  foldl (fun sum el => (sum + axisSize d el)%Q) 0%Q l.

(** The loop of [distributeElements]: the running position and the draft. *)
Definition placeAll (d : Direction) (gap : Q) (pos : Q) (sorted : list Element)
    (s : CanvasState) : option (Q * CanvasState) :=
  foldl (fun acc el =>
           acc ≫= fun '(p, st) =>
             st' ← writeAt (el_id el) (with_axisPos d p) st;
             Some ((p + (axisSize d el + gap))%Q, st'))
        (Some (pos, s)) sorted.

Definition distributeElements (ids : list string) (d : Direction)
    (s : CanvasState) : option CanvasState :=
  let els := omap (fun i => elements s !! i) ids in
  if decide (length els < 3)%nat then Some s
  else
    let sorted := sortBy (axisPos d) els in
    match head sorted, last sorted with
    | Some first, Some lst =>
        let totalSize := totalSizeOf d sorted in
        let totalSpace :=
          (axisPos d lst + axisSize d lst - axisPos d first - totalSize)%Q in
        let gap := (totalSpace / inject_Z (Z.of_nat (length sorted) - 1))%Q in
        snd <$> placeAll d gap (axisPos d first) sorted s
    | _, _ => Some s
    end.

(** ** The rest of the pointer handlers ([components/Canvas.tsx]) *)

(** [findElementsInBox]. *)
Definition inBox (minX maxX minY maxY : Q) (el : Element) : bool :=
  Qle_bool minX (el_x el) && Qle_bool (el_x el + el_width el) maxX
  && Qle_bool minY (el_y el) && Qle_bool (el_y el + el_height el) maxY.

Definition findElementsInBox (els : list Element) (start finish : Point)
    : list Element :=
  let minX := Qmin (p_x start) (p_x finish) in
  let maxX := Qmax (p_x start) (p_x finish) in
  let minY := Qmin (p_y start) (p_y finish) in
  let maxY := Qmax (p_y start) (p_y finish) in
  filter (fun el => inBox minX maxX minY maxY el) els.

(** The branch of [handleMouseUp] that ends a selection box. *)
Definition marqueeEnd (start finish : Point) (s : CanvasState) : CanvasState :=
  setSelection
    (el_id <$> findElementsInBox (selectOrderedElements s) start finish) s.

(** The branch of [handleMouseUp] that ends a drag: the [k]-th entry of
    [draggedElementStart] calls [updateElement] with the clock reading
    [now k] and records it with [hid k] and [ts k]. *)
Definition dragEnd (d : DragSession) (now : nat -> Z) (hid : nat -> string)
    (ts : nat -> Z) (s : CanvasState) : CanvasState :=
  let els := selectOrderedElements s in
  foldl (fun acc '(k, (i, startPos)) =>
           match head (filter (fun el => bool_decide (el_id el = i)) els) with
           | Some el =>
               if negb (Qeq_bool (el_x el) (p_x startPos))
                  || negb (Qeq_bool (el_y el) (p_y startPos))
               then updateElement i (positionPatch (el_x el) (el_y el))
                                  (now k) (hid k) (ts k) acc
               else acc
           | None => acc
           end)
        s (imap (fun k x => (k, x)) (draggedElementStart d)).

(** The draft of a shape tool in [handleMouseMove]: the box between the
    snapped start point and the snapped pointer. *)
Definition with_box (b : Bounds) (el : Element) : Element :=
  mkElement (el_id el) (el_type el) (b_x b) (b_y b) (b_width b)
    (b_height b) (el_rotation el) (el_opacity el) (el_locked el)
    (el_groupId el) (el_zIndex el) (el_createdAt el) (el_updatedAt el)
    (el_detail el).

Definition shapeBox (startPoint snappedPoint : Point) : Bounds :=
  mkBounds (Qmin (p_x snappedPoint) (p_x startPoint))
           (Qmin (p_y snappedPoint) (p_y startPoint))
           (Qabs (p_x snappedPoint - p_x startPoint))
           (Qabs (p_y snappedPoint - p_y startPoint)).

(** The draft of the line and arrow tools: the box is at least 1 by 1. *)
Definition lineBox (startPoint snappedPoint : Point) : Bounds :=
  let dx := (p_x snappedPoint - p_x startPoint)%Q in
  let dy := (p_y snappedPoint - p_y startPoint)%Q in
  mkBounds (Qmin (p_x startPoint) (p_x snappedPoint))
           (Qmin (p_y startPoint) (p_y snappedPoint))
           (Qmax (Qabs dx) 1) (Qmax (Qabs dy) 1).

Definition linePoints (startPoint snappedPoint : Point) : list Point :=
  let dx := (p_x snappedPoint - p_x startPoint)%Q in
  let dy := (p_y snappedPoint - p_y startPoint)%Q in
  let width := Qabs dx in
  let height := Qabs dy in
  [ mkPoint (if Qle_bool 0 dx then 0 else width)
            (if Qle_bool 0 dy then 0 else height);
    mkPoint (if Qle_bool 0 dx then width else 0)
            (if Qle_bool 0 dy then height else 0) ].

Definition isShapeType (t : ElementType) : bool :=
  match t with
  | rectangle | ellipse | diamond | triangle => true
  | _ => false
  end.

(** [{ ...el, points: pts }] for an element that carries [points]. *)
Definition with_points (pts : list Point) (el : Element) : Element :=
  mkElement (el_id el) (el_type el) (el_x el) (el_y el) (el_width el)
    (el_height el) (el_rotation el) (el_opacity el) (el_locked el)
    (el_groupId el) (el_zIndex el) (el_createdAt el) (el_updatedAt el)
    (match el_detail el with
     | PathDetail _ stroke => PathDetail pts stroke
     | other => other
     end).

(** The elements that carry [points]: lines, arrows and pencil strokes. *)
Definition isPath (el : Element) : bool :=
  match el_detail el with
  | PathDetail _ _ => true
  | _ => false
  end.

Definition pathPoints (el : Element) : list Point :=
  match el_detail el with
  | PathDetail pts _ => pts
  | _ => []
  end.

(** [Math.max(Math.max(...vs) - Math.min(...vs), 1)] for a non-empty list. *)
Definition spanOf (vs : list Q) : Q :=
  match vs with
  | [] => 1
  | v :: rest => Qmax (foldl Qmax v rest - foldl Qmin v rest) 1
  end.

(** The draft of the pencil: the pointer is added to the path, relative to
    the origin of the element, and the size is that of the whole path. *)
Definition freedrawStep (canvasPoint : Point) (current : Element) : Element :=
  let relativePoint :=
    mkPoint (p_x canvasPoint - el_x current) (p_y canvasPoint - el_y current) in
  let allPoints := pathPoints current ++ [relativePoint] in
  with_points allPoints
    (with_box (mkBounds (el_x current) (el_y current)
                        (spanOf (p_x <$> allPoints))
                        (spanOf (p_y <$> allPoints))) current).

(** The drawing branch of [handleMouseMove]: the new draft.  [dragStart] is
    the screen point of the press, [canvasPoint] the pointer. *)
Definition drawMove (dragStart : Point) (canvasPoint : Point)
    (current : Element) (s : CanvasState) : Element :=
  if isDrawing s
  then
    let snappedPoint := snapToGridPoint s canvasPoint in
    let startPoint :=
      snapToGridPoint s
        (screenToCanvas (transform s) (p_x dragStart) (p_y dragStart)) in
    if isShapeType (el_type current)
    then with_box (shapeBox startPoint snappedPoint) current
    else
      match el_type current with
      | line | arrow =>
          with_points (linePoints startPoint snappedPoint)
            (with_box (lineBox startPoint snappedPoint) current)
      | freedraw => freedrawStep canvasPoint current
      | _ => current
      end
  else current.

Definition set_isDrawing (b : bool) (s : CanvasState) : CanvasState :=
  mkState (elements s) (elementOrder s) (transform s) (gridEnabled s)
    (snapToGrid s) (gridSize s) (selectedIds s) (hoveredId s) (activeTool s)
    (currentStroke s) (currentFill s) (currentTextStyle s) (roughStyle s)
    (darkMode s) (history s) (historyIndex s) b (isPanning s)
    (isResizing s) (resizeHandle s) (clipboard s).

Definition setDrawing (b : bool) (s : CanvasState) : CanvasState :=
  set_isDrawing b s.

(** The branch of [handleMouseUp] that ends a drawing. *)
Definition drawEnd (current : Element) (hid : string) (ts : Z)
    (s : CanvasState) : CanvasState :=
  if isDrawing s
  then
    let s1 :=
      if Qltb 5 (el_width current) && Qltb 5 (el_height current)
      then setTool tool_select
             (setSelection [el_id current] (addElement current hid ts s))
      else s in
    setDrawing false s1
  else s.

(** ** The selection overlay ([components/SelectionOverlay.tsx]) *)

(** "Transform bounds to screen coordinates". *)
Definition screenBounds (t : Transform) (b : Bounds) : Bounds :=
  mkBounds (b_x b * t_scale t + t_x t) (b_y b * t_scale t + t_y t)
           (b_width b * t_scale t) (b_height b * t_scale t).

(** ** Notions used in the statements about them *)

(** Every element is stored under its own identifier. *)
Definition idsMatch (s : CanvasState) : Prop :=
  forall k el, elements s !! k = Some el -> el_id el = k.

(** An element lies inside a box. *)
Definition within (b : Bounds) (el : Element) : Prop :=
  (b_x b <= el_x el /\ el_x el + el_width el <= b_x b + b_width b
   /\ b_y b <= el_y el /\ el_y el + el_height el <= b_y b + b_height b)%Q.

(** Two elements agree on everything but [updatedAt]. *)
Definition sameButStamp (a b : Element) : Prop :=
  a = mkElement (el_id b) (el_type b) (el_x b) (el_y b) (el_width b)
        (el_height b) (el_rotation b) (el_opacity b) (el_locked b)
        (el_groupId b) (el_zIndex b) (el_createdAt b) (el_updatedAt a)
        (el_detail b).

(** What an alignment asks of the aligned element [el'] of [el]. *)
Definition aligned (al : AlignmentType) (b : Bounds) (el el' : Element)
    : Prop :=
  match al with
  | al_left => el_x el' = b_x b /\ el_y el' = el_y el
  | al_center =>
      (el_x el' + el_width el' / 2 == b_x b + b_width b / 2)%Q
      /\ el_y el' = el_y el
  | al_right =>
      (el_x el' + el_width el' == b_x b + b_width b)%Q /\ el_y el' = el_y el
  | al_top => el_y el' = b_y b /\ el_x el' = el_x el
  | al_middle =>
      (el_y el' + el_height el' / 2 == b_y b + b_height b / 2)%Q
      /\ el_x el' = el_x el
  | al_bottom =>
      (el_y el' + el_height el' == b_y b + b_height b)%Q /\ el_x el' = el_x el
  end.

(** The position that the loop of [distributeElements] gives to the [k]-th
    element of the sorted list: the start, plus the sizes of the elements
    before it and as many gaps. *)
Fixpoint posAt (d : Direction) (gap pos : Q) (l : list Element) (k : nat)
    {struct k} : Q :=
  match k with
  | O => pos
  | S k' =>
      match l with
      | [] => pos
      | el :: r => posAt d gap (pos + (axisSize d el + gap))%Q r k'
      end
  end.

(** ** Sample data for the statements about them *)

Definition twoBoxes : CanvasState :=
  set_doc (<[ "box" := box100 ]> {[ "a" := elemA ]}) ["a"; "box"] initialState.


Definition afterAdd : CanvasState := addElement elemA "h" 1 initialState.

Definition selectedA : CanvasState := setSelection ["a"] withA.

Definition drawingState : CanvasState := setDrawing true initialState.

Definition lineDraft : Element :=
  mkElement "l" line 0 0 0 0 0 1 false None 0 0 0
    (PathDetail [] DEFAULT_STROKE).

Definition threeBoxes : CanvasState :=
  set_doc (<[ "c" := mkElement "c" rectangle 400 0 20 20 0 1 false None 0 0 0
                       OtherDetail ]>
             (<[ "box" := box100 ]> {[ "a" := elemA ]}))
          ["a"; "box"; "c"] initialState.

(** * Properties *)

(** ** Arithmetic helpers *)

Lemma Qltb_lt (a b : Q) : Qltb a b = true <-> (a < b)%Q.
Proof.
  unfold Qltb. rewrite negb_true_iff. split.
  - intros H. apply Qnot_le_lt. intros Hle.
    apply Qle_bool_iff in Hle. congruence.
  - intros H. destruct (Qle_bool b a) eqn:E; [|reflexivity].
    apply Qle_bool_iff in E. exfalso. exact (Qlt_not_le _ _ H E).
Qed.

Lemma Qltb_ge (a b : Q) : Qltb a b = false <-> (b <= a)%Q.
Proof.
  unfold Qltb. rewrite negb_false_iff. apply Qle_bool_iff.
Qed.

Lemma wheelScale_range (scale deltaY : Q) :
  scaleInRange (wheelScale scale deltaY).
Proof.
  unfold scaleInRange, wheelScale. split.
  - apply Q.min_glb; [apply Q.le_max_r | discriminate].
  - apply Q.le_min_r.
Qed.

(** ** The zoom anchor *)

Section ZoomAnchor.
Variable s : CanvasState.
Variables mouseX mouseY deltaY : Q.
Hypothesis scale_ok : scaleInRange (t_scale (transform s)).

Let s' := handleWheel mouseX mouseY deltaY s.

Lemma wheel_scales_nonzero :
  ~ (t_scale (transform s) == 0)%Q /\
  ~ (wheelScale (t_scale (transform s)) deltaY == 0)%Q.
Proof using scale_ok.
  destruct scale_ok as [Hlo _].
  destruct (wheelScale_range (t_scale (transform s)) deltaY) as [Hlo' _].
  split; intros E; rewrite E in *; lra.
Qed.

Lemma wheel_anchor_x :
  (p_x (screenToCanvas (transform s') mouseX mouseY)
   == p_x (screenToCanvas (transform s) mouseX mouseY))%Q.
Proof using scale_ok.
  destruct wheel_scales_nonzero as [H0 H1].
  unfold s', handleWheel, screenToCanvas, setTransform; simpl.
  field. split; assumption.
Qed.

Lemma wheel_anchor_y :
  (p_y (screenToCanvas (transform s') mouseX mouseY)
   == p_y (screenToCanvas (transform s) mouseX mouseY))%Q.
Proof using scale_ok.
  destruct wheel_scales_nonzero as [H0 H1].
  unfold s', handleWheel, screenToCanvas, setTransform; simpl.
  field. split; assumption.
Qed.
End ZoomAnchor.

(** C6.  Zoom-anchor law.  For a transform whose scale lies in [0.1, 10],
    any pointer position and any wheel delta, the wheel handler picks the
    clamped scale and an offset such that the pointer maps to the same
    canvas point before and after, exactly over the rationals. *)
Theorem zoom_anchor_law (s : CanvasState) (mouseX mouseY deltaY : Q) :
  scaleInRange (t_scale (transform s)) ->
  let s' := handleWheel mouseX mouseY deltaY s in
  t_scale (transform s')
    = Qmin (Qmax (t_scale (transform s)
                  * (if Qltb 0 deltaY then 9 # 10 else 11 # 10))
                 (1 # 10)) 10
  /\ t_x (transform s')
      = (mouseX - (mouseX - t_x (transform s))
                  * (t_scale (transform s') / t_scale (transform s)))%Q
  /\ t_y (transform s')
      = (mouseY - (mouseY - t_y (transform s))
                  * (t_scale (transform s') / t_scale (transform s)))%Q
  /\ (p_x (screenToCanvas (transform s') mouseX mouseY)
      == p_x (screenToCanvas (transform s) mouseX mouseY))%Q
  /\ (p_y (screenToCanvas (transform s') mouseX mouseY)
      == p_y (screenToCanvas (transform s) mouseX mouseY))%Q.
Proof.
  intros Hs s'. do 3 (split; [reflexivity|]). split.
  - apply wheel_anchor_x; assumption.
  - apply wheel_anchor_y; assumption.
Qed.

Lemma zoom_anchor_law_witness :
  scaleInRange (t_scale (transform initialState)) /\
  (p_x (screenToCanvas
          (transform (handleWheel 300 200 (-120) initialState)) 300 200)
   == p_x (screenToCanvas (transform initialState) 300 200))%Q.
Proof.
  assert (H : scaleInRange (t_scale (transform initialState)))
    by (split; discriminate).
  split; [exact H|].
  pose proof (zoom_anchor_law initialState 300 200 (-120) H) as HW.
  apply HW.
Defined.

(** ** The range of the scale *)

Lemma zoomIn_range (s : CanvasState) :
  scaleInRange (t_scale (transform s)) ->
  scaleInRange (t_scale (transform (zoomIn s))).
Proof.
  unfold scaleInRange, zoomIn, with_scale; simpl. intros [Hlo Hhi]. split.
  - apply Q.min_glb; lra.
  - apply Q.le_min_r.
Qed.

Lemma zoomOut_range (s : CanvasState) :
  scaleInRange (t_scale (transform s)) ->
  scaleInRange (t_scale (transform (zoomOut s))).
Proof.
  unfold scaleInRange, zoomOut, with_scale; simpl. intros [Hlo Hhi]. split.
  - apply Q.le_max_r.
  - apply Q.max_lub; [|lra].
    apply Qle_shift_div_r; lra.
Qed.

Lemma resetZoom_range (s : CanvasState) :
  scaleInRange (t_scale (transform (resetZoom s))).
Proof. unfold scaleInRange; simpl. lra. Qed.

Lemma handleWheel_range (mouseX mouseY deltaY : Q) (s : CanvasState) :
  scaleInRange (t_scale (transform (handleWheel mouseX mouseY deltaY s))).
Proof. apply wheelScale_range. Qed.

Lemma panBy_scale (dx dy : Q) (s : CanvasState) :
  t_scale (transform (panBy dx dy s)) = t_scale (transform s).
Proof. reflexivity. Qed.

Lemma setTransform_scale (p : TransformPatch) (s : CanvasState) :
  t_scale (transform (setTransform p s))
  = default (t_scale (transform s)) (tp_scale p).
Proof. reflexivity. Qed.

(** [setTransform] stores the scale it is given. *)
Lemma setTransform_unclamped :
  scaleInRange (t_scale (transform initialState)) /\
  ~ scaleInRange
      (t_scale (transform
         (setTransform (mkTPatch None None (Some 20%Q)) initialState))).
Proof.
  split.
  - unfold scaleInRange; simpl; lra.
  - unfold scaleInRange; simpl. intros [_ H]. lra.
Qed.

(** C9, as the code has it.  From a scale in [0.1, 10], [zoomIn], [zoomOut],
    [resetZoom], the wheel handler and panning leave the scale in
    [0.1, 10]; [setTransform] stores the scale of its argument as it is, so
    it keeps the range when that scale is absent or itself in range. *)
Theorem scale_range_preserved (s : CanvasState) :
  scaleInRange (t_scale (transform s)) ->
  scaleInRange (t_scale (transform (zoomIn s)))
  /\ scaleInRange (t_scale (transform (zoomOut s)))
  /\ scaleInRange (t_scale (transform (resetZoom s)))
  /\ (forall mouseX mouseY deltaY,
        scaleInRange
          (t_scale (transform (handleWheel mouseX mouseY deltaY s))))
  /\ (forall dx dy, scaleInRange (t_scale (transform (panBy dx dy s))))
  /\ (forall p,
        t_scale (transform (setTransform p s))
          = default (t_scale (transform s)) (tp_scale p)
        /\ (from_option scaleInRange True (tp_scale p) ->
            scaleInRange (t_scale (transform (setTransform p s))))).
Proof.
  intros Hs.
  split; [apply zoomIn_range, Hs|].
  split; [apply zoomOut_range, Hs|].
  split; [apply resetZoom_range|].
  split; [intros; apply handleWheel_range|].
  split; [intros; rewrite panBy_scale; apply Hs|].
  intros p. split; [apply setTransform_scale|].
  rewrite setTransform_scale. destruct (tp_scale p); simpl; auto.
Qed.

Lemma scale_range_preserved_witness :
  scaleInRange (t_scale (transform initialState)) /\
  scaleInRange (t_scale (transform (zoomIn initialState))).
Proof.
  assert (H : scaleInRange (t_scale (transform initialState)))
    by (unfold scaleInRange; simpl; lra).
  split; [exact H|].
  exact (proj1 (scale_range_preserved initialState H)).
Defined.

(** An element 20000 units wide in a window of 1200 by 800 pixels:
    [zoomToFit] has no lower bound on the scale it picks. *)
Lemma zoomToFit_below_range :
  exists s',
    zoomToFit 1200 800 (set_doc {[ "wide" := wideElement ]} ["wide"] initialState)
      = Some s'
    /\ (t_scale (transform s') == 1 # 20)%Q.
Proof. eexists. split; [vm_compute; reflexivity|]. vm_compute. reflexivity. Qed.

(** ** The minimum size of a resized box *)

Lemma clampMin_width_small el h b :
  (b_width b < minSize)%Q ->
  b_width (clampMin el h b) = minSize /\
  b_x (clampMin el h b)
    = if hasWest h then (el_x el + el_width el - minSize)%Q else b_x b.
Proof.
  intros H. apply Qltb_lt in H. unfold clampMin, hasWest. rewrite H.
  destruct (Qltb (b_height b) minSize); simpl; auto.
Qed.

Lemma clampMin_width_large el h b :
  (minSize <= b_width b)%Q ->
  b_width (clampMin el h b) = b_width b /\ b_x (clampMin el h b) = b_x b.
Proof.
  intros H. apply Qltb_ge in H. unfold clampMin. rewrite H.
  destruct (Qltb (b_height b) minSize); simpl; auto.
Qed.

Lemma clampMin_height_small el h b :
  (b_height b < minSize)%Q ->
  b_height (clampMin el h b) = minSize /\
  b_y (clampMin el h b)
    = if hasNorth h then (el_y el + el_height el - minSize)%Q else b_y b.
Proof.
  intros H. apply Qltb_lt in H. unfold clampMin, hasNorth. rewrite H.
  destruct (Qltb (b_width b) minSize); simpl; auto.
Qed.

Lemma clampMin_height_large el h b :
  (minSize <= b_height b)%Q ->
  b_height (clampMin el h b) = b_height b /\ b_y (clampMin el h b) = b_y b.
Proof.
  intros H. apply Qltb_ge in H. unfold clampMin. rewrite H.
  destruct (Qltb (b_width b) minSize); simpl; auto.
Qed.

(** Handles without a [w] leave the west edge where it was, and handles
    without an [n] the north edge. *)
Lemma rawResize_x_no_west el h dx dy :
  hasWest h = false -> b_x (rawResize el h dx dy) = el_x el.
Proof. destruct h; intros H; try reflexivity; vm_compute in H; discriminate. Qed.

Lemma rawResize_y_no_north el h dx dy :
  hasNorth h = false -> b_y (rawResize el h dx dy) = el_y el.
Proof. destruct h; intros H; try reflexivity; vm_compute in H; discriminate. Qed.

Lemma updateElementSilent_lookup i u now s el :
  elements s !! i = Some el ->
  elements (updateElementSilent i u now s) !! i = Some (assign el u now).
Proof.
  intros H. unfold updateElementSilent. rewrite H. simpl.
  apply lookup_insert_eq.
Qed.

Lemma applyResize_se_shrink el dx dy :
  (el_width el + dx < 20)%Q -> (el_height el + dy < 20)%Q ->
  let b := applyResize el h_se dx dy in
  b_width b = 20%Q /\ b_height b = 20%Q
  /\ b_x b = el_x el /\ b_y b = el_y el.
Proof.
  intros Hw Hh b. unfold b, applyResize.
  destruct (clampMin_width_small el h_se (rawResize el h_se dx dy) Hw)
    as [H1 H2].
  destruct (clampMin_height_small el h_se (rawResize el h_se dx dy) Hh)
    as [H3 H4].
  rewrite H1, H2, H3, H4. done.
Qed.

(** The lines of the resizing branch that compute the box, before the grid
    is applied.  Whenever the box computed from the cumulative delta is
    narrower (lower) than 20, [applyResize] sets that dimension to 20; the
    west (north) edge then moves only for a handle whose name has a [w]
    ([n]), to the place that keeps the east (south) edge of the original
    element, and stays at the original [x] ([y]) otherwise. *)
Lemma applyResize_min_size (el : Element) (h : ResizeHandle) (dx dy : Q) :
  let raw := rawResize el h dx dy in
  let b := applyResize el h dx dy in
  ((b_width raw < 20)%Q ->
     b_width b = 20%Q /\
     if hasWest h
     then (b_x b + b_width b == el_x el + el_width el)%Q
     else b_x b = el_x el)
  /\ ((b_height raw < 20)%Q ->
     b_height b = 20%Q /\
     if hasNorth h
     then (b_y b + b_height b == el_y el + el_height el)%Q
     else b_y b = el_y el)
  /\ ((20 <= b_width raw)%Q -> b_width b = b_width raw /\ b_x b = b_x raw)
  /\ ((20 <= b_height raw)%Q -> b_height b = b_height raw /\ b_y b = b_y raw).
Proof.
  intros raw b. unfold b, applyResize. fold raw.
  split; [|split; [|split]].
  - intros H. destruct (clampMin_width_small el h raw H) as [Hw Hx].
    split; [exact Hw|]. rewrite Hx, Hw.
    destruct (hasWest h) eqn:E.
    + unfold minSize. ring.
    + apply rawResize_x_no_west, E.
  - intros H. destruct (clampMin_height_small el h raw H) as [Hh Hy].
    split; [exact Hh|]. rewrite Hy, Hh.
    destruct (hasNorth h) eqn:E.
    + unfold minSize. ring.
    + apply rawResize_y_no_north, E.
  - apply clampMin_width_large.
  - apply clampMin_height_large.
Qed.

(** A handler that has not seen [resizeStart] leaves the store alone. *)
Lemma resizeMove_unseen p now s : (resizeMove None p now s).1 = s.
Proof.
  unfold resizeMove.
  destruct (isResizing s); [|done].
  destruct (resizeHandle s); [|done].
  destruct (selectedIds s) as [|sel [|? ?]]; done.
Qed.

(** C8 on the code: a resize does not take place.  After the press on a
    handle the running handler has been made with [resizeStart] still
    [null].  Its resizing branch sets [resizeStart] and returns, and since
    [resizeStart] is not among the dependencies of the handler the same
    handler takes every following move: whatever the pointer does, the
    store stays as it was.  A 100 by 100 element whose [se] handle is
    dragged by (-90, -90), with snapping off, is still 100 by 100.  The
    lines that clamp the box run only in a handler made after the first
    move, for which a listed dependency must change in the middle of the
    gesture; such a handler stores the box of 20 by 20 at the same
    position.  And the clamped box is rounded to the grid afterwards when
    snapping is on: on a grid of 50 the width stored would be 0. *)
Theorem resize_gesture_changes_nothing :
  (forall p now s, (resizeMove None p now s).1 = s)
  /\ (forall moves s, resizeMoves None moves s = s)
  /\ (isResizing resizingBox = true
      /\ resizeHandle resizingBox = Some h_se
      /\ selectedIds resizingBox = ["box"]
      /\ snapToGrid resizingBox = false
      /\ elements resizingBox !! "box" = Some box100
      /\ el_width box100 = 100%Q /\ el_height box100 = 100%Q)
  /\ (resizeMove None (mkPoint 110 110) 1 resizingBox).2
     = Some (mkResizeStart box100 (mkPoint 110 110))
  /\ elements (resizeMoves None [(mkPoint 110 110, 1); (mkPoint 20 20, 2)]
                           resizingBox) !! "box" = Some box100
  /\ (exists el',
        elements (resizeMove (Some (mkResizeStart box100 (mkPoint 110 110)))
                             (mkPoint 20 20) 2 resizingBox).1 !! "box"
        = Some el'
        /\ el_width el' = 20%Q /\ el_height el' = 20%Q
        /\ el_x el' = el_x box100 /\ el_y el' = el_y box100)
  /\ (b_width (snapBox true 50 (applyResize box100 h_se (-90) (-90))) == 0)%Q.
Proof.
  assert (Hmoves : forall moves s, resizeMoves None moves s = s).
  { intros moves. induction moves as [|[p now] moves IH]; intros s; [done|].
    unfold resizeMoves in *. cbn [foldl]. rewrite resizeMove_unseen.
    apply IH. }
  split; [apply resizeMove_unseen|]. split; [exact Hmoves|].
  split; [repeat split; reflexivity|].
  split; [vm_compute; reflexivity|].
  split; [by rewrite Hmoves|].
  split; [|vm_compute; reflexivity].
  eexists. split; [vm_compute; reflexivity|].
  repeat split; reflexivity.
Qed.

(** ** Frame conditions of the operations that record no history *)

Lemma insertAll_history news s :
  history (insertAll news s) = history s /\
  historyIndex (insertAll news s) = historyIndex s /\
  selectedIds (insertAll news s) = selectedIds s /\
  clipboard (insertAll news s) = clipboard s.
Proof.
  revert s. induction news as [|el news IH]; intros s; [done|].
  unfold insertAll in *. simpl. destruct (IH
    (set_doc (<[el_id el:=el]> (elements s)) (elementOrder s ++ [el_id el]) s))
    as (-> & -> & -> & ->). done.
Qed.

Lemma deleteLoop_frame ids s :
  selectedIds (deleteLoop ids s) = selectedIds s
  /\ history (deleteLoop ids s) = history s
  /\ historyIndex (deleteLoop ids s) = historyIndex s.
Proof.
  revert s. induction ids as [|i ids IH]; intros s; [done|].
  unfold deleteLoop in *. cbn [foldl].
  by destruct (IH (set_doc (delete i (elements s))
                           (spliceOut i (elementOrder s)) s)) as (-> & -> & ->).
Qed.

Lemma insertAll_order news s :
  elementOrder (insertAll news s) = elementOrder s ++ (el_id <$> news).
Proof.
  revert s. induction news as [|el news IH]; intros s.
  - simpl. by rewrite app_nil_r.
  - unfold insertAll in *. simpl. rewrite IH. simpl. by rewrite <- app_assoc.
Qed.

Lemma clones_length src dx dy fresh clock :
  length (clones src dx dy fresh clock) = length src.
Proof. apply length_imap. Qed.

(** C10.  [paste] records nothing in the history: the stack and the cursor
    are those of the state before, so what [undo] can revert is unchanged;
    the copies are appended to the order and become the selection; with an
    empty clipboard the state is returned as it is. *)
Theorem paste_leaves_history (offset : Point) (fresh : nat -> string)
    (clock : nat -> Z) (s : CanvasState) :
  let s' := paste offset fresh clock s in
  history s' = history s
  /\ historyIndex s' = historyIndex s
  /\ selectCanUndo s' = selectCanUndo s
  /\ (clipboard s = [] -> s' = s)
  /\ (clipboard s <> [] ->
      let news := clones (clipboard s) (p_x offset) (p_y offset) fresh clock in
      selectedIds s' = el_id <$> news
      /\ elementOrder s' = elementOrder s ++ (el_id <$> news)
      /\ length news = length (clipboard s)).
Proof.
  intros s'. unfold s', paste, selectCanUndo.
  destruct (clipboard s) as [|c cs] eqn:Hc.
  - repeat split; try done.
  - set (news := clones (c :: cs) (p_x offset) (p_y offset) fresh clock).
    destruct (insertAll_history news s) as (Hh & Hi & _ & _).
    split; [exact Hh|]. split; [exact Hi|].
    split; [exact (f_equal (fun i => bool_decide (0 <= i)) Hi)|].
    split; [done|]. intros _.
    split; [reflexivity|].
    split; [apply insertAll_order | apply clones_length].
Qed.

Lemma paste_leaves_history_witness :
  clipboard initialState = [] /\
  paste defaultPasteOffset (fun _ => "n") (fun _ => 0) initialState
    = initialState.
Proof.
  split; [reflexivity|].
  apply (paste_leaves_history defaultPasteOffset (fun _ => "n") (fun _ => 0)
           initialState).
  reflexivity.
Defined.

(** ** The bound on the history stack *)

Lemma slice0_length {A} (l : list A) (e : Z) :
  (length (slice0 l e) <= length l)%nat.
Proof. unfold slice0. case_decide; rewrite length_take; lia. Qed.

Lemma slice0_top {A} (l : list A) :
  slice0 l (Z.of_nat (length l) - 1 + 1) = l.
Proof.
  unfold slice0. case_decide; [lia|].
  replace (Z.to_nat (Z.of_nat (length l) - 1 + 1)) with (length l) by lia.
  apply firstn_all.
Qed.

Lemma pushHistory_history e hid ts s :
  (length (history s) <= 100)%nat ->
  history (pushHistory e hid ts s)
  = last100 (slice0 (history s) (historyIndex s + 1) ++ [stamp hid ts e]) /\
  cursorAtTop (pushHistory e hid ts s).
Proof.
  intros Hs. unfold pushHistory, last100, cursorAtTop.
  set (h := slice0 (history s) (historyIndex s + 1) ++ [stamp hid ts e]).
  assert (Hlen : (length h <= 101)%nat).
  { unfold h. rewrite length_app. simpl.
    pose proof (slice0_length (history s) (historyIndex s + 1)). lia. }
  case_decide as Hd; simpl.
  - replace (length h - 100)%nat with 1%nat by lia.
    split; [reflexivity|]. rewrite length_drop. lia.
  - replace (length h - 100)%nat with 0%nat by lia. split; reflexivity.
Qed.

Lemma last100_length {A} (l : list A) : (length (last100 l) <= 100)%nat.
Proof. unfold last100. rewrite length_drop. lia. Qed.

Lemma last100_short {A} (l : list A) :
  (length l <= 100)%nat -> last100 l = l.
Proof.
  intros H. unfold last100.
  replace (length l - 100)%nat with 0%nat by lia. reflexivity.
Qed.

Lemma last100_snoc {A} (l : list A) (x : A) :
  last100 (last100 l ++ [x]) = last100 (l ++ [x]).
Proof.
  destruct (decide (length l <= 100)%nat) as [Hle|Hgt].
  - rewrite (last100_short l Hle). reflexivity.
  - unfold last100. rewrite !length_app, length_drop. simpl.
    replace (length l - (length l - 100) + 1 - 100)%nat with 1%nat by lia.
    rewrite !drop_app_le by (rewrite ?length_drop; lia).
    rewrite drop_drop. f_equal. f_equal. lia.
Qed.

Lemma last100_app_absorb {A} (l r : list A) :
  last100 (last100 l ++ r) = last100 (l ++ r).
Proof.
  induction r as [|y r IH] using rev_ind.
  - rewrite !app_nil_r. apply last100_short, last100_length.
  - rewrite !app_assoc, <- last100_snoc, IH, last100_snoc. reflexivity.
Qed.

Lemma pushHistory_bounded e hid ts s :
  (length (history s) <= 100)%nat ->
  (length (history (pushHistory e hid ts s)) <= 100)%nat.
Proof.
  intros Hs. destruct (pushHistory_history e hid ts s Hs) as [-> _].
  apply last100_length.
Qed.

Lemma pushHistory_at_top e hid ts s :
  (length (history s) <= 100)%nat -> cursorAtTop s ->
  history (pushHistory e hid ts s) = last100 (history s ++ [stamp hid ts e]).
Proof.
  intros Hs Ht. destruct (pushHistory_history e hid ts s Hs) as [-> _].
  rewrite Ht, slice0_top. reflexivity.
Qed.

Lemma pushAll_at_top es s :
  (length (history s) <= 100)%nat -> cursorAtTop s ->
  history (pushAll es s) = last100 (history s ++ stampAll es) /\
  cursorAtTop (pushAll es s).
Proof.
  revert s. induction es as [|[[e hid] ts] es IH]; intros s Hs Ht.
  - simpl. rewrite app_nil_r. split; [|exact Ht].
    symmetry. apply last100_short, Hs.
  - change (pushAll ((e, hid, ts) :: es) s)
      with (pushAll es (pushHistory e hid ts s)).
    change (stampAll ((e, hid, ts) :: es))
      with (stamp hid ts e :: stampAll es).
    destruct (pushHistory_history e hid ts s Hs) as [_ Ht'].
    pose proof (pushHistory_bounded e hid ts s Hs) as Hs'.
    destruct (IH _ Hs' Ht') as [Hh Hc]. split; [|exact Hc].
    rewrite Hh, (pushHistory_at_top e hid ts s Hs Ht).
    rewrite last100_app_absorb, <- app_assoc. reflexivity.
Qed.

(** [undo] and [redo] read the stack and move the cursor; they never change
    the stack, the selection or the clipboard. *)
Lemma restore_frame snap s i s' :
  restore snap s i = Some s' ->
  history s' = history s /\ historyIndex s' = historyIndex s
  /\ selectedIds s' = selectedIds s /\ clipboard s' = clipboard s
  /\ transform s' = transform s.
Proof.
  unfold restore. intros H.
  destruct (snap !! i) as [[el|]|]; simplify_eq; done.
Qed.

Lemma restoreAll_None snap ids :
  foldl (fun acc i => acc ≫= fun d => restore snap d i) None ids = None.
Proof. induction ids; simpl; auto. Qed.

Lemma restoreAll_cons snap i ids s :
  restoreAll snap (i :: ids) s = restore snap s i ≫= restoreAll snap ids.
Proof.
  unfold restoreAll. simpl. destruct (restore snap s i); simpl; auto.
  apply restoreAll_None.
Qed.

Lemma restoreAll_frame snap ids s s' :
  restoreAll snap ids s = Some s' ->
  history s' = history s /\ historyIndex s' = historyIndex s
  /\ selectedIds s' = selectedIds s /\ clipboard s' = clipboard s
  /\ transform s' = transform s.
Proof.
  revert s. induction ids as [|i ids IH]; intros s H.
  - unfold restoreAll in H. simpl in H. by simplify_eq.
  - rewrite restoreAll_cons in H.
    destruct (restore snap s i) as [d|] eqn:E; [|done]. simpl in H.
    destruct (IH _ H) as (-> & -> & -> & -> & ->).
    exact (restore_frame _ _ _ _ E).
Qed.

Lemma undo_history s s' : undo s = Some s' -> history s' = history s.
Proof.
  unfold undo. case_decide; [by intros [= ->]|].
  destruct (at_index _ _) as [entry|]; [|done]. simpl.
  destruct (restoreAll _ _ s) as [d|] eqn:E; [|done]. simpl.
  intros [= <-]. simpl. by destruct (restoreAll_frame _ _ _ _ E) as (-> & _).
Qed.

Lemma undoN_history n s s' : undoN n s = Some s' -> history s' = history s.
Proof.
  revert s. induction n as [|n IH]; intros s; simpl.
  - by intros [= ->].
  - destruct (undo s) as [d|] eqn:E; [|done]. simpl. intros H.
    rewrite (IH _ H). by apply undo_history.
Qed.

Lemma redo_history s s' : redo s = Some s' -> history s' = history s.
Proof.
  unfold redo. case_decide; [by intros [= ->]|].
  destruct (at_index _ _) as [entry|]; [|done]. simpl.
  destruct (restoreAll _ _ s) as [d|] eqn:E; [|done]. simpl.
  intros [= <-]. simpl. by destruct (restoreAll_frame _ _ _ _ E) as (-> & _).
Qed.

(** No operation of the store lets the stack grow beyond 100 entries. *)
Lemma step_history_bound o s s' :
  (length (history s) <= 100)%nat -> step o s = Some s' ->
  (length (history s') <= 100)%nat.
Proof.
  intros Hs Hstep.
  destruct o; simpl in Hstep; simplify_eq; try exact Hs;
    try (simpl; lia).
  - by apply pushHistory_bounded.
  - unfold updateElement. destruct (elements s !! i); [|done].
    by apply pushHistory_bounded.
  - unfold updateElementSilent. by destruct (elements s !! i).
  - unfold deleteElements. apply pushHistory_bounded. simpl.
    by destruct (deleteLoop_frame ids s) as (_ & -> & _).
  - unfold duplicateElements. cbn [fst history set_selectedIds].
    by destruct (insertAll_history
                   (clones (omap (fun i => elements s !! i) ids) 20 20
                      fresh clock) s) as (-> & _).
  - unfold addToSelection. by destruct (includes _ _).
  - unfold setTool. by destruct t.
  - by rewrite (undo_history _ _ Hstep).
  - by rewrite (redo_history _ _ Hstep).
  - unfold cut, deleteElements. apply pushHistory_bounded. simpl.
    by destruct (deleteLoop_frame (selectedIds s) (copy s)) as (_ & -> & _).
  - unfold paste. destruct (clipboard s) as [|c cs]; [done|].
    cbn [history set_selectedIds].
    by destruct (insertAll_history
                   (clones (c :: cs) (p_x offset) (p_y offset) fresh clock) s)
      as (-> & _).
  - unfold bringForward in Hstep.
    destruct (foldl _ _ _); simpl in Hstep; by simplify_eq.
  - destruct data as [| |els ord]; simpl in Hstep; simplify_eq; [done..|].
    destruct ord, els; simplify_eq; first [done | simpl; lia].
Qed.

Lemma run_history_bound ops s s' :
  (length (history s) <= 100)%nat -> run ops s = Some s' ->
  (length (history s') <= 100)%nat.
Proof.
  revert s. induction ops as [|o ops IH]; intros s Hs Hrun.
  - simpl in Hrun. by simplify_eq.
  - cbn [run] in Hrun. destruct (step o s) as [s1|] eqn:E; [|done].
    simpl in Hrun. eapply IH; [|exact Hrun].
    by eapply step_history_bound.
Qed.

Lemma pushAll_history e hid ts es s :
  (length (history s) <= 100)%nat ->
  history (pushAll ((e, hid, ts) :: es) s)
  = last100 (slice0 (history s) (historyIndex s + 1)
             ++ stampAll ((e, hid, ts) :: es))
  /\ cursorAtTop (pushAll ((e, hid, ts) :: es) s).
Proof.
  intros Hs.
  change (pushAll ((e, hid, ts) :: es) s)
    with (pushAll es (pushHistory e hid ts s)).
  change (stampAll ((e, hid, ts) :: es)) with (stamp hid ts e :: stampAll es).
  destruct (pushHistory_history e hid ts s Hs) as [Hh Ht].
  destruct (pushAll_at_top es _ (pushHistory_bounded e hid ts s Hs) Ht)
    as [Hh' Ht'].
  split; [|exact Ht'].
  rewrite Hh', Hh, last100_app_absorb, <- app_assoc. reflexivity.
Qed.

(** With 100 entries on the stack and the cursor below the top, a push
    drops nothing at the bottom: after 100 pushes and 50 undos the stack
    holds 100 entries with the cursor at 49; the next push leaves 51
    entries, the cursor at 50 and the oldest entry in its place. *)
Lemma push_below_top_keeps_oldest :
  exists s,
    undoN 50 (pushAll (take 100 demoEntries) initialState) = Some s
    /\ length (history s) = 100%nat /\ historyIndex s = 49
    /\ length (history (pushHistory (mkInput hist_batch [] ∅ ∅) "new" 7 s))
       = 51%nat
    /\ historyIndex (pushHistory (mkInput hist_batch [] ∅ ∅) "new" 7 s) = 50
    /\ head (history (pushHistory (mkInput hist_batch [] ∅ ∅) "new" 7 s))
       = head (history s).
Proof.
  eexists. split; [vm_compute; reflexivity|].
  split; [reflexivity|]. split; [reflexivity|].
  split; [vm_compute; reflexivity|]. split; vm_compute; reflexivity.
Qed.

(** C7, as the code has it.  The stack never holds more than 100 entries,
    whatever operations the store runs from its initial state.  A push
    first discards the entries above the cursor, and keeps the last 100 of
    the entries up to the cursor followed by the new one.  The oldest entry
    is dropped, and the cursor decremented to 99, exactly when the entries
    up to the cursor number 100, as they do when the stack holds 100 and
    the cursor is at the top; with fewer entries up to the cursor, however
    many the stack holds, every one of them is kept and the cursor moves up
    by one.  After 101 pushes in a row the stack holds exactly the last 100
    of them, and no number of [undo] steps brings the first one back:
    [undo] only ever reads the stack, in which that entry is no more. *)
Theorem history_bounded :
  (forall ops s',
     run ops initialState = Some s' -> (length (history s') <= 100)%nat)
  /\ (forall e hid ts s,
     (length (history s) <= 100)%nat ->
     (length (history (pushHistory e hid ts s)) <= 100)%nat
     /\ history (pushHistory e hid ts s)
         = last100 (slice0 (history s) (historyIndex s + 1)
                    ++ [stamp hid ts e])
     /\ historyIndex (pushHistory e hid ts s)
         = Z.of_nat (length (history (pushHistory e hid ts s))) - 1)
  /\ (forall e hid ts s,
        let kept := slice0 (history s) (historyIndex s + 1) in
        length kept = 100%nat ->
        history (pushHistory e hid ts s) = drop 1 kept ++ [stamp hid ts e]
        /\ historyIndex (pushHistory e hid ts s) = 99)
  /\ (forall e hid ts s,
        let kept := slice0 (history s) (historyIndex s + 1) in
        (length kept < 100)%nat ->
        history (pushHistory e hid ts s) = kept ++ [stamp hid ts e]
        /\ historyIndex (pushHistory e hid ts s) = Z.of_nat (length kept))
  /\ (forall e hid ts s,
        length (history s) = 100%nat -> historyIndex s = 99 ->
        history (pushHistory e hid ts s)
        = drop 1 (history s) ++ [stamp hid ts e]
        /\ historyIndex (pushHistory e hid ts s) = 99)
  /\ (forall e hid ts s,
        length (history s) = 100%nat -> -1 <= historyIndex s < 99 ->
        history (pushHistory e hid ts s)
        = take (Z.to_nat (historyIndex s + 1)) (history s) ++ [stamp hid ts e]
        /\ historyIndex (pushHistory e hid ts s) = historyIndex s + 1)
  /\ (forall es s,
        (length (history s) <= 100)%nat ->
        length es = 101%nat ->
        let s' := pushAll es s in
        history s' = drop 1 (stampAll es)
        /\ length (history s') = 100%nat
        /\ historyIndex s' = 99
        /\ forall n s'' e0,
             head (stampAll es) = Some e0 ->
             NoDup (h_id <$> stampAll es) ->
             undoN n s' = Some s'' -> e0 ∉ history s'').
Proof.
  assert (Hfull : forall e hid ts s,
            let kept := slice0 (history s) (historyIndex s + 1) in
            length kept = 100%nat ->
            history (pushHistory e hid ts s) = drop 1 kept ++ [stamp hid ts e]
            /\ historyIndex (pushHistory e hid ts s) = 99).
  { intros e hid ts s kept Hlen.
    unfold pushHistory. fold kept. rewrite length_app, Hlen. simpl.
    split; [|reflexivity].
    destruct kept; [done|]. reflexivity. }
  assert (Hpart : forall e hid ts s,
            let kept := slice0 (history s) (historyIndex s + 1) in
            (length kept < 100)%nat ->
            history (pushHistory e hid ts s) = kept ++ [stamp hid ts e]
            /\ historyIndex (pushHistory e hid ts s)
               = Z.of_nat (length kept)).
  { intros e hid ts s kept Hlen.
    unfold pushHistory. fold kept. rewrite length_app. simpl.
    rewrite decide_False by lia. simpl. split; [reflexivity|]. lia. }
  split; [|split; [|split; [exact Hfull|split; [exact Hpart|split; [|split]]]]].
  - intros ops s' Hrun.
    apply (run_history_bound ops initialState s'); [simpl; lia | exact Hrun].
  - intros e hid ts s Hs. split; [by apply pushHistory_bounded|].
    exact (pushHistory_history e hid ts s Hs).
  - intros e hid ts s Hlen Hidx.
    assert (Hk : slice0 (history s) (historyIndex s + 1) = history s).
    { unfold slice0. rewrite Hidx. rewrite decide_False by lia.
      apply take_ge. rewrite Hlen. simpl. lia. }
    destruct (Hfull e hid ts s) as [H1 H2]; [by rewrite Hk|].
    by rewrite Hk in H1.
  - intros e hid ts s Hlen Hidx.
    assert (Hk : slice0 (history s) (historyIndex s + 1)
                 = take (Z.to_nat (historyIndex s + 1)) (history s)).
    { unfold slice0. by rewrite decide_False by lia. }
    destruct (Hpart e hid ts s) as [H1 H2].
    { rewrite Hk, length_take. lia. }
    rewrite Hk in H1, H2. split; [exact H1|].
    rewrite H2, length_take. lia.
  - intros es s Hlen Hes s'.
    destruct es as [|[[e hid] ts] es]; [done|].
    destruct (pushAll_history e hid ts es s Hlen) as [Hh Hc].
    fold s' in Hh, Hc.
    set (st := stampAll ((e, hid, ts) :: es)) in *.
    assert (Hes' : length st = 101%nat)
      by (unfold st, stampAll; rewrite length_fmap; exact Hes).
    set (kept := slice0 (history s) (historyIndex s + 1)) in *.
    assert (Hd : history s' = drop 1 st).
    { rewrite Hh. unfold last100. rewrite length_app, Hes'.
      replace (length kept + 101 - 100)%nat
        with (length kept + 1)%nat by lia.
      rewrite drop_app_add'; reflexivity. }
    assert (Hl : length (history s') = 100%nat)
      by (rewrite Hd, length_drop; lia).
    split; [exact Hd|]. split; [exact Hl|].
    split; [rewrite Hc, Hl; lia|].
    intros n s'' e0 Hhead Hnd Hundo.
    rewrite (undoN_history _ _ _ Hundo), Hd.
    destruct st as [|e1 rest]; [done|].
    simpl in Hhead. simplify_eq. simpl. rewrite drop_0.
    simpl in Hnd. apply NoDup_cons in Hnd as [Hnotin _].
    intros Hin. apply Hnotin. apply list_elem_of_fmap. by exists e0.
Qed.

Lemma history_bounded_witness :
  (length (history initialState) <= 100)%nat /\
  length demoEntries = 101%nat /\
  length (history (pushAll demoEntries initialState)) = 100%nat.
Proof.
  assert (H1 : (length (history initialState) <= 100)%nat) by (simpl; lia).
  assert (H3 : length demoEntries = 101%nat) by reflexivity.
  split; [exact H1|]. split; [exact H3|].
  exact (proj1 (proj2 (proj2 (proj2 (proj2 (proj2 (proj2 (proj2
                  history_bounded)))))
                         demoEntries initialState H1 H3))).
Defined.

(** ** Z-order *)

Lemma not_includes (ids : list string) (i : string) :
  negb (includes ids i) <-> (i ∉ ids).
Proof.
  unfold includes. rewrite negb_True. by rewrite bool_decide_spec.
Qed.

Lemma elem_of_remaining (ids ord : list string) (i : string) :
  i ∈ filter (fun j => negb (includes ids j)) ord <-> (i ∉ ids) /\ i ∈ ord.
Proof. rewrite list_elem_of_filter. by rewrite not_includes. Qed.

Lemma indexOf_None i l : indexOf i l = None <-> i ∉ l.
Proof.
  induction l as [|j l IH]; simpl.
  - split; [intros _; apply not_elem_of_nil | done].
  - case_decide as E; [subst; split; [done | intros H; destruct H; left]|].
    rewrite not_elem_of_cons. destruct (indexOf i l); simpl; split.
    + done.
    + intros [_ H]. by apply IH in H.
    + intros _. split; [done | by apply IH].
    + done.
Qed.

Lemma indexOf_middle i l1 l2 :
  i ∉ l1 -> indexOf i (l1 ++ i :: l2) = Some (length l1).
Proof.
  induction l1 as [|j l1 IH]; simpl; intros H.
  - by rewrite decide_True.
  - apply not_elem_of_cons in H as [Hne H].
    rewrite decide_False by done. by rewrite IH.
Qed.

Lemma swapAt_middle l1 a b l2 :
  swapAt (length l1) (length l1 + 1) (l1 ++ a :: b :: l2) = l1 ++ b :: a :: l2.
Proof.
  unfold swapAt.
  rewrite (lookup_app_r l1) by lia. rewrite (lookup_app_r l1) by lia.
  replace (length l1 - length l1)%nat with 0%nat by lia.
  replace (length l1 + 1 - length l1)%nat with 1%nat by lia. simpl.
  rewrite (insert_app_r_alt l1) by lia.
  replace (length l1 - length l1)%nat with 0%nat by lia. simpl.
  rewrite (insert_app_r_alt l1) by lia.
  replace (length l1 + 1 - length l1)%nat with 1%nat by lia. reflexivity.
Qed.

Lemma swapAt_middle_back l1 a b l2 :
  swapAt (length l1 + 1) (length l1 + 1 - 1) (l1 ++ a :: b :: l2)
  = l1 ++ b :: a :: l2.
Proof.
  unfold swapAt.
  rewrite (lookup_app_r l1) by lia. rewrite (lookup_app_r l1) by lia.
  replace (length l1 + 1 - 1 - length l1)%nat with 0%nat by lia.
  replace (length l1 + 1 - length l1)%nat with 1%nat by lia. simpl.
  rewrite (insert_app_r_alt l1) by lia.
  replace (length l1 + 1 - length l1)%nat with 1%nat by lia. simpl.
  rewrite (insert_app_r_alt l1) by lia.
  replace (length l1 + 1 - 1 - length l1)%nat with 0%nat by lia. reflexivity.
Qed.

Lemma forwardStep_inner l1 i j l2 :
  i ∉ l1 -> forwardStep (l1 ++ i :: j :: l2) i = Some (l1 ++ j :: i :: l2).
Proof.
  intros H. unfold forwardStep. rewrite (indexOf_middle _ _ _ H).
  rewrite decide_True by (rewrite length_app; simpl; lia).
  by rewrite swapAt_middle.
Qed.

Lemma forwardStep_last l1 i :
  i ∉ l1 -> forwardStep (l1 ++ [i]) i = Some (l1 ++ [i]).
Proof.
  intros H. unfold forwardStep. rewrite (indexOf_middle _ _ _ H).
  by rewrite decide_False by (rewrite length_app; simpl; lia).
Qed.

Lemma backwardStep_inner l1 i j l2 :
  i ∉ l1 -> i ≠ j -> backwardStep (l1 ++ j :: i :: l2) i = l1 ++ i :: j :: l2.
Proof.
  intros H Hne. unfold backwardStep.
  assert (Hi : indexOf i (l1 ++ j :: i :: l2) = Some (length l1 + 1)%nat).
  { change (l1 ++ j :: i :: l2) with (l1 ++ [j] ++ i :: l2).
    rewrite app_assoc, indexOf_middle.
    - by rewrite length_app.
    - rewrite elem_of_app, list_elem_of_singleton. intuition (subst; eauto; congruence). }
  rewrite Hi, decide_True by lia. apply swapAt_middle_back.
Qed.

Lemma backwardStep_first i l : backwardStep (i :: l) i = i :: l.
Proof. unfold backwardStep. simpl. by rewrite decide_True. Qed.

Lemma bringToFront_permutation ids ord :
  NoDup ord -> NoDup ids -> (forall i, i ∈ ids -> i ∈ ord) ->
  filter (fun i => negb (includes ids i)) ord ++ ids ≡ₚ ord.
Proof.
  intros Hord Hids Hsub. apply NoDup_Permutation; [|done|].
  - apply NoDup_app. split; [by apply NoDup_filter|]. split; [|done].
    intros i Hi. by apply elem_of_remaining in Hi as [? _].
  - intros i. rewrite elem_of_app, elem_of_remaining.
    destruct (decide (i ∈ ids)); intuition (subst; eauto; congruence).
Qed.

Lemma foldl_bind_None {A B} (f : A -> B -> option A) (l : list B) :
  foldl (fun acc i => acc ≫= fun o => f o i) None l = None.
Proof. induction l; simpl; auto. Qed.

(** [bringToFront] appends the identifiers as the caller lists them: with
    [c] listed before [a], [a] ends above [c] although it was below it. *)
Lemma bringToFront_argument_order :
  elementOrder (bringToFront ["c"; "a"] abc) = ["b"; "c"; "a"]
  /\ elementOrder (bringToFront ["c"; "a"] abc)
     <> filter (fun i => negb (includes ["c"; "a"] i)) (elementOrder abc)
        ++ filter (fun i => includes ["c"; "a"] i) (elementOrder abc).
Proof. split; [reflexivity|]. vm_compute. discriminate. Qed.

(** C5, as the code has it.  [bringToFront] puts the given identifiers at
    the end of the order and [sendToBack] at the start, in the sequence in
    which the caller lists them, and keeps the other identifiers in their
    relative order; for a duplicate-free list of identifiers of a
    duplicate-free order the result is a permutation of the order.
    Scenario D holds.  [bringForward] and [sendBackward] take the
    identifiers one after the other and swap each with its neighbour
    towards the front (the back), unless it is already last (first). *)
Theorem z_order_moves (ids : list string) (s : CanvasState) :
  let ord := elementOrder s in
  let rest := filter (fun i => negb (includes ids i)) ord in
  (elementOrder (bringToFront ids s) = rest ++ ids
   /\ elementOrder (sendToBack ids s) = ids ++ rest
   /\ rest `sublist_of` ord
   /\ (forall i, i ∈ rest <-> (i ∉ ids) /\ i ∈ ord))
  /\ (NoDup ord -> NoDup ids -> (forall i, i ∈ ids -> i ∈ ord) ->
      elementOrder (bringToFront ids s) ≡ₚ ord
      /\ elementOrder (sendToBack ids s) ≡ₚ ord)
  /\ (elementOrder (bringToFront ["b"] abc) = ["a"; "c"; "b"]
      /\ elementOrder (sendToBack ["c"] abc) = ["c"; "a"; "b"])
  /\ (forall i l1 j l2,
        ord = l1 ++ i :: j :: l2 -> i ∉ l1 ->
        elementOrder <$> bringForward [i] s = Some (l1 ++ j :: i :: l2))
  /\ (forall i l1,
        ord = l1 ++ [i] -> i ∉ l1 ->
        elementOrder <$> bringForward [i] s = Some ord)
  /\ (forall i l1 j l2,
        ord = l1 ++ j :: i :: l2 -> i ∉ l1 -> i ≠ j ->
        elementOrder (sendBackward [i] s) = l1 ++ i :: j :: l2)
  /\ (forall i l, ord = i :: l -> elementOrder (sendBackward [i] s) = ord)
  /\ (forall i rest',
        bringForward (i :: rest') s = bringForward [i] s ≫= bringForward rest')
  /\ (forall i rest',
        sendBackward (i :: rest') s = sendBackward rest' (sendBackward [i] s)).
Proof.
  intros ord rest.
  split; [|split; [|split; [|split; [|split; [|split; [|split; [|split]]]]]]].
  - split; [reflexivity|]. split; [reflexivity|].
    split; [apply sublist_filter | apply elem_of_remaining].
  - intros Hord Hids Hsub. simpl.
    pose proof (bringToFront_permutation ids ord Hord Hids Hsub) as HP.
    split; [exact HP|]. fold ord. fold rest.
    etrans; [|exact HP]. apply Permutation_app_comm.
  - split; reflexivity.
  - intros i l1 j l2 Ho Hi. unfold bringForward. fold ord. rewrite Ho. simpl.
    rewrite (forwardStep_inner _ _ _ _ Hi). reflexivity.
  - intros i l1 Ho Hi. unfold bringForward. fold ord. rewrite Ho. simpl.
    rewrite (forwardStep_last _ _ Hi). reflexivity.
  - intros i l1 j l2 Ho Hi Hne. unfold sendBackward. fold ord. rewrite Ho.
    simpl. apply backwardStep_inner; done.
  - intros i l Ho. unfold sendBackward. fold ord. rewrite Ho. simpl.
    apply backwardStep_first.
  - intros i rest'. unfold bringForward. simpl.
    destruct (forwardStep (elementOrder s) i) as [o|]; simpl; [reflexivity|].
    rewrite (foldl_bind_None forwardStep rest'). reflexivity.
  - intros i rest'. reflexivity.
Qed.

Lemma z_order_moves_witness :
  NoDup (elementOrder abc) /\ NoDup ["b"] /\
  (forall i : string, i ∈ ["b"] -> i ∈ elementOrder abc) /\
  elementOrder (bringToFront ["b"] abc) ≡ₚ elementOrder abc.
Proof.
  assert (H1 : NoDup (elementOrder abc))
    by (apply (bool_decide_unpack _); vm_compute; exact I).
  assert (H2 : NoDup ["b"]) by (apply (bool_decide_unpack _); vm_compute; exact I).
  assert (H3 : forall i : string, i ∈ ["b"] -> i ∈ elementOrder abc).
  { intros i Hi. apply list_elem_of_singleton in Hi. subst i.
    apply (bool_decide_unpack _); vm_compute; exact I. }
  split; [exact H1|]. split; [exact H2|]. split; [exact H3|].
  exact (proj1 (proj1 (proj2 (z_order_moves ["b"] abc)) H1 H2 H3)).
Defined.

(** ** Undo and redo of one mutation *)

Lemma pushHistory_frame e hid ts s :
  elements (pushHistory e hid ts s) = elements s
  /\ elementOrder (pushHistory e hid ts s) = elementOrder s
  /\ selectedIds (pushHistory e hid ts s) = selectedIds s
  /\ clipboard (pushHistory e hid ts s) = clipboard s
  /\ transform (pushHistory e hid ts s) = transform s.
Proof. unfold pushHistory. case_decide; done. Qed.

(** After a push the cursor is on the entry just pushed, in any state. *)
Lemma pushHistory_cursor e hid ts s :
  0 <= historyIndex (pushHistory e hid ts s)
  /\ cursorAtTop (pushHistory e hid ts s)
  /\ at_index (history (pushHistory e hid ts s))
              (historyIndex (pushHistory e hid ts s))
     = Some (stamp hid ts e).
Proof.
  unfold pushHistory, cursorAtTop, at_index.
  set (h0 := slice0 (history s) (historyIndex s + 1)).
  case_decide as Hd; simpl; rewrite ?length_drop, length_app in *;
    simpl in *.
  - split; [lia|]. split; [lia|]. rewrite decide_False by lia.
    rewrite lookup_drop.
    replace (1 + Z.to_nat (Z.of_nat (length h0 + 1) - 1 - 1))%nat
      with (length h0 + 0)%nat by lia.
    by rewrite lookup_app_r, Nat.add_0_r, Nat.sub_diag by lia.
  - split; [lia|]. split; [lia|]. rewrite decide_False by lia.
    replace (Z.to_nat (Z.of_nat (length h0 + 1) - 1))
      with (length h0) by lia.
    by rewrite lookup_app_r, Nat.sub_diag by lia.
Qed.

Lemma restore_elements snap s i :
  is_Some (snap !! i) ->
  exists d, restore snap s i = Some d
    /\ forall j, elements d !! j
                 = if decide (j = i) then snapAt snap i else elements s !! j.
Proof.
  intros [v Hv]. unfold restore, snapAt. rewrite Hv.
  destruct v as [el|]; eexists; (split; [reflexivity|]); intros j; simpl;
    case_decide; subst;
    rewrite ?lookup_insert_eq, ?lookup_delete_eq, ?lookup_insert_ne,
            ?lookup_delete_ne by done; done.
Qed.

Lemma restoreAll_elements snap ids s :
  (forall i, i ∈ ids -> is_Some (snap !! i)) ->
  exists d, restoreAll snap ids s = Some d
    /\ forall j, elements d !! j
                 = if decide (j ∈ ids) then snapAt snap j else elements s !! j.
Proof.
  revert s. induction ids as [|i ids IH]; intros s Hs.
  - exists s. split; [reflexivity|]. intros j.
    by rewrite decide_False by apply not_elem_of_nil.
  - destruct (restore_elements snap s i) as (d & Hd & Hel);
      [apply Hs; left|].
    destruct (IH d) as (d' & Hd' & Hel');
      [intros; apply Hs; by right|].
    exists d'. rewrite restoreAll_cons, Hd. split; [exact Hd'|].
    intros j. rewrite Hel', Hel.
    destruct (decide (j ∈ ids)) as [Hin|Hnin].
    + rewrite decide_True by (by right). done.
    + destruct (decide (j = i)) as [->|Hne].
      * rewrite decide_True by left. done.
      * rewrite decide_False; [done|].
        intros Hc. apply elem_of_cons in Hc. intuition (subst; eauto; congruence).
Qed.

(** An undo directly after a push, and the redo after it. *)
Lemma undo_after_push e hid ts s :
  (forall i, i ∈ i_elementIds e -> is_Some (i_before e !! i)) ->
  exists d,
    undo (pushHistory e hid ts s) = Some d
    /\ history d = history (pushHistory e hid ts s)
    /\ historyIndex d = historyIndex (pushHistory e hid ts s) - 1
    /\ forall j, elements d !! j
         = if decide (j ∈ i_elementIds e) then snapAt (i_before e) j
           else elements s !! j.
Proof.
  intros Hk. destruct (pushHistory_cursor e hid ts s) as (H0 & _ & Hat).
  destruct (pushHistory_frame e hid ts s) as (Hels & _).
  destruct (restoreAll_elements (i_before e) (i_elementIds e)
              (pushHistory e hid ts s) Hk) as (d & Hd & Hel).
  destruct (restoreAll_frame _ _ _ _ Hd) as (Hh & Hi & _).
  eexists. unfold undo. rewrite decide_False by lia. rewrite Hat. simpl.
  rewrite Hd. simpl. split; [reflexivity|]. simpl.
  split; [exact Hh|]. split; [by rewrite Hi|].
  intros j. rewrite Hel, Hels. done.
Qed.

Lemma redo_after_undo e hid ts s d :
  (forall i, i ∈ i_elementIds e -> is_Some (i_after e !! i)) ->
  history d = history (pushHistory e hid ts s) ->
  historyIndex d = historyIndex (pushHistory e hid ts s) - 1 ->
  exists d',
    redo d = Some d'
    /\ forall j, elements d' !! j
         = if decide (j ∈ i_elementIds e) then snapAt (i_after e) j
           else elements d !! j.
Proof.
  intros Hk Hh Hi.
  destruct (pushHistory_cursor e hid ts s) as (H0 & Htop & Hat).
  destruct (restoreAll_elements (i_after e) (i_elementIds e) d Hk)
    as (d' & Hd' & Hel).
  exists (set_history (history d') (historyIndex d' + 1) d').
  unfold redo. unfold cursorAtTop in Htop.
  rewrite decide_False by (rewrite Hh, Hi; lia).
  replace (historyIndex d + 1)
    with (historyIndex (pushHistory e hid ts s)) by lia.
  rewrite Hh, Hat. simpl. rewrite Hd'. simpl. split; [reflexivity|].
  exact Hel.
Qed.

Lemma foldl_insert_lookup {V} (f : string -> V) (ids : list string)
    (m : gmap string V) (j : string) :
  foldl (fun b i => <[i := f i]> b) m ids !! j
  = if decide (j ∈ ids) then Some (f j) else m !! j.
Proof.
  revert m. induction ids as [|i ids IH]; intros m; cbn [foldl].
  - by rewrite decide_False by apply not_elem_of_nil.
  - rewrite IH. destruct (decide (j ∈ ids)) as [Hin|Hnin].
    + by rewrite decide_True by (by right).
    + destruct (decide (j = i)) as [->|Hne].
      * rewrite decide_True by left. apply lookup_insert_eq.
      * rewrite decide_False.
        -- by apply lookup_insert_ne.
        -- intros Hc. apply elem_of_cons in Hc. destruct Hc; done.
Qed.

Lemma deleteLoop_lookup ids s j :
  elements (deleteLoop ids s) !! j
  = if decide (j ∈ ids) then None else elements s !! j.
Proof.
  revert s. induction ids as [|i ids IH]; intros s.
  - by rewrite decide_False by apply not_elem_of_nil.
  - unfold deleteLoop in *. cbn [foldl]. rewrite IH. cbn [elements set_doc].
    destruct (decide (j ∈ ids)) as [Hin|Hnin].
    + by rewrite decide_True by (by right).
    + destruct (decide (j = i)) as [->|Hne].
      * rewrite decide_True by left. apply lookup_delete_eq.
      * rewrite decide_False.
        -- by apply lookup_delete_ne.
        -- intros Hc. apply elem_of_cons in Hc. destruct Hc; done.
Qed.

Lemma deleteElements_elements ids hid ts s j :
  elements (deleteElements ids hid ts s) !! j
  = if decide (j ∈ ids) then None else elements s !! j.
Proof.
  unfold deleteElements.
  destruct (pushHistory_frame
    (mkInput hist_delete ids
       (foldl (fun b i => <[i := elements s !! i]> b) ∅ ids)
       (foldl (fun a i => <[i := None]> a) ∅ ids)) hid ts
    (set_selectedIds
       (filter (fun i => negb (includes ids i))
          (selectedIds (deleteLoop ids s))) (deleteLoop ids s))) as (E & _).
  rewrite E. simpl. apply deleteLoop_lookup.
Qed.

(** [addElement] records "absent" as the state before, whatever the map
    held: adding an element under an identifier in use and undoing removes
    the element that was there. *)
Lemma undo_add_existing_id :
  exists s2,
    undo (addElement elemA' "h1" 0 withA) = Some s2
    /\ elements withA !! "a" = Some elemA
    /\ elements s2 !! "a" = None.
Proof. eexists. split; [vm_compute; reflexivity|]. split; reflexivity. Qed.

(** C1, as the code has it.  For [updateElement] on a present identifier,
    for [deleteElements] on any list of identifiers, and for [addElement] of
    an element whose identifier is not yet a key of the map: [undo] right
    after the mutation succeeds and gives every affected identifier the
    element (or the absence) it had before, and [redo] right after that
    gives it the element (or the absence) it had after the mutation.  An
    [updateElement] on an absent identifier changes nothing. *)
Theorem undo_redo_round_trip (s : CanvasState) (hid : string) (ts : Z) :
  (forall el,
     elements s !! el_id el = None ->
     let s1 := addElement el hid ts s in
     exists s2 s3,
       undo s1 = Some s2 /\ redo s2 = Some s3
       /\ elements s1 !! el_id el = Some el
       /\ elements s2 !! el_id el = elements s !! el_id el
       /\ elements s3 !! el_id el = elements s1 !! el_id el)
  /\ (forall i u now el,
        elements s !! i = Some el ->
        let s1 := updateElement i u now hid ts s in
        exists s2 s3,
          undo s1 = Some s2 /\ redo s2 = Some s3
          /\ elements s1 !! i = Some (assign el u now)
          /\ elements s2 !! i = elements s !! i
          /\ elements s3 !! i = elements s1 !! i)
  /\ (forall i u now,
        elements s !! i = None -> updateElement i u now hid ts s = s)
  /\ (forall ids,
        let s1 := deleteElements ids hid ts s in
        exists s2 s3,
          undo s1 = Some s2 /\ redo s2 = Some s3
          /\ forall i, i ∈ ids ->
               elements s1 !! i = None
               /\ elements s2 !! i = elements s !! i
               /\ elements s3 !! i = elements s1 !! i).
Proof.
  split; [|split; [|split]].
  - intros el Hfresh s1. unfold s1, addElement.
    set (e := mkInput hist_add [el_id el] {[el_id el := None]}
                {[el_id el := Some el]}).
    set (s0 := set_doc _ _ s).
    destruct (undo_after_push e hid ts s0) as (s2 & Hu & Hh & Hi & Hel).
    { intros i Hi. apply list_elem_of_singleton in Hi. subst i. simpl.
      rewrite lookup_singleton_eq. eauto. }
    destruct (redo_after_undo e hid ts s0 s2) as (s3 & Hr & Hel'); try done.
    { intros i Hi'. apply list_elem_of_singleton in Hi'. subst i. simpl.
      rewrite lookup_singleton_eq. eauto. }
    exists s2, s3. split; [exact Hu|]. split; [exact Hr|].
    destruct (pushHistory_frame e hid ts s0) as (-> & _).
    rewrite Hel', Hel. simpl.
    rewrite !decide_True by (apply list_elem_of_singleton; done).
    unfold snapAt. rewrite !lookup_singleton_eq, lookup_insert_eq. simpl.
    rewrite Hfresh. done.
  - intros i u now el Hel0 s1. unfold s1, updateElement. rewrite Hel0.
    set (s0 := set_elements _ s).
    set (e := mkInput hist_update [i] {[i := Some el]}
                {[i := elements s0 !! i]}).
    destruct (undo_after_push e hid ts s0) as (s2 & Hu & Hh & Hi & Hel).
    { intros j Hj. apply list_elem_of_singleton in Hj. subst j. simpl.
      rewrite lookup_singleton_eq. eauto. }
    destruct (redo_after_undo e hid ts s0 s2) as (s3 & Hr & Hel'); try done.
    { intros j Hj. apply list_elem_of_singleton in Hj. subst j. simpl.
      rewrite lookup_singleton_eq. eauto. }
    exists s2, s3. split; [exact Hu|]. split; [exact Hr|].
    destruct (pushHistory_frame e hid ts s0) as (-> & _).
    rewrite Hel', Hel. simpl.
    rewrite !decide_True by (apply list_elem_of_singleton; done).
    unfold snapAt. rewrite !lookup_singleton_eq, lookup_insert_eq. simpl.
    done.
  - intros i u now Hnone. unfold updateElement. by rewrite Hnone.
  - intros ids s1.
    pose proof (deleteElements_elements ids hid ts s) as Hs1. fold s1 in Hs1.
    unfold s1, deleteElements in *.
    set (e := mkInput hist_delete ids
                (foldl (fun b i => <[i := elements s !! i]> b) ∅ ids)
                (foldl (fun a i => <[i := None]> a) ∅ ids)) in *.
    set (s0 := set_selectedIds _ _) in *.
    destruct (undo_after_push e hid ts s0) as (s2 & Hu & Hh & Hi & Hel).
    { intros j Hj. simpl. rewrite foldl_insert_lookup, decide_True by done.
      eauto. }
    destruct (redo_after_undo e hid ts s0 s2) as (s3 & Hr & Hel'); try done.
    { intros j Hj. simpl.
      rewrite (foldl_insert_lookup (fun _ => None)), decide_True by done.
      eauto. }
    exists s2, s3. split; [exact Hu|]. split; [exact Hr|].
    intros i Hin. rewrite Hel', Hel, Hs1. simpl.
    rewrite !decide_True by done. unfold snapAt.
    rewrite foldl_insert_lookup, decide_True by done.
    rewrite (foldl_insert_lookup (fun _ => None)), decide_True by done.
    simpl. done.
Qed.

Lemma undo_redo_round_trip_witness :
  elements withA !! "a" = Some elemA /\
  exists s2 s3,
    undo (updateElement "a" (positionPatch 40 60) 7 "h1" 8 withA) = Some s2
    /\ redo s2 = Some s3
    /\ elements s2 !! "a" = elements withA !! "a".
Proof.
  assert (H : elements withA !! "a" = Some elemA) by reflexivity.
  split; [exact H|].
  destruct (proj1 (proj2 (undo_redo_round_trip withA "h1" 8))
              "a" (positionPatch 40 60) 7 elemA H)
    as (s2 & s3 & Hu & Hr & _ & H2 & _).
  exists s2, s3. split; [exact Hu|]. split; [exact Hr|]. exact H2.
Defined.

(** ** Import *)




(** ** Locked elements *)

(** [selectAll] selects exactly the keys of the unlocked elements. *)
Lemma selectAll_spec (s : CanvasState) (i : string) :
  i ∈ selectedIds (selectAll s)
  <-> exists el, elements s !! i = Some el /\ el_locked el = false.
Proof.
  unfold selectAll. simpl. rewrite list_elem_of_fmap. split.
  - intros ([j el] & -> & Hin). apply list_elem_of_filter in Hin as [Hl Hin].
    apply elem_of_map_to_list in Hin. exists el. split; [done|].
    simpl in Hl. by destruct (el_locked el).
  - intros (el & Hel & Hl). exists (i, el). split; [done|].
    apply list_elem_of_filter. split; [simpl; by rewrite Hl|].
    by apply elem_of_map_to_list.
Qed.

Lemma selectAll_skips_locked (s : CanvasState) (i : string) (el : Element) :
  elements s !! i = Some el -> el_locked el = true ->
  i ∉ selectedIds (selectAll s).
Proof.
  intros Hel Hl Hin. apply selectAll_spec in Hin as (el' & Hel' & Hl').
  congruence.
Qed.

(** C3 on the code: a locked element is left out by [selectAll], but a
    press on it with the select tool starts a drag and the first move of
    the pointer writes a new position into it.  Neither [handleMouseDown],
    nor [handleMouseMove], nor [updateElementSilent] looks at [locked]. *)
Theorem locked_element_is_dragged :
  elements withLockedA !! "a" = Some lockedA /\ el_locked lockedA = true
  /\ selectedIds (selectAll withLockedA) = []
  /\ exists s1 d s2,
       mouseDownSelect (mkPoint 10 10) false withLockedA = (s1, Some d)
       /\ dragMove d (mkPoint 50 10) (fun _ => 5) s1 = s2
       /\ (el_locked <$> elements s2 !! "a") = Some true
       /\ (el_x <$> elements s2 !! "a") = Some 40%Q
       /\ (el_x <$> elements withLockedA !! "a") = Some 0%Q.
Proof.
  split; [reflexivity|]. split; [reflexivity|]. split; [reflexivity|].
  eexists _, _, _. split; [vm_compute; reflexivity|].
  split; [reflexivity|]. split; [vm_compute; reflexivity|].
  split; vm_compute; reflexivity.
Qed.

(** The store itself applies a silent update to a locked element. *)
Lemma updateElementSilent_ignores_lock i u now s el :
  elements s !! i = Some el -> el_locked el = true ->
  elements (updateElementSilent i u now s) !! i = Some (assign el u now).
Proof. intros H _. by apply updateElementSilent_lookup. Qed.

(** ** The order and selection invariant *)

Lemma spliceOut_cons i j l :
  spliceOut i (j :: l) = if decide (j = i) then l else j :: spliceOut i l.
Proof.
  unfold spliceOut. simpl. case_decide; [done|].
  destruct (indexOf i l); done.
Qed.

Lemma spliceOut_sublist i l : spliceOut i l `sublist_of` l.
Proof.
  induction l as [|j l IH]; [done|]. rewrite spliceOut_cons.
  case_decide; [by apply sublist_cons | by apply sublist_skip].
Qed.

Lemma elem_of_spliceOut i l j :
  NoDup l -> j ∈ spliceOut i l <-> j ∈ l /\ j ≠ i.
Proof.
  induction l as [|k l IH]; intros Hnd.
  - unfold spliceOut. simpl. split; [intros H|intros [H _]];
      by apply elem_of_nil in H.
  - apply NoDup_cons in Hnd as [Hk Hnd]. rewrite spliceOut_cons.
    case_decide as E.
    + subst k. rewrite elem_of_cons. split.
      * intros H. split; [by right|]. intros ->. done.
      * intros [[->|H] Hne]; done.
    + rewrite !elem_of_cons, IH by done. split.
      * intros [->|[H Hne]]; [split; [by left|done] | split; [by right|done]].
      * intros [[->|H] Hne]; [by left | right; done].
Qed.

Lemma docInv_insert_fresh els ord i el :
  docInv els ord -> els !! i = None ->
  docInv (<[i := el]> els) (ord ++ [i]).
Proof.
  intros [Hnd Hdom] Hnone. split.
  - apply NoDup_app. split; [done|]. split; [|apply NoDup_singleton].
    intros j Hj Hj'. apply list_elem_of_singleton in Hj'. subst j.
    apply Hdom in Hj. rewrite Hnone in Hj. by destruct Hj.
  - intros j. rewrite elem_of_app, list_elem_of_singleton, Hdom.
    rewrite lookup_insert_is_Some. destruct (decide (i = j)); intuition (subst; eauto; congruence).
Qed.

Lemma docInv_insert_present els ord i el :
  docInv els ord -> is_Some (els !! i) -> docInv (<[i := el]> els) ord.
Proof.
  intros [Hnd Hdom] Hsome. split; [done|].
  intros j. rewrite Hdom, lookup_insert_is_Some.
  destruct (decide (i = j)); intuition (subst; eauto; congruence).
Qed.

Lemma docInv_delete els ord i :
  docInv els ord -> docInv (delete i els) (spliceOut i ord).
Proof.
  intros [Hnd Hdom]. split.
  - eapply sublist_NoDup; [done | apply spliceOut_sublist].
  - intros j. rewrite elem_of_spliceOut, Hdom, lookup_delete_is_Some by done.
    intuition (subst; eauto; congruence).
Qed.

Lemma docInv_perm els ord ord' :
  ord' ≡ₚ ord -> docInv els ord -> docInv els ord'.
Proof.
  intros HP [Hnd Hdom]. split; [by rewrite HP|].
  intros j. by rewrite HP.
Qed.

Lemma docInv_same_dom els els' ord :
  (forall i, is_Some (els' !! i) <-> is_Some (els !! i)) ->
  docInv els ord -> docInv els' ord.
Proof. intros H [Hnd Hdom]. split; [done|]. intros j. by rewrite Hdom, H. Qed.

Lemma keys_docInv (m : gmap string Element) : docInv m (keys m).
Proof.
  split; [apply NoDup_fst_map_to_list|].
  intros i. unfold keys. rewrite list_elem_of_fmap. split.
  - intros ([j el] & -> & Hin). apply elem_of_map_to_list in Hin. eauto.
  - intros [el Hel]. exists (i, el). split; [done|].
    by apply elem_of_map_to_list.
Qed.

Lemma docInv_empty : docInv ∅ [].
Proof.
  split; [apply NoDup_nil_2|]. intros i. rewrite lookup_empty. split.
  - intros H. by apply elem_of_nil in H.
  - intros [? ?]. done.
Qed.

Lemma live_spec s i : live s i <-> is_Some (elements s !! i).
Proof. unfold live. apply bool_decide_spec. Qed.

Lemma not_live_spec s i : negb (live s i) <-> elements s !! i = None.
Proof.
  rewrite negb_True, live_spec. rewrite <- not_eq_None_Some.
  destruct (elements s !! i); intuition (subst; eauto; congruence).
Qed.

Lemma forallb_True {A} (f : A -> bool) (l : list A) :
  forallb f l <-> forall a, a ∈ l -> f a.
Proof.
  rewrite Is_true_true, forallb_forall. split; intros H a Ha.
  - apply Is_true_true, H. by apply list_elem_of_In.
  - apply Is_true_true, H. by apply list_elem_of_In.
Qed.

Lemma slice0_Forall {A} (P : A -> Prop) (l : list A) (e : Z) :
  Forall P l -> Forall P (slice0 l e).
Proof. unfold slice0. case_decide; apply Forall_take. Qed.

Lemma pushHistory_inv e hid ts s :
  inputWf e -> Forall entryWf (history s) ->
  historyWf (pushHistory e hid ts s).
Proof.
  intros He Hs. destruct (pushHistory_cursor e hid ts s) as (H0 & Htop & _).
  split; [unfold cursorAtTop in Htop; lia|].
  unfold pushHistory.
  assert (Forall entryWf
            (slice0 (history s) (historyIndex s + 1) ++ [stamp hid ts e])).
  { apply Forall_app. split; [by apply slice0_Forall|].
    apply Forall_singleton. exact He. }
  case_decide; simpl; [by apply Forall_drop | done].
Qed.

Lemma pushHistory_orderInv e hid ts s :
  orderInv s -> orderInv (pushHistory e hid ts s).
Proof.
  unfold orderInv. by destruct (pushHistory_frame e hid ts s) as (-> & -> & _).
Qed.

Lemma pushHistory_selectionInv e hid ts s :
  selectionInv s -> selectionInv (pushHistory e hid ts s).
Proof.
  unfold selectionInv.
  by destruct (pushHistory_frame e hid ts s) as (-> & _ & -> & _).
Qed.

Lemma addElement_inv el hid ts s :
  elements s !! el_id el = None ->
  orderInv s -> historyWf s ->
  orderInv (addElement el hid ts s) /\ historyWf (addElement el hid ts s)
  /\ (selectionInv s -> selectionInv (addElement el hid ts s)).
Proof.
  intros Hfresh Ho [_ Hh]. unfold addElement. split; [|split].
  - apply pushHistory_orderInv. by apply docInv_insert_fresh.
  - apply pushHistory_inv; [|done]. intros i Hi.
    apply list_elem_of_singleton in Hi. subst i. simpl.
    rewrite !lookup_singleton_eq. eauto.
  - intros Hsel. apply pushHistory_selectionInv.
    intros i Hi. simpl. apply lookup_insert_is_Some'. right. by apply Hsel.
Qed.

Lemma updateElementSilent_inv i u now s :
  orderInv s -> historyWf s ->
  orderInv (updateElementSilent i u now s)
  /\ historyWf (updateElementSilent i u now s)
  /\ (selectionInv s -> selectionInv (updateElementSilent i u now s)).
Proof.
  intros Ho Hh. unfold updateElementSilent.
  destruct (elements s !! i) as [el|] eqn:E; [|done].
  split; [|split; [done|]].
  - apply docInv_insert_present; [done|]. rewrite E. eauto.
  - intros Hsel j Hj. simpl. apply lookup_insert_is_Some'. right.
    by apply Hsel.
Qed.

Lemma updateElement_inv i u now hid ts s :
  orderInv s -> historyWf s ->
  orderInv (updateElement i u now hid ts s)
  /\ historyWf (updateElement i u now hid ts s)
  /\ (selectionInv s -> selectionInv (updateElement i u now hid ts s)).
Proof.
  intros Ho Hh. unfold updateElement.
  destruct (elements s !! i) as [el|] eqn:E; [|done].
  split; [|split].
  - apply pushHistory_orderInv. apply docInv_insert_present; [done|].
    rewrite E. eauto.
  - apply pushHistory_inv; [|by destruct Hh]. intros j Hj.
    apply list_elem_of_singleton in Hj. subst j. simpl.
    rewrite !lookup_singleton_eq. eauto.
  - intros Hsel. apply pushHistory_selectionInv. intros j Hj. simpl.
    apply lookup_insert_is_Some'. right. by apply Hsel.
Qed.

Lemma deleteLoop_orderInv ids s : orderInv s -> orderInv (deleteLoop ids s).
Proof.
  revert s. induction ids as [|i ids IH]; intros s Ho; [done|].
  unfold deleteLoop in *. cbn [foldl]. apply IH. by apply docInv_delete.
Qed.

Lemma deleteElements_inv ids hid ts s :
  orderInv s -> historyWf s ->
  orderInv (deleteElements ids hid ts s)
  /\ historyWf (deleteElements ids hid ts s)
  /\ (selectionInv s -> selectionInv (deleteElements ids hid ts s)).
Proof.
  intros Ho [_ Hh]. unfold deleteElements. fold (deleteLoop ids s).
  destruct (deleteLoop_frame ids s) as (Hsel & Hhist & Hidx).
  split; [|split].
  - apply pushHistory_orderInv. by apply deleteLoop_orderInv.
  - apply pushHistory_inv.
    + intros i Hi. simpl. rewrite foldl_insert_lookup, decide_True by done.
      rewrite (foldl_insert_lookup (fun _ => None)), decide_True by done.
      eauto.
    + simpl. by rewrite Hhist.
  - intros Hs. apply pushHistory_selectionInv. intros i Hi. simpl in *.
    apply list_elem_of_filter in Hi as [Hni Hi].
    apply not_includes in Hni. rewrite Hsel in Hi.
    rewrite deleteLoop_lookup, decide_False by done. by apply Hs.
Qed.

Lemma imap_ids {A} (f : nat -> A -> Element) (g : nat -> string) (l : list A) :
  (forall k a, el_id (f k a) = g k) ->
  el_id <$> imap f l = g <$> seq 0 (length l).
Proof.
  revert f g. induction l as [|a l IH]; intros f g Hfg; [done|].
  change (imap f (a :: l)) with (f 0%nat a :: imap (f ∘ S) l).
  rewrite fmap_cons, Hfg, (IH (f ∘ S) (g ∘ S)) by (intros; apply Hfg).
  cbn [length seq]. rewrite fmap_cons. f_equal.
  by rewrite <- fmap_S_seq, <- list_fmap_compose.
Qed.

Lemma clones_ids src dx dy fresh clock :
  el_id <$> clones src dx dy fresh clock = fresh <$> seq 0 (length src).
Proof. unfold clones. by apply imap_ids. Qed.

Lemma freshIds_spec s fresh n :
  freshIds s fresh n <->
  NoDup (fresh <$> seq 0 n)
  /\ forall i, i ∈ fresh <$> seq 0 n -> elements s !! i = None.
Proof.
  unfold freshIds. rewrite andb_True, bool_decide_spec, forallb_True.
  split; intros [H1 H2]; (split; [done|]); intros i Hi;
    apply not_live_spec, H2, Hi.
Qed.

Lemma insertAll_inv news s :
  orderInv s -> NoDup (el_id <$> news) ->
  (forall i, i ∈ el_id <$> news -> elements s !! i = None) ->
  orderInv (insertAll news s)
  /\ forall j, is_Some (elements (insertAll news s) !! j)
               <-> is_Some (elements s !! j) \/ j ∈ el_id <$> news.
Proof.
  revert s. induction news as [|el news IH]; intros s Ho Hnd Hfresh.
  - split; [done|]. intros j. simpl. split; [by left|].
    intros [H|H]; [done | by apply elem_of_nil in H].
  - simpl in Hnd. apply NoDup_cons in Hnd as [Hel Hnd].
    unfold insertAll in *. cbn [foldl].
    set (s1 := set_doc (<[el_id el:=el]> (elements s))
                       (elementOrder s ++ [el_id el]) s).
    destruct (IH s1) as [Ho' Hdom'].
    + apply docInv_insert_fresh; [done|]. apply Hfresh. simpl. left.
    + done.
    + intros i Hi. simpl. rewrite lookup_insert_ne.
      * apply Hfresh. simpl. by right.
      * intros E. subst i. done.
    + split; [done|]. intros j. rewrite Hdom'. simpl.
      rewrite lookup_insert_is_Some', elem_of_cons. intuition (subst; eauto; congruence).
Qed.

Lemma insertAll_selected_inv ids news s :
  orderInv s -> historyWf s -> NoDup (el_id <$> news) ->
  (forall i, i ∈ el_id <$> news -> elements s !! i = None) ->
  let s' := set_selectedIds (el_id <$> news) (insertAll news s) in
  ids = el_id <$> news ->
  orderInv s' /\ historyWf s' /\ selectionInv s'.
Proof.
  intros Ho Hh Hnd Hfresh s' _.
  destruct (insertAll_inv news s Ho Hnd Hfresh) as [Ho' Hdom].
  destruct (insertAll_history news s) as (Hhist & Hidx & _).
  split; [exact Ho'|]. split.
  - unfold historyWf, s'. simpl. by rewrite Hhist, Hidx.
  - intros i Hi. unfold s' in *. simpl in *. apply Hdom. by right.
Qed.

Lemma duplicateElements_inv ids fresh clock s :
  freshIds s fresh (length (omap (fun i => elements s !! i) ids)) ->
  orderInv s -> historyWf s ->
  orderInv (duplicateElements ids fresh clock s).1
  /\ historyWf (duplicateElements ids fresh clock s).1
  /\ selectionInv (duplicateElements ids fresh clock s).1.
Proof.
  intros Hf Ho Hh. apply freshIds_spec in Hf as [Hnd Hfresh].
  unfold duplicateElements. simpl.
  eapply (insertAll_selected_inv _ _ s); try done;
    rewrite clones_ids; done.
Qed.

Lemma paste_inv offset fresh clock s :
  freshIds s fresh (length (clipboard s)) ->
  orderInv s -> historyWf s ->
  orderInv (paste offset fresh clock s)
  /\ historyWf (paste offset fresh clock s)
  /\ (selectionInv s -> selectionInv (paste offset fresh clock s)).
Proof.
  intros Hf Ho Hh. apply freshIds_spec in Hf as [Hnd Hfresh].
  unfold paste. destruct (clipboard s) as [|c cs] eqn:Hc; [done|].
  destruct (insertAll_selected_inv
              (el_id <$> clones (c :: cs) (p_x offset) (p_y offset) fresh clock)
              (clones (c :: cs) (p_x offset) (p_y offset) fresh clock) s)
    as (H1 & H2 & H3); try done; rewrite ?clones_ids; done.
Qed.

(** Selection operations. *)
Lemma selection_ops_inv s :
  orderInv s -> historyWf s ->
  (forall ids, forallb (live s) ids ->
     orderInv (setSelection ids s) /\ historyWf (setSelection ids s)
     /\ selectionInv (setSelection ids s))
  /\ (forall i, live s i ->
     orderInv (addToSelection i s) /\ historyWf (addToSelection i s)
     /\ (selectionInv s -> selectionInv (addToSelection i s)))
  /\ (forall i,
     orderInv (removeFromSelection i s) /\ historyWf (removeFromSelection i s)
     /\ (selectionInv s -> selectionInv (removeFromSelection i s)))
  /\ (orderInv (clearSelection s) /\ historyWf (clearSelection s)
      /\ selectionInv (clearSelection s))
  /\ (orderInv (selectAll s) /\ historyWf (selectAll s)
      /\ selectionInv (selectAll s))
  /\ (forall t,
     orderInv (setTool t s) /\ historyWf (setTool t s)
     /\ (selectionInv s -> selectionInv (setTool t s)))
  /\ (orderInv (copy s) /\ historyWf (copy s)
      /\ (selectionInv s -> selectionInv (copy s))).
Proof.
  intros Ho Hh. split; [|split; [|split; [|split; [|split; [|split]]]]].
  - intros ids Hids. split; [done|]. split; [done|].
    intros i Hi. simpl in *. apply live_spec.
    by apply (proj1 (forallb_True _ _) Hids).
  - intros i Hi. unfold addToSelection.
    destruct (includes (selectedIds s) i); [done|].
    split; [done|]. split; [done|]. intros Hs j Hj. simpl in *.
    apply elem_of_app in Hj as [Hj|Hj]; [by apply Hs|].
    apply list_elem_of_singleton in Hj. subst j. by apply live_spec.
  - intros i. split; [done|]. split; [done|]. intros Hs j Hj. simpl in *.
    apply list_elem_of_filter in Hj as [_ Hj]. by apply Hs.
  - split; [done|]. split; [done|]. intros i Hi. simpl in Hi.
    by apply elem_of_nil in Hi.
  - split; [done|]. split; [done|]. intros i Hi.
    apply selectAll_spec in Hi as (el & Hel & _).
    change (elements (selectAll s)) with (elements s). rewrite Hel. eauto.
  - intros t. unfold setTool. destruct t; (split; [done|]); (split; [done|]);
      intros Hs i Hi; simpl in *; first [by apply Hs | by apply elem_of_nil in Hi].
  - split; [done|]. split; [done|]. done.
Qed.

(** Undo and redo. *)
Lemma restore_orderInv snap s i :
  is_Some (snap !! i) -> orderInv s ->
  exists d, restore snap s i = Some d /\ orderInv d.
Proof.
  intros [v Hv] Ho. unfold restore. rewrite Hv. destruct v as [el|].
  - eexists. split; [reflexivity|]. unfold orderInv. simpl.
    unfold includes. case_bool_decide as Hin.
    + apply docInv_insert_present; [done|]. by apply Ho.
    + apply docInv_insert_fresh; [done|].
      destruct (elements s !! i) eqn:E; [|done].
      exfalso. apply Hin, Ho. rewrite E. eauto.
  - eexists. split; [reflexivity|]. by apply docInv_delete.
Qed.

Lemma restoreAll_orderInv snap ids s :
  (forall i, i ∈ ids -> is_Some (snap !! i)) -> orderInv s ->
  exists d, restoreAll snap ids s = Some d /\ orderInv d.
Proof.
  revert s. induction ids as [|i ids IH]; intros s Hk Ho.
  - exists s. done.
  - destruct (restore_orderInv snap s i) as (d & Hd & Hod);
      [apply Hk; left | done |].
    destruct (IH d) as (d' & Hd' & Hod'); [intros; apply Hk; by right|done|].
    exists d'. by rewrite restoreAll_cons, Hd.
Qed.

Lemma at_index_wf s k :
  historyWf s -> 0 <= k < Z.of_nat (length (history s)) ->
  exists e, at_index (history s) k = Some e /\ entryWf e.
Proof.
  intros [_ Hall] Hk. unfold at_index. rewrite decide_False by lia.
  destruct (lookup_lt_is_Some_2 (history s) (Z.to_nat k)) as [e He]; [lia|].
  exists e. split; [done|].
  eapply Forall_forall; [exact Hall|]. by eapply list_elem_of_lookup_2.
Qed.

Lemma undo_inv s :
  orderInv s -> historyWf s ->
  exists s', undo s = Some s' /\ orderInv s' /\ historyWf s'.
Proof.
  intros Ho Hh. unfold undo. case_decide as Hneg; [by exists s|].
  destruct (at_index_wf s (historyIndex s) Hh) as (e & -> & He);
    [destruct Hh; lia|].
  destruct (restoreAll_orderInv (h_before e) (h_elementIds e) s)
    as (d & Hd & Hod); [intros i Hi; by apply He | done |].
  destruct (restoreAll_frame _ _ _ _ Hd) as (Hhist & Hidx & _).
  simpl. rewrite Hd. simpl. eexists. split; [reflexivity|].
  split; [exact Hod|]. unfold historyWf. simpl. rewrite Hhist, Hidx.
  destruct Hh. split; [lia | done].
Qed.

Lemma redo_inv s :
  orderInv s -> historyWf s ->
  exists s', redo s = Some s' /\ orderInv s' /\ historyWf s'.
Proof.
  intros Ho Hh. unfold redo. case_decide as Htop; [by exists s|].
  destruct (at_index_wf s (historyIndex s + 1) Hh) as (e & -> & He);
    [destruct Hh; lia|].
  destruct (restoreAll_orderInv (h_after e) (h_elementIds e) s)
    as (d & Hd & Hod); [intros i Hi; by apply He | done |].
  destruct (restoreAll_frame _ _ _ _ Hd) as (Hhist & Hidx & _).
  simpl. rewrite Hd. simpl. eexists. split; [reflexivity|].
  split; [exact Hod|]. unfold historyWf. simpl. rewrite Hhist, Hidx.
  destruct Hh. split; [lia | done].
Qed.

(** Z-order. *)
Lemma forwardStep_perm ord i :
  i ∈ ord -> exists ord', forwardStep ord i = Some ord' /\ ord' ≡ₚ ord.
Proof.
  intros Hi. apply list_elem_of_split_l in Hi as (l1 & l2 & -> & Hni).
  destruct l2 as [|j l2].
  - eexists. split; [by apply forwardStep_last | done].
  - eexists. split; [by apply forwardStep_inner|].
    apply Permutation_app_head, perm_swap.
Qed.

Lemma forwardLoop_perm ids ord :
  (forall i, i ∈ ids -> i ∈ ord) ->
  exists ord',
    foldl (fun acc i => acc ≫= fun o => forwardStep o i) (Some ord) ids
      = Some ord'
    /\ ord' ≡ₚ ord.
Proof.
  revert ord. induction ids as [|i ids IH]; intros ord Hsub.
  - by exists ord.
  - destruct (forwardStep_perm ord i) as (o1 & Ho1 & HP1); [apply Hsub; left|].
    destruct (IH o1) as (o2 & Ho2 & HP2).
    { intros j Hj. rewrite HP1. apply Hsub. by right. }
    exists o2. cbn [foldl]. simpl. rewrite Ho1. split; [exact Ho2|].
    by rewrite HP2.
Qed.

Lemma backwardStep_perm ord i : backwardStep ord i ≡ₚ ord.
Proof.
  destruct (decide (i ∈ ord)) as [Hi|Hni].
  - apply list_elem_of_split_l in Hi as (l1 & l2 & -> & Hni).
    destruct l1 as [|j l1 _] using rev_ind.
    + simpl. by rewrite backwardStep_first.
    + rewrite <- app_assoc. simpl.
      apply not_elem_of_app in Hni as [Hni Hne].
      rewrite backwardStep_inner.
      * apply Permutation_app_head, perm_swap.
      * done.
      * intros ->. apply Hne. left.
  - unfold backwardStep. by rewrite (proj2 (indexOf_None i ord) Hni).
Qed.

Lemma backwardLoop_perm ids ord : foldl backwardStep ord ids ≡ₚ ord.
Proof.
  revert ord. induction ids as [|i ids IH]; intros ord; [done|].
  cbn [foldl]. rewrite IH. apply backwardStep_perm.
Qed.

Lemma z_order_inv s :
  orderInv s -> historyWf s ->
  (forall ids, NoDup ids -> forallb (live s) ids ->
     orderInv (bringToFront ids s) /\ orderInv (sendToBack ids s))
  /\ (forall ids, forallb (live s) ids ->
        exists s', bringForward ids s = Some s' /\ orderInv s'
                   /\ historyWf s' /\ selectedIds s' = selectedIds s
                   /\ elements s' = elements s)
  /\ (forall ids, orderInv (sendBackward ids s)).
Proof.
  intros Ho Hh.
  assert (Hlive : forall ids, forallb (live s) ids ->
                    forall i, i ∈ ids -> i ∈ elementOrder s).
  { intros ids Hids i Hi. apply Ho, live_spec.
    by apply (proj1 (forallb_True _ _) Hids). }
  split; [|split].
  - intros ids Hnd Hids.
    pose proof (bringToFront_permutation ids (elementOrder s)
                  (proj1 Ho) Hnd (Hlive ids Hids)) as HP.
    split; (eapply docInv_perm; [|exact Ho]); simpl; [exact HP|].
    etrans; [apply Permutation_app_comm | exact HP].
  - intros ids Hids.
    destruct (forwardLoop_perm ids (elementOrder s) (Hlive ids Hids))
      as (ord' & Hf & HP).
    unfold bringForward. rewrite Hf. simpl. eexists. split; [reflexivity|].
    split; [by eapply docInv_perm|]. done.
  - intros ids. eapply docInv_perm; [|exact Ho]. simpl.
    apply backwardLoop_perm.
Qed.

(** Grouping keeps the keys of the map. *)
Lemma group_dom ids g (m : gmap string Element) j :
  is_Some (foldl (fun m i => alter (with_groupId (Some g)) i m) m ids !! j)
  <-> is_Some (m !! j).
Proof.
  revert m. induction ids as [|i ids IH]; intros m; [done|].
  cbn [foldl]. by rewrite IH, lookup_alter_is_Some.
Qed.

Lemma grouping_inv s :
  orderInv s -> historyWf s ->
  (forall ids g,
     orderInv (group ids g s).1 /\ historyWf (group ids g s).1
     /\ (selectionInv s -> selectionInv (group ids g s).1))
  /\ (forall g,
     orderInv (ungroup g s) /\ historyWf (ungroup g s)
     /\ (selectionInv s -> selectionInv (ungroup g s))).
Proof.
  intros Ho Hh. split.
  - intros ids g. split; [|split; [done|]].
    + eapply docInv_same_dom; [|exact Ho]. intros i. simpl. apply group_dom.
    + intros Hs i Hi. simpl in *. apply group_dom. by apply Hs.
  - intros g. split; [|split; [done|]].
    + eapply docInv_same_dom; [|exact Ho]. intros i. simpl.
      by rewrite lookup_fmap, fmap_is_Some.
    + intros Hs i Hi. simpl in *. rewrite lookup_fmap, fmap_is_Some.
      by apply Hs.
Qed.

Lemma enumerates_docInv m ks : enumerates m ks -> docInv m ks.
Proof.
  unfold enumerates. intros Hc.
  apply andb_True in Hc as [Hc H3]. apply andb_True in Hc as [H1 H2].
  apply bool_decide_spec in H1. split; [done|]. intros i. split.
  - intros Hi. apply (proj1 (forallb_True _ _) H2) in Hi.
    by apply bool_decide_spec in Hi.
  - intros Hi. apply keys_docInv in Hi.
    apply (proj1 (forallb_True _ _) H3) in Hi.
    by apply bool_decide_spec in Hi.
Qed.

(** Import of a consistent document, and [clear]. *)
Lemma install_inv m o s :
  docInv m o ->
  orderInv (install m o s) /\ historyWf (install m o s)
  /\ selectionInv (install m o s).
Proof.
  intros Hd. split; [exact Hd|]. split.
  - split; [simpl; lia | apply Forall_nil_2].
  - intros i Hi. simpl in Hi. by apply elem_of_nil in Hi.
Qed.

Lemma importFromJSON_inv data s :
  consistentDoc data -> orderInv s -> historyWf s ->
  exists s',
    importFromJSON data s = Some s' /\ orderInv s' /\ historyWf s'
    /\ (selectionInv s -> selectionInv s').
Proof.
  intros Hc Ho Hh.
  assert (Hempty := install_inv ∅ [] s docInv_empty).
  destruct data as [| |els ord]; simpl; [by exists s|by exists s|].
  destruct ord as [| |o|ks], els as [| |m|ks']; simpl in *; try done;
    try (by exists s);
    try (eexists; split; [reflexivity|]; by destruct Hempty as (?&?&?));
    try (eexists; split; [reflexivity|];
         by destruct (install_inv (obj_map m) (obj_keys m) s
                        (enumerates_docInv _ _ (obj_wf m))) as (?&?&?)).
  - apply bool_decide_spec in Hc. subst o.
    eexists; split; [reflexivity|]; by destruct Hempty as (?&?&?).
  - apply bool_decide_spec in Hc. subst o.
    eexists; split; [reflexivity|]; by destruct Hempty as (?&?&?).
  - apply andb_True in Hc as [Hc H3]. apply andb_True in Hc as [H1 H2].
    apply bool_decide_spec in H1.
    eexists; split; [reflexivity|].
    destruct (install_inv (obj_map m) o s) as (?&?&?); [|done].
    split; [done|]. intros i. split.
    + intros Hi. apply (proj1 (forallb_True _ _) H2) in Hi.
      by apply bool_decide_spec in Hi.
    + intros Hi. apply keys_docInv in Hi.
      apply (proj1 (forallb_True _ _) H3) in Hi.
      by apply bool_decide_spec in Hi.
Qed.

Lemma docInv_keys els ord : docInv els ord -> ord ≡ₚ keys els.
Proof.
  intros [Hnd Hdom]. destruct (keys_docInv els) as [Hnd' Hdom'].
  apply NoDup_Permutation; [done|done|]. intros i. by rewrite Hdom, Hdom'.
Qed.

Lemma selectionInv_keys s i :
  selectionInv s -> i ∈ selectedIds s -> i ∈ keys (elements s).
Proof. intros Hs Hi. apply keys_docInv. by apply Hs. Qed.

(** One admitted operation keeps the invariants and does not fail. *)
Lemma step_inv o s :
  orderInv s -> historyWf s -> guard o s ->
  exists s',
    step o s = Some s' /\ orderInv s' /\ historyWf s'
    /\ (keepsSelection o -> selectionInv s -> selectionInv s').
Proof.
  intros Ho Hh Hg.
  destruct (selection_ops_inv s Ho Hh)
    as (Hset & Hadd & Hrem & Hclr & Hall & Htool & Hcopy).
  destruct (z_order_inv s Ho Hh) as (Hfront & Hfwd & Hbwd).
  destruct (grouping_inv s Ho Hh) as (Hgrp & Hungrp).
  destruct o; simpl in Hg |- *.
  - apply not_live_spec in Hg.
    destruct (addElement_inv el hid ts s Hg Ho Hh) as (?&?&?). eauto 10.
  - destruct (updateElement_inv i u now hid ts s Ho Hh) as (?&?&?). eauto 10.
  - destruct (updateElementSilent_inv i u now s Ho Hh) as (?&?&?). eauto 10.
  - destruct (deleteElements_inv ids hid ts s Ho Hh) as (?&?&?). eauto 10.
  - destruct (duplicateElements_inv ids fresh clock s Hg Ho Hh) as (?&?&?).
    eauto 10.
  - destruct (Hset ids Hg) as (?&?&?). eauto 10.
  - destruct (Hadd i Hg) as (?&?&?). eauto 10.
  - destruct (Hrem i) as (?&?&?). eauto 10.
  - destruct Hclr as (?&?&?). eauto 10.
  - destruct Hall as (?&?&?). eauto 10.
  - destruct (Htool t) as (?&?&?). eauto 10.
  - eexists. split; [reflexivity|]. done.
  - eexists. split; [reflexivity|]. done.
  - eexists. split; [reflexivity|]. done.
  - eexists. split; [reflexivity|]. done.
  - destruct (undo_inv s Ho Hh) as (s' & ? & ? & ?). exists s'. done.
  - destruct (redo_inv s Ho Hh) as (s' & ? & ? & ?). exists s'. done.
  - destruct Hcopy as (?&?&?). eauto 10.
  - destruct Hcopy as (Hc1 & Hc2 & Hc3).
    destruct (deleteElements_inv (selectedIds s) hid ts (copy s) Hc1 Hc2)
      as (?&?&?).
    eexists. split; [reflexivity|]. unfold cut. eauto.
  - destruct (paste_inv offset fresh clock s Hg Ho Hh) as (?&?&?). eauto 10.
  - apply andb_True in Hg as [Hnd Hl]. apply bool_decide_spec in Hnd.
    destruct (Hfront ids Hnd Hl) as [? _]. eexists. split; [reflexivity|].
    done.
  - apply andb_True in Hg as [Hnd Hl]. apply bool_decide_spec in Hnd.
    destruct (Hfront ids Hnd Hl) as [_ ?]. eexists. split; [reflexivity|].
    done.
  - destruct (Hfwd ids Hg) as (s' & Hs' & ? & ? & Hsel & Hel).
    exists s'. split; [done|]. split; [done|]. split; [done|].
    intros _ Hs i Hi. rewrite Hel. apply Hs. by rewrite <- Hsel.
  - eexists. split; [reflexivity|]. split; [apply Hbwd|]. done.
  - destruct (Hgrp ids groupId) as (?&?&?). eauto 10.
  - destruct (Hungrp groupId) as (?&?&?). eauto 10.
  - destruct (importFromJSON_inv data s Hg Ho Hh) as (s' & ? & ? & ? & ?).
    exists s'. done.
  - destruct (install_inv ∅ [] s docInv_empty) as (?&?&?).
    eexists. split; [reflexivity|]. done.
Qed.

Lemma run_inv ops s :
  orderInv s -> historyWf s -> guarded ops s ->
  exists s',
    run ops s = Some s' /\ orderInv s' /\ historyWf s'
    /\ (forallb keepsSelection ops -> selectionInv s -> selectionInv s').
Proof.
  revert s. induction ops as [|o ops IH]; intros s Ho Hh Hg.
  - exists s. done.
  - cbn [guarded] in Hg. apply andb_True in Hg as [Hg Hrest].
    destruct (step_inv o s Ho Hh Hg) as (s1 & Hs1 & Ho1 & Hh1 & Hsel1).
    rewrite Hs1 in Hrest. simpl in Hrest.
    destruct (IH s1 Ho1 Hh1 Hrest) as (s' & Hs' & Ho' & Hh' & Hsel').
    exists s'. cbn [run]. rewrite Hs1. simpl. split; [done|].
    split; [done|]. split; [done|].
    cbn [forallb]. intros Hk Hs. apply andb_True in Hk as [Hk1 Hk2].
    apply Hsel'; [done|]. by apply Hsel1.
Qed.

(** The order of a state named by no element, after a z-order call with an
    identifier that is not in the document and after the import of a
    document whose order does not match its map. *)
Lemma order_invariant_broken :
  (exists s',
     run [OpBringToFront ["ghost"]] initialState = Some s'
     /\ elementOrder s' = ["ghost"] /\ keys (elements s') = []
     /\ ~ elementOrder s' ≡ₚ keys (elements s'))
  /\ (exists s',
        run [OpImportFromJSON (ParsedValue (Typed objEmpty) (Typed ["x"; "x"]))]
            initialState = Some s'
        /\ ~ NoDup (elementOrder s')).
Proof.
  split.
  - eexists. split; [reflexivity|]. split; [reflexivity|].
    split; [reflexivity|]. simpl. intros H.
    apply Permutation_length in H. discriminate.
  - eexists. split; [reflexivity|]. simpl. intros H.
    apply NoDup_cons in H as [H _]. apply H. left.
Qed.

(** [undo] removes a selected element from the map and leaves its
    identifier in the selection. *)
Lemma undo_leaves_selection :
  exists s',
    run [OpAddElement elemA "h1" 0; OpSetSelection ["a"]; OpUndo] initialState
      = Some s'
    /\ guarded [OpAddElement elemA "h1" 0; OpSetSelection ["a"]; OpUndo]
               initialState = true
    /\ selectedIds s' = ["a"] /\ elements s' !! "a" = None.
Proof.
  eexists. split; [vm_compute; reflexivity|].
  split; [vm_compute; reflexivity|]. split; reflexivity.
Qed.

(** C2, as the code has it.  From a state that satisfies the invariant, a
    run of store operations in which new elements come with new
    identifiers, the identifiers passed to the selection and z-order
    operations are those of live elements (without repetition for
    [bringToFront] and [sendToBack]) and an imported document is itself
    consistent, never fails and ends in a state whose [elementOrder] is a
    duplicate-free permutation of the keys of [elements]; if the run has no
    [undo] and no [redo], [selectedIds] is within those keys as well. *)
Theorem order_selection_invariant (ops : list Op) (s : CanvasState) :
  orderInv s -> historyWf s -> guarded ops s ->
  exists s',
    run ops s = Some s'
    /\ NoDup (elementOrder s')
    /\ elementOrder s' ≡ₚ keys (elements s')
    /\ (forallb keepsSelection ops -> selectionInv s ->
        forall i, i ∈ selectedIds s' -> i ∈ keys (elements s')).
Proof.
  intros Ho Hh Hg.
  destruct (run_inv ops s Ho Hh Hg) as (s' & Hs' & Ho' & _ & Hsel).
  exists s'. split; [done|]. split; [apply Ho'|].
  split; [by apply docInv_keys|].
  intros Hk Hs i Hi. apply selectionInv_keys; [|done]. by apply Hsel.
Qed.

Lemma order_selection_invariant_witness :
  guarded demoRun initialState = true /\
  exists s',
    run demoRun initialState = Some s'
    /\ NoDup (elementOrder s')
    /\ elementOrder s' ≡ₚ keys (elements s').
Proof.
  assert (Hg : guarded demoRun initialState) by (vm_compute; exact I).
  split; [vm_compute; reflexivity|].
  assert (Ho : orderInv initialState) by apply docInv_empty.
  assert (Hh : historyWf initialState)
    by (split; [simpl; lia | apply Forall_nil_2]).
  destruct (order_selection_invariant demoRun initialState Ho Hh Hg)
    as (s' & Hr & Hnd & Hp & _).
  exists s'. split; [exact Hr|]. split; [exact Hnd | exact Hp].
Defined.

(** * Further properties of the store and of the canvas *)

(** ** History *)

Lemma pushHistory_no_redo e hid ts s :
  selectCanRedo (pushHistory e hid ts s) = false
  /\ selectCanUndo (pushHistory e hid ts s) = true
  /\ redo (pushHistory e hid ts s) = Some (pushHistory e hid ts s).
Proof.
  destruct (pushHistory_cursor e hid ts s) as (H0 & Htop & _).
  unfold cursorAtTop in Htop. unfold selectCanRedo, selectCanUndo, redo.
  split; [apply bool_decide_eq_false; lia|].
  split; [apply bool_decide_eq_true; lia|].
  rewrite decide_True by lia. reflexivity.
Qed.

(** X1.  A new mutation leaves nothing to redo: after [addElement], after
    [updateElement] on a present identifier and after [deleteElements], in
    any state and wherever the cursor was, [canRedo] is false, [canUndo] is
    true and [redo] changes nothing. *)
Theorem new_mutation_discards_redo (s : CanvasState) (hid : string) (ts : Z) :
  (forall el,
     let s1 := addElement el hid ts s in
     selectCanRedo s1 = false /\ selectCanUndo s1 = true /\ redo s1 = Some s1)
  /\ (forall i u now,
        is_Some (elements s !! i) ->
        let s1 := updateElement i u now hid ts s in
        selectCanRedo s1 = false /\ selectCanUndo s1 = true
        /\ redo s1 = Some s1)
  /\ (forall ids,
        let s1 := deleteElements ids hid ts s in
        selectCanRedo s1 = false /\ selectCanUndo s1 = true
        /\ redo s1 = Some s1).
Proof.
  split; [|split].
  - intros el s1. apply pushHistory_no_redo.
  - intros i u now [el Hel] s1. unfold s1, updateElement. rewrite Hel.
    apply pushHistory_no_redo.
  - intros ids s1. apply pushHistory_no_redo.
Qed.

Lemma new_mutation_discards_redo_witness :
  is_Some (elements withA !! "a") /\
  selectCanRedo (updateElement "a" (positionPatch 5 5) 1 "h" 2 withA) = false.
Proof.
  assert (H : is_Some (elements withA !! "a")) by (exists elemA; reflexivity).
  split; [exact H|].
  exact (proj1 (proj1 (proj2 (new_mutation_discards_redo withA "h" 2))
                  "a" (positionPatch 5 5) 1 H)).
Defined.

Lemma set_history_same s : set_history (history s) (historyIndex s) s = s.
Proof. by destruct s. Qed.

(** X2.  [updateElementSilent] is [updateElement] without the history: the
    two leave the same state but for the stack and the cursor, which the
    silent update does not touch. *)
Theorem silent_update_is_update_without_history i u now hid ts s :
  set_history (history s) (historyIndex s) (updateElement i u now hid ts s)
  = updateElementSilent i u now s
  /\ history (updateElementSilent i u now s) = history s
  /\ historyIndex (updateElementSilent i u now s) = historyIndex s.
Proof.
  unfold updateElement, updateElementSilent.
  destruct (elements s !! i) as [el|].
  - split; [|done]. unfold pushHistory. case_decide; reflexivity.
  - split; [apply set_history_same | done].
Qed.

(** ** Viewport *)


(** X4.  Below the cap, [zoomOut] undoes [zoomIn]: for a scale between 0.1
    and 10 / 1.2 the scale after [zoomIn] then [zoomOut] is the scale
    before, and the offset is never touched.  At the cap [zoomIn] stays at
    10. *)
Theorem zoomOut_undoes_zoomIn (s : CanvasState) :
  (((1 # 10) <= t_scale (transform s))%Q ->
   (t_scale (transform s) * (12 # 10) <= 10)%Q ->
   (t_scale (transform (zoomOut (zoomIn s))) == t_scale (transform s))%Q)
  /\ t_x (transform (zoomOut (zoomIn s))) = t_x (transform s)
  /\ t_y (transform (zoomOut (zoomIn s))) = t_y (transform s)
  /\ ((10 <= t_scale (transform s) * (12 # 10))%Q ->
      (t_scale (transform (zoomIn s)) == 10)%Q).
Proof.
  split; [|split; [reflexivity|split; [reflexivity|]]].
  - intros Hlo Hhi. unfold zoomOut, zoomIn, with_scale. simpl.
    rewrite (Q.min_l _ _ Hhi).
    assert (E : (t_scale (transform s) * (12 # 10) / (12 # 10)
                 == t_scale (transform s))%Q) by (field; discriminate).
    rewrite E. apply Q.max_l. exact Hlo.
  - intros H. unfold zoomIn, with_scale. simpl. apply Q.min_r. exact H.
Qed.

Lemma zoomOut_undoes_zoomIn_witness :
  ((1 # 10) <= t_scale (transform initialState))%Q /\
  (t_scale (transform initialState) * (12 # 10) <= 10)%Q /\
  (t_scale (transform (zoomOut (zoomIn initialState)))
   == t_scale (transform initialState))%Q.
Proof.
  assert (H1 : ((1 # 10) <= t_scale (transform initialState))%Q)
    by (vm_compute; discriminate).
  assert (H2 : (t_scale (transform initialState) * (12 # 10) <= 10)%Q)
    by (vm_compute; discriminate).
  split; [exact H1|]. split; [exact H2|].
  exact (proj1 (zoomOut_undoes_zoomIn initialState) H1 H2).
Defined.

(** ** Adding, deleting and undoing *)

Lemma spliceOut_snoc_fresh i ord :
  i ∉ ord -> spliceOut i (ord ++ [i]) = ord.
Proof.
  intros H. unfold spliceOut. rewrite (indexOf_middle i ord [] H).
  rewrite delete_middle. apply app_nil_r.
Qed.

Lemma set_doc_same s : set_doc (elements s) (elementOrder s) s = s.
Proof. by destruct s. Qed.

(** X5.  Adding an element and undoing gives the document back: when the
    identifier is neither in the map nor in the order, after [addElement]
    and [undo] the map, the order and every other field but the history are
    those of the state before; the entry stays on the stack for [redo]. *)
Theorem add_then_undo_restores_document el hid ts s :
  elements s !! el_id el = None -> el_id el ∉ elementOrder s ->
  exists s2,
    undo (addElement el hid ts s) = Some s2
    /\ set_history (history s) (historyIndex s) s2 = s
    /\ selectCanRedo s2 = true
    /\ (cursorAtTop s -> (length (history s) < 100)%nat ->
        historyIndex s2 = historyIndex s).
Proof.
  intros Hfresh Hord. unfold addElement.
  set (e := mkInput hist_add [el_id el] {[el_id el := None]}
              {[el_id el := Some el]}).
  set (s0 := set_doc _ _ s).
  destruct (pushHistory_cursor e hid ts s0) as (H0 & Htop & Hat).
  unfold undo. rewrite decide_False by lia. rewrite Hat. simpl.
  unfold restoreAll. cbn [foldl mbind option_bind].
  unfold restore. rewrite lookup_singleton_eq. simpl.
  eexists. split; [reflexivity|].
  destruct (pushHistory_frame e hid ts s0) as (He & Ho & _).
  assert (Hdoc : delete (el_id el) (elements (pushHistory e hid ts s0))
                 = elements s
               /\ spliceOut (el_id el) (elementOrder (pushHistory e hid ts s0))
                 = elementOrder s).
  { rewrite He, Ho. simpl. split.
    - by apply delete_insert_id.
    - by apply spliceOut_snoc_fresh. }
  destruct Hdoc as [Hd1 Hd2].
  split; [|split].
  - unfold pushHistory in *. case_decide; simpl in *; rewrite Hd1, Hd2;
      by destruct s.
  - unfold selectCanRedo. simpl. apply bool_decide_eq_true.
    unfold cursorAtTop in Htop. lia.
  - intros Hs Hlen. simpl.
    assert (Hh : history (pushHistory e hid ts s0)
                 = last100 (history s ++ [stamp hid ts e]))
      by (apply (pushHistory_at_top e hid ts s0); [simpl; lia | exact Hs]).
    unfold cursorAtTop in Htop, Hs. rewrite Htop, Hh, last100_short;
      rewrite length_app; simpl; lia.
Qed.

Lemma add_then_undo_restores_document_witness :
  elements initialState !! el_id elemA = None /\
  (el_id elemA ∉ elementOrder initialState) /\
  exists s2,
    undo (addElement elemA "h" 1 initialState) = Some s2
    /\ set_history (history initialState) (historyIndex initialState) s2
       = initialState.
Proof.
  assert (H1 : elements initialState !! el_id elemA = None) by reflexivity.
  assert (H2 : el_id elemA ∉ elementOrder initialState)
    by apply not_elem_of_nil.
  split; [exact H1|]. split; [exact H2|].
  destruct (add_then_undo_restores_document elemA "h" 1 initialState H1 H2)
    as (s2 & Hu & Hs & _).
  exists s2. split; [exact Hu | exact Hs].
Defined.

(** [undo] and [redo] on a well-formed stack. *)
Lemma undo_spec s :
  historyWf s -> 0 <= historyIndex s ->
  exists e s',
    at_index (history s) (historyIndex s) = Some e
    /\ undo s = Some s'
    /\ historyIndex s' = historyIndex s - 1
    /\ history s' = history s
    /\ selectedIds s' = selectedIds s
    /\ clipboard s' = clipboard s
    /\ transform s' = transform s
    /\ forall j, elements s' !! j
         = if decide (j ∈ h_elementIds e) then snapAt (h_before e) j
           else elements s !! j.
Proof.
  intros Hh Hidx.
  destruct (at_index_wf s (historyIndex s) Hh) as (e & Hat & He);
    [destruct Hh; lia|].
  destruct (restoreAll_elements (h_before e) (h_elementIds e) s)
    as (d & Hd & Hel); [intros i Hi; by apply He|].
  destruct (restoreAll_frame _ _ _ _ Hd) as (H1 & H2 & H3 & H4 & H5).
  exists e. eexists. split; [exact Hat|].
  unfold undo. rewrite decide_False by lia. rewrite Hat. simpl.
  rewrite Hd. simpl. split; [reflexivity|]. simpl.
  rewrite H2. repeat (split; [done|]). exact Hel.
Qed.

Lemma redo_spec s :
  historyWf s -> historyIndex s < Z.of_nat (length (history s)) - 1 ->
  exists e s',
    at_index (history s) (historyIndex s + 1) = Some e
    /\ redo s = Some s'
    /\ historyIndex s' = historyIndex s + 1
    /\ history s' = history s
    /\ selectedIds s' = selectedIds s
    /\ clipboard s' = clipboard s
    /\ transform s' = transform s
    /\ forall j, elements s' !! j
         = if decide (j ∈ h_elementIds e) then snapAt (h_after e) j
           else elements s !! j.
Proof.
  intros Hh Hidx.
  destruct (at_index_wf s (historyIndex s + 1) Hh) as (e & Hat & He);
    [destruct Hh; lia|].
  destruct (restoreAll_elements (h_after e) (h_elementIds e) s)
    as (d & Hd & Hel); [intros i Hi; by apply He|].
  destruct (restoreAll_frame _ _ _ _ Hd) as (H1 & H2 & H3 & H4 & H5).
  exists e. eexists. split; [exact Hat|].
  unfold redo. rewrite decide_False by lia. rewrite Hat. simpl.
  rewrite Hd. simpl. split; [reflexivity|]. simpl.
  rewrite H2. repeat (split; [done|]). exact Hel.
Qed.

(** X6.  [undo] touches what its entry names and nothing else: on a
    well-formed stack with something to undo, it succeeds, moves the cursor
    down by one, gives every identifier of the entry at the cursor the
    value of the entry's [before] snapshot (absent for [null]) and leaves
    all other elements, the stack, the selection, the clipboard and the
    viewport as they were.  With nothing to undo it returns the state. *)
Theorem undo_touches_only_its_entry (s : CanvasState) :
  (historyIndex s < 0 -> undo s = Some s)
  /\ (historyWf s -> 0 <= historyIndex s ->
      exists e s',
        at_index (history s) (historyIndex s) = Some e
        /\ undo s = Some s'
        /\ historyIndex s' = historyIndex s - 1
        /\ history s' = history s
        /\ selectedIds s' = selectedIds s
        /\ clipboard s' = clipboard s
        /\ transform s' = transform s
        /\ forall j, elements s' !! j
             = if decide (j ∈ h_elementIds e) then snapAt (h_before e) j
               else elements s !! j).
Proof.
  split; [|apply undo_spec].
  intros H. unfold undo. by rewrite decide_True.
Qed.

Lemma afterAdd_wf : historyWf afterAdd /\ 0 <= historyIndex afterAdd.
Proof.
  split; [|vm_compute; discriminate].
  split; [vm_compute; split; discriminate || reflexivity|].
  apply Forall_singleton. intros i Hi.
  apply list_elem_of_singleton in Hi. subst i.
  split; eexists; reflexivity.
Qed.

Lemma undo_touches_only_its_entry_witness :
  historyWf afterAdd /\ 0 <= historyIndex afterAdd /\
  exists e s',
    at_index (history afterAdd) (historyIndex afterAdd) = Some e
    /\ undo afterAdd = Some s'
    /\ historyIndex s' = historyIndex afterAdd - 1.
Proof.
  destruct afterAdd_wf as [H1 H2].
  split; [exact H1|]. split; [exact H2|].
  destruct (proj2 (undo_touches_only_its_entry afterAdd) H1 H2)
    as (e & s' & Ha & Hu & Hi & _).
  exists e, s'. split; [exact Ha|]. split; [exact Hu | exact Hi].
Defined.

(** X7.  [undo] followed by [redo] returns the cursor and the stack, leaves
    every element outside the entry as it was, and gives every identifier
    of the entry the value of its [after] snapshot. *)
Theorem undo_then_redo (s : CanvasState) :
  historyWf s -> 0 <= historyIndex s ->
  exists e s' s'',
    at_index (history s) (historyIndex s) = Some e
    /\ undo s = Some s' /\ redo s' = Some s''
    /\ historyIndex s'' = historyIndex s
    /\ history s'' = history s
    /\ selectedIds s'' = selectedIds s
    /\ forall j, elements s'' !! j
         = if decide (j ∈ h_elementIds e) then snapAt (h_after e) j
           else elements s !! j.
Proof.
  intros Hh Hidx.
  destruct (undo_spec s Hh Hidx)
    as (e & s' & Hat & Hu & Hi & Hhist & Hsel & _ & _ & Hel).
  assert (Hh' : historyWf s').
  { destruct Hh as [Hr Hall].
    split; [rewrite Hhist, Hi; lia | by rewrite Hhist]. }
  destruct (redo_spec s') as (e' & s'' & Hat' & Hr & Hi' & Hhist' & Hsel' & _
                               & _ & Hel').
  { exact Hh'. }
  { rewrite Hhist, Hi. destruct Hh. lia. }
  rewrite Hhist, Hi in Hat'.
  replace (historyIndex s - 1 + 1) with (historyIndex s) in Hat' by lia.
  rewrite Hat in Hat'. simplify_eq.
  exists e', s', s''. split; [done|]. split; [done|]. split; [done|].
  split; [lia|]. split; [congruence|]. split; [congruence|].
  intros j. rewrite Hel', Hel. by case_decide.
Qed.

Lemma undo_then_redo_witness :
  historyWf afterAdd /\ 0 <= historyIndex afterAdd /\
  exists s' s'',
    undo afterAdd = Some s' /\ redo s' = Some s''
    /\ historyIndex s'' = historyIndex afterAdd.
Proof.
  destruct afterAdd_wf as [H1 H2].
  split; [exact H1|]. split; [exact H2|].
  destruct (undo_then_redo afterAdd H1 H2)
    as (e & s' & s'' & _ & Hu & Hr & Hi & _).
  exists s', s''. split; [exact Hu|]. split; [exact Hr | exact Hi].
Defined.

Lemma undo_step s :
  historyWf s ->
  exists s',
    undo s = Some s' /\ historyWf s'
    /\ historyIndex s' = Z.max (-1) (historyIndex s - 1)
    /\ history s' = history s.
Proof.
  intros Hh. destruct (decide (historyIndex s < 0)) as [Hneg|Hpos].
  - exists s. unfold undo. rewrite decide_True by done.
    destruct Hh as [Hr ?]. split; [done|]. split; [done|]. split; [lia|done].
  - destruct (undo_spec s Hh) as (e & s' & _ & Hu & Hi & Hhist & _); [lia|].
    exists s'. split; [done|]. destruct Hh as [Hr Hall].
    split; [split; [rewrite Hhist, Hi; lia | by rewrite Hhist]|].
    split; [lia | done].
Qed.

(** X8.  Repeated [undo] never fails and stops at the bottom: on a
    well-formed stack, [n] undos succeed, leave the stack as it is and the
    cursor at [max (-1) (cursor - n)]; once [n] exceeds the cursor,
    [canUndo] is false and a further [undo] changes nothing. *)
Theorem repeated_undo_reaches_bottom (n : nat) (s : CanvasState) :
  historyWf s ->
  exists s',
    undoN n s = Some s'
    /\ historyIndex s' = Z.max (-1) (historyIndex s - Z.of_nat n)
    /\ history s' = history s
    /\ (historyIndex s < Z.of_nat n ->
        selectCanUndo s' = false /\ undo s' = Some s').
Proof.
  revert s. induction n as [|n IH]; intros s Hh.
  - exists s. destruct Hh as [Hr _]. split; [done|]. split; [lia|].
    split; [done|]. intros Hlt. split.
    + unfold selectCanUndo. apply bool_decide_eq_false. lia.
    + unfold undo. rewrite decide_True by lia. reflexivity.
  - destruct (undo_step s Hh) as (s1 & Hu & Hh1 & Hi1 & Hhist1).
    destruct (IH s1 Hh1) as (s' & Hn & Hi' & Hhist' & Hbot).
    exists s'. cbn [undoN]. rewrite Hu. simpl. split; [exact Hn|].
    destruct Hh as [Hr _].
    split; [lia|]. split; [congruence|]. intros Hlt.
    assert (Hidx : historyIndex s' = -1) by lia.
    split.
    + unfold selectCanUndo. apply bool_decide_eq_false. lia.
    + unfold undo. rewrite decide_True by lia. reflexivity.
Qed.

Lemma repeated_undo_reaches_bottom_witness :
  historyWf afterAdd /\
  exists s', undoN 3 afterAdd = Some s' /\ historyIndex s' = -1.
Proof.
  destruct afterAdd_wf as [H1 _]. split; [exact H1|].
  destruct (repeated_undo_reaches_bottom 3 afterAdd H1)
    as (s' & Hu & Hi & _).
  exists s'. split; [exact Hu | exact Hi].
Defined.

Lemma filter_all {A} (P : A -> Prop) `{forall x, Decision (P x)} (l : list A) :
  (forall x, x ∈ l -> P x) -> filter P l = l.
Proof.
  induction l as [|a l IH]; intros Hl; [done|].
  rewrite filter_cons_True by (apply Hl; left).
  f_equal. apply IH. intros x Hx. apply Hl. by right.
Qed.

Lemma filter_none {A} (P : A -> Prop) `{forall x, Decision (P x)} (l : list A) :
  (forall x, x ∈ l -> ~ P x) -> filter P l = [].
Proof.
  induction l as [|a l IH]; intros Hl; [done|].
  rewrite filter_cons_False by (apply Hl; left).
  apply IH. intros x Hx. apply Hl. by right.
Qed.

Lemma spliceOut_filter i l :
  NoDup l -> spliceOut i l = filter (fun j => j ≠ i) l.
Proof.
  induction l as [|j l IH]; intros Hnd; [done|].
  apply NoDup_cons in Hnd as [Hj Hnd]. rewrite spliceOut_cons.
  case_decide as E.
  - subst j. rewrite filter_cons_False by (intros H; by apply H).
    symmetry. apply filter_all. intros k Hk ->. done.
  - rewrite filter_cons_True by done. f_equal. by apply IH.
Qed.

Lemma deleteLoop_order ids s :
  NoDup (elementOrder s) ->
  elementOrder (deleteLoop ids s)
  = filter (fun j => j ∉ ids) (elementOrder s).
Proof.
  revert s. induction ids as [|i ids IH]; intros s Hnd.
  - simpl. symmetry. apply filter_all. intros k _.
    apply not_elem_of_nil.
  - unfold deleteLoop in *. cbn [foldl]. rewrite IH; simpl.
    + rewrite spliceOut_filter by done. rewrite list_filter_filter.
      apply list_filter_iff. intros k. rewrite not_elem_of_cons. tauto.
    + eapply sublist_NoDup; [exact Hnd | apply spliceOut_sublist].
Qed.

Lemma deleteElements_selected ids hid ts s :
  selectedIds (deleteElements ids hid ts s)
  = filter (fun j => j ∉ ids) (selectedIds s).
Proof.
  unfold deleteElements.
  set (e := mkInput hist_delete ids _ _).
  set (s0 := set_selectedIds _ _).
  destruct (pushHistory_frame e hid ts s0) as (_ & _ & Hs & _).
  destruct (deleteLoop_frame ids s) as (Hsel & _).
  rewrite Hs. unfold s0. simpl. rewrite Hsel.
  apply list_filter_iff. intros k. apply not_includes.
Qed.

(** X9.  [deleteElements] removes the given identifiers from the map, from
    the selection and, when the order has no duplicates, from the order;
    every other element and the relative order of the others stay as they
    are, identifiers that are not in the document are tolerated, and the
    deletion is one step on the history that [undo] can take back. *)
Theorem deleteElements_removes (ids : list string) (hid : string) (ts : Z)
    (s : CanvasState) :
  let s1 := deleteElements ids hid ts s in
  (forall j, elements s1 !! j
             = if decide (j ∈ ids) then None else elements s !! j)
  /\ selectedIds s1 = filter (fun j => j ∉ ids) (selectedIds s)
  /\ (NoDup (elementOrder s) ->
      elementOrder s1 = filter (fun j => j ∉ ids) (elementOrder s))
  /\ selectCanUndo s1 = true
  /\ at_index (history s1) (historyIndex s1)
     = Some (mkEntry hid ts hist_delete ids
               (foldl (fun b i => <[i := elements s !! i]> b) ∅ ids)
               (foldl (fun a i => <[i := None]> a) ∅ ids)).
Proof.
  intros s1.
  split; [apply deleteElements_elements|].
  split; [apply deleteElements_selected|].
  unfold s1, deleteElements.
  set (e := mkInput hist_delete ids _ _).
  set (s0 := set_selectedIds _ _).
  destruct (pushHistory_frame e hid ts s0) as (_ & Ho & _).
  destruct (pushHistory_no_redo e hid ts s0) as (_ & Hundo & _).
  destruct (pushHistory_cursor e hid ts s0) as (_ & _ & Hat).
  split; [|split; [exact Hundo | exact Hat]].
  intros Hnd. rewrite Ho. unfold s0. simpl. by apply deleteLoop_order.
Qed.

Lemma deleteElements_removes_witness :
  NoDup (elementOrder abc) /\
  elementOrder (deleteElements ["b"; "zz"] "h" 1 abc) = ["a"; "c"].
Proof.
  assert (H : NoDup (elementOrder abc))
    by (apply (bool_decide_unpack _); vm_compute; exact I).
  split; [exact H|].
  rewrite (proj1 (proj2 (proj2 (deleteElements_removes ["b"; "zz"] "h" 1 abc)))
             H).
  vm_compute. reflexivity.
Defined.

(** ** Copies: duplicate, copy, paste, cut *)

Lemma insertAll_lookup news s :
  NoDup (el_id <$> news) ->
  (forall el, el ∈ news -> elements (insertAll news s) !! el_id el = Some el)
  /\ (forall j, j ∉ el_id <$> news ->
        elements (insertAll news s) !! j = elements s !! j).
Proof.
  revert s. induction news as [|el news IH]; intros s Hnd.
  - split; [intros el H; by apply elem_of_nil in H | done].
  - cbn [fmap list_fmap] in Hnd. apply NoDup_cons in Hnd as [Hel Hnd].
    unfold insertAll in *. cbn [foldl].
    set (s1 := set_doc (<[el_id el:=el]> (elements s))
                       (elementOrder s ++ [el_id el]) s).
    destruct (IH s1 Hnd) as [IH1 IH2]. split.
    + intros el' Hin. apply elem_of_cons in Hin as [->|Hin].
      * rewrite IH2 by done. simpl. apply lookup_insert_eq.
      * by apply IH1.
    + intros j Hj. cbn [fmap list_fmap] in Hj.
      apply not_elem_of_cons in Hj as [Hne Hj].
      rewrite IH2 by done. simpl. by apply lookup_insert_ne.
Qed.

Lemma clones_lookup src dx dy fresh clock k el :
  src !! k = Some el ->
  clones src dx dy fresh clock !! k
  = Some (cloneAt el (fresh k) dx dy (clock (2 * k)%nat)
                  (clock (2 * k + 1)%nat)).
Proof. intros H. unfold clones. rewrite list_lookup_imap, H. done. Qed.

(** What [duplicateElements] and [paste] do with the copies of [src]. *)
Lemma copies_placed src dx dy fresh clock s :
  let news := clones src dx dy fresh clock in
  let s' := set_selectedIds (el_id <$> news) (insertAll news s) in
  selectedIds s' = fresh <$> seq 0 (length src)
  /\ elementOrder s' = elementOrder s ++ (fresh <$> seq 0 (length src))
  /\ history s' = history s /\ historyIndex s' = historyIndex s
  /\ clipboard s' = clipboard s
  /\ (freshIds s fresh (length src) ->
      (forall k el, src !! k = Some el ->
         elements s' !! fresh k
         = Some (cloneAt el (fresh k) dx dy (clock (2 * k)%nat)
                         (clock (2 * k + 1)%nat)))
      /\ (forall j el, elements s !! j = Some el ->
            elements s' !! j = Some el)).
Proof.
  intros news s'.
  pose proof (clones_ids src dx dy fresh clock) as Hids. fold news in Hids.
  destruct (insertAll_history news s) as (Hh & Hi & _ & Hc).
  split; [exact Hids|]. split; [unfold s'; simpl; by rewrite insertAll_order, Hids|].
  split; [exact Hh|]. split; [exact Hi|]. split; [exact Hc|].
  intros Hf. apply freshIds_spec in Hf as [Hnd Hfresh].
  destruct (insertAll_lookup news s) as [H1 H2]; [by rewrite Hids|].
  split.
  - intros k el Hk.
    pose proof (clones_lookup src dx dy fresh clock k el Hk) as Hn.
    fold news in Hn. apply list_elem_of_lookup_2 in Hn.
    apply H1 in Hn. exact Hn.
  - intros j el Hj. unfold s'. simpl. rewrite H2; [done|].
    rewrite Hids. intros Hin. apply Hfresh in Hin. congruence.
Qed.

(** X10.  [duplicateElements] makes one copy of each listed element that
    exists, skipping the others: the [k]-th copy is the [k]-th found element
    moved by (20, 20) under the [k]-th new identifier.  The copies are
    appended to the order and become the selection, the history is not
    touched, and with new identifiers every element of the document is
    still there unchanged.  With no element found the selection is
    emptied and the document stays as it is. *)
Theorem duplicateElements_copies (ids : list string) (fresh : nat -> string)
    (clock : nat -> Z) (s : CanvasState) :
  let found := omap (fun i => elements s !! i) ids in
  let s' := (duplicateElements ids fresh clock s).1 in
  let news := (duplicateElements ids fresh clock s).2 in
  (forall k el, found !! k = Some el ->
     news !! k = Some (cloneAt el (fresh k) 20 20 (clock (2 * k)%nat)
                               (clock (2 * k + 1)%nat)))
  /\ length news = length found
  /\ selectedIds s' = fresh <$> seq 0 (length found)
  /\ elementOrder s' = elementOrder s ++ (fresh <$> seq 0 (length found))
  /\ history s' = history s /\ historyIndex s' = historyIndex s
  /\ (freshIds s fresh (length found) ->
      (forall k el, found !! k = Some el ->
         elements s' !! fresh k
         = Some (cloneAt el (fresh k) 20 20 (clock (2 * k)%nat)
                         (clock (2 * k + 1)%nat)))
      /\ (forall j el, elements s !! j = Some el ->
            elements s' !! j = Some el))
  /\ (found = [] ->
      selectedIds s' = [] /\ elements s' = elements s
      /\ elementOrder s' = elementOrder s).
Proof.
  intros found s' news.
  destruct (copies_placed found 20 20 fresh clock s)
    as (H1 & H2 & H3 & H4 & _ & H6).
  split; [intros k el Hk; by apply clones_lookup|].
  split; [apply clones_length|].
  split; [exact H1|]. split; [exact H2|]. split; [exact H3|].
  split; [exact H4|]. split; [exact H6|].
  intros Hnil. unfold s', duplicateElements. fold found. rewrite Hnil.
  simpl. done.
Qed.

Lemma duplicateElements_copies_witness :
  freshIds withA (fun k => String.append "n" (pretty k))
    (length (omap (fun i => elements withA !! i) ["a"; "zz"])) = true /\
  elements (duplicateElements ["a"; "zz"]
              (fun k => String.append "n" (pretty k)) (fun _ => 9) withA).1
    !! "a" = Some elemA.
Proof.
  assert (H : freshIds withA (fun k => String.append "n" (pretty k))
                (length (omap (fun i => elements withA !! i) ["a"; "zz"])))
    by (vm_compute; exact I).
  split; [vm_compute; reflexivity|].
  apply (proj2 (proj1 (proj2 (proj2 (proj2 (proj2 (proj2 (proj2
           (duplicateElements_copies ["a"; "zz"]
              (fun k => String.append "n" (pretty k)) (fun _ => 9)
              withA))))))) H)).
  reflexivity.
Defined.

(** X11.  Copy and paste: [copy] puts the selected elements that exist on
    the clipboard and changes nothing else; a [paste] after it, with new
    identifiers, adds for the [k]-th of them a copy moved by the offset
    under the [k]-th new identifier, selects the copies, keeps every
    element that was there, and leaves the clipboard for the next paste. *)
Theorem copy_then_paste (offset : Point) (fresh : nat -> string)
    (clock : nat -> Z) (s : CanvasState) :
  let s1 := copy s in
  let s2 := paste offset fresh clock s1 in
  clipboard s1 = selectSelectedElements s
  /\ set_clipboard (clipboard s) s1 = s
  /\ clipboard s2 = clipboard s1
  /\ (selectSelectedElements s <> [] ->
      selectedIds s2 = fresh <$> seq 0 (length (selectSelectedElements s)))
  /\ (freshIds s fresh (length (selectSelectedElements s)) ->
      (forall k el, selectSelectedElements s !! k = Some el ->
         elements s2 !! fresh k
         = Some (cloneAt el (fresh k) (p_x offset) (p_y offset)
                         (clock (2 * k)%nat) (clock (2 * k + 1)%nat)))
      /\ (forall j el, elements s !! j = Some el ->
            elements s2 !! j = Some el)).
Proof.
  intros s1 s2. split; [reflexivity|]. split; [by destruct s|].
  unfold s2, paste. change (clipboard s1) with (selectSelectedElements s).
  destruct (selectSelectedElements s) as [|c cs] eqn:Hsel.
  - split; [exact Hsel|]. split; [done|]. intros _. split.
    + intros k el Hk. by rewrite lookup_nil in Hk.
    + done.
  - destruct (copies_placed (c :: cs) (p_x offset) (p_y offset) fresh clock s1)
      as (H1 & _ & _ & _ & H5 & H6).
    split; [rewrite H5; exact Hsel|]. split; [intros _; exact H1|].
    intros Hf. apply (H6 Hf).
Qed.

Lemma copy_then_paste_witness :
  freshIds selectedA (fun k => String.append "n" (pretty k))
    (length (selectSelectedElements selectedA)) = true /\
  elements (paste defaultPasteOffset (fun k => String.append "n" (pretty k))
              (fun _ => 9) (copy selectedA)) !! "n0"
  = Some (cloneAt elemA "n0" 20 20 9 9).
Proof.
  assert (H : freshIds selectedA (fun k => String.append "n" (pretty k))
                (length (selectSelectedElements selectedA)))
    by (vm_compute; exact I).
  split; [vm_compute; reflexivity|].
  apply (proj1 (proj2 (proj2 (proj2 (proj2
           (copy_then_paste defaultPasteOffset
              (fun k => String.append "n" (pretty k)) (fun _ => 9)
              selectedA)))) H) 0%nat elemA).
  reflexivity.
Defined.

Lemma deleteLoop_clipboard ids s :
  clipboard (deleteLoop ids s) = clipboard s.
Proof.
  revert s. induction ids as [|i ids IH]; intros s; [done|].
  unfold deleteLoop in *. cbn [foldl]. by rewrite IH.
Qed.

(** X12.  [cut] moves the selection to the clipboard: afterwards the
    clipboard holds the selected elements that existed, none of the
    selected identifiers is in the map, the selection is empty and the
    other elements are untouched; one [undo] brings the whole map back and
    leaves the clipboard as it is. *)
Theorem cut_moves_selection (hid : string) (ts : Z) (s : CanvasState) :
  let s1 := cut hid ts s in
  clipboard s1 = selectSelectedElements s
  /\ selectedIds s1 = []
  /\ (forall j, elements s1 !! j
        = if decide (j ∈ selectedIds s) then None else elements s !! j)
  /\ exists s2,
       undo s1 = Some s2 /\ elements s2 = elements s
       /\ clipboard s2 = selectSelectedElements s.
Proof.
  intros s1. unfold s1, cut.
  pose proof (deleteElements_elements (selectedIds s) hid ts (copy s)) as Hel.
  pose proof (deleteElements_selected (selectedIds s) hid ts (copy s)) as Hsel.
  assert (Hclip : clipboard (deleteElements (selectedIds s) hid ts (copy s))
                  = selectSelectedElements s).
  { unfold deleteElements.
    match goal with |- clipboard (pushHistory ?e _ _ ?s0) = _ =>
      destruct (pushHistory_frame e hid ts s0) as (_ & _ & _ & Hc & _) end.
    rewrite Hc. simpl. by rewrite deleteLoop_clipboard. }
  split; [exact Hclip|].
  split; [rewrite Hsel; apply filter_none; intros x Hx Hn; by apply Hn|].
  split; [exact Hel|].
  unfold deleteElements in *.
  set (e := mkInput hist_delete (selectedIds s) _ _) in *.
  set (s0 := set_selectedIds _ _) in *.
  destruct (undo_after_push e hid ts s0) as (s2 & Hu & Hh & Hi & Hel2).
  { intros j Hj. simpl. rewrite foldl_insert_lookup, decide_True by done.
    eauto. }
  exists s2. split; [exact Hu|]. split.
  - apply map_eq. intros j. rewrite Hel2. simpl. case_decide as Hin.
    + unfold snapAt. rewrite foldl_insert_lookup, decide_True by done. done.
    + unfold s0. simpl. rewrite deleteLoop_lookup, decide_False by done. done.
  - unfold undo in Hu.
    destruct (pushHistory_cursor e hid ts s0) as (H0 & _ & Hat).
    rewrite decide_False in Hu by lia. rewrite Hat in Hu. simpl in Hu.
    destruct (restoreAll _ _ _) as [d|] eqn:Hd; [|done].
    simpl in Hu. simplify_eq. simpl.
    destruct (restoreAll_frame _ _ _ _ Hd) as (_ & _ & _ & -> & _).
    exact Hclip.
Qed.

(** ** Z-order, again *)

Lemma set_elementOrder_twice o o' s :
  set_elementOrder o (set_elementOrder o' s) = set_elementOrder o s.
Proof. by destruct s. Qed.

Lemma set_elementOrder_same s : set_elementOrder (elementOrder s) s = s.
Proof. by destruct s. Qed.

Lemma remaining_twice (ids ord : list string) :
  let rest := filter (fun i => negb (includes ids i)) ord in
  filter (fun i => negb (includes ids i)) (rest ++ ids) = rest
  /\ filter (fun i => negb (includes ids i)) (ids ++ rest) = rest.
Proof.
  intros rest.
  assert (H1 : filter (fun i => negb (includes ids i)) rest = rest).
  { apply filter_all. intros x Hx. apply list_elem_of_filter in Hx. tauto. }
  assert (H2 : filter (fun i => negb (includes ids i)) ids = []).
  { apply filter_none. intros x Hx Hn. apply not_includes in Hn. done. }
  rewrite !filter_app, H1, H2, app_nil_r. done.
Qed.

(** X13.  [bringToFront] and [sendToBack] change nothing but the order,
    so neither can be undone, and doing one of them again with the same
    identifiers changes nothing more; of two of them in a row only the
    second counts. *)
Theorem front_back_idempotent (ids : list string) (s : CanvasState) :
  (elements (bringToFront ids s) = elements s
   /\ selectedIds (bringToFront ids s) = selectedIds s
   /\ history (bringToFront ids s) = history s
   /\ historyIndex (bringToFront ids s) = historyIndex s
   /\ set_elementOrder (elementOrder s) (sendToBack ids s) = s)
  /\ bringToFront ids (bringToFront ids s) = bringToFront ids s
  /\ sendToBack ids (sendToBack ids s) = sendToBack ids s
  /\ sendToBack ids (bringToFront ids s) = sendToBack ids s
  /\ bringToFront ids (sendToBack ids s) = bringToFront ids s.
Proof.
  destruct (remaining_twice ids (elementOrder s)) as [H1 H2].
  split.
  { repeat (split; [reflexivity|]). unfold sendToBack.
    by rewrite set_elementOrder_twice, set_elementOrder_same. }
  unfold bringToFront, sendToBack.
  rewrite !set_elementOrder_twice. cbn [elementOrder set_elementOrder].
  assert (E : forall o, elementOrder (set_elementOrder o s) = o)
    by (intros; by destruct s).
  rewrite !E, H1, H2. done.
Qed.

(** X14.  In an order without duplicates, moving an element one step
    forward and then one step backward, or the other way round, gives the
    state back. *)
Theorem forward_backward_round_trip (i j : string) (l1 l2 : list string)
    (s : CanvasState) :
  NoDup (elementOrder s) ->
  (elementOrder s = l1 ++ i :: j :: l2 ->
   sendBackward [i] <$> bringForward [i] s = Some s)
  /\ (elementOrder s = l1 ++ j :: i :: l2 ->
      bringForward [i] (sendBackward [i] s) = Some s).
Proof.
  intros Hnd. split; intros Ho; rewrite Ho in Hnd.
  - apply NoDup_app in Hnd as (_ & Hl1 & Hr).
    apply NoDup_cons in Hr as [Hij _].
    assert (Hi : i ∉ l1) by (intros Hin; apply (Hl1 i Hin); left).
    assert (Hne : i <> j) by (intros ->; apply Hij; left).
    unfold bringForward. cbn [foldl mbind option_bind].
    rewrite Ho, forwardStep_inner by done. cbn [mbind option_bind fmap option_fmap option_map].
    f_equal. unfold sendBackward. rewrite set_elementOrder_twice.
    cbn [foldl]. replace (elementOrder (set_elementOrder _ s))
      with (l1 ++ j :: i :: l2) by (by destruct s).
    rewrite backwardStep_inner by done. rewrite <- Ho.
    apply set_elementOrder_same.
  - apply NoDup_app in Hnd as (_ & Hl1 & Hr).
    apply NoDup_cons in Hr as [Hji _].
    assert (Hi : i ∉ l1) by (intros Hin; apply (Hl1 i Hin); right; left).
    assert (Hne : i <> j) by (intros ->; apply Hji; left).
    unfold sendBackward, bringForward. cbn [foldl mbind option_bind].
    replace (elementOrder (set_elementOrder _ s))
      with (backwardStep (elementOrder s) i) by (by destruct s).
    rewrite Ho, backwardStep_inner, forwardStep_inner by done.
    cbn [mbind option_bind]. f_equal.
    rewrite set_elementOrder_twice, <- Ho. apply set_elementOrder_same.
Qed.

Lemma forward_backward_round_trip_witness :
  NoDup (elementOrder abc) /\
  sendBackward ["a"] <$> bringForward ["a"] abc = Some abc.
Proof.
  assert (H : NoDup (elementOrder abc))
    by (apply (bool_decide_unpack _); vm_compute; exact I).
  split; [exact H|].
  apply (proj1 (forward_backward_round_trip "a" "b" [] ["c"] abc H)).
  reflexivity.
Defined.

(** ** Groups, again *)

Lemma foldl_alter_lookup {A} (f : A -> A) (ids : list string)
    (m : gmap string A) (j : string) :
  (forall x, f (f x) = f x) ->
  foldl (fun m i => alter f i m) m ids !! j
  = if decide (j ∈ ids) then f <$> m !! j else m !! j.
Proof.
  intros Hf. revert m. induction ids as [|i ids IH]; intros m; [done|].
  cbn [foldl]. rewrite IH.
  destruct (decide (j = i)) as [->|Hne].
  - rewrite lookup_alter_eq. rewrite (decide_True (P := i ∈ i :: ids)) by left.
    case_decide; [|done]. destruct (m !! i); simpl; [by rewrite Hf | done].
  - rewrite lookup_alter_ne by done.
    case_decide as Hin.
    + rewrite decide_True by (by right). done.
    + rewrite decide_False; [done|]. rewrite elem_of_cons. tauto.
Qed.

(** X15.  [group] writes the group identifier into the listed elements
    that exist and into nothing else.  When no element carried that
    identifier before, [ungroup] afterwards clears the group of exactly the
    listed elements, so a listed element that belonged to another group has
    lost it; when the listed elements were in no group the state is the
    one before.  [ungroup] of an identifier that no element carries
    changes nothing. *)
Theorem group_then_ungroup (ids : list string) (g : string) (s : CanvasState) :
  (forall j el, elements s !! j = Some el -> el_groupId el <> Some g) ->
  let s1 := (group ids g s).1 in
  (forall j, elements s1 !! j
     = if decide (j ∈ ids) then with_groupId (Some g) <$> elements s !! j
       else elements s !! j)
  /\ (forall j, elements (ungroup g s1) !! j
        = if decide (j ∈ ids) then with_groupId None <$> elements s !! j
          else elements s !! j)
  /\ ((forall j el, j ∈ ids -> elements s !! j = Some el ->
         el_groupId el = None) ->
      ungroup g s1 = s)
  /\ ungroup g s = s.
Proof.
  intros Hfresh s1.
  assert (H1 : forall j, elements s1 !! j
     = if decide (j ∈ ids) then with_groupId (Some g) <$> elements s !! j
       else elements s !! j).
  { intros j. unfold s1, group. cbn [fst]. 
    replace (elements (set_elements _ s))
      with (foldl (fun m i => alter (with_groupId (Some g)) i m)
                  (elements s) ids) by (by destruct s).
    by apply foldl_alter_lookup. }
  assert (H2 : forall j, elements (ungroup g s1) !! j
        = if decide (j ∈ ids) then with_groupId None <$> elements s !! j
          else elements s !! j).
  { intros j. unfold ungroup.
    replace (elements (set_elements _ s1))
      with ((fun el => if decide (el_groupId el = Some g)
                       then with_groupId None el else el) <$> elements s1)
      by (by destruct s1).
    rewrite lookup_fmap, H1. case_decide.
    - destruct (elements s !! j) as [el|]; [|done]. simpl.
      by rewrite decide_True.
    - destruct (elements s !! j) as [el|] eqn:E; [|done]. simpl.
      rewrite decide_False; [done|]. by apply (Hfresh j). }
  assert (Hsame : forall (m : gmap string Element) (t : CanvasState),
            m = elements t -> set_elements m t = t)
    by (intros m t ->; by destruct t).
  split; [exact H1|]. split; [exact H2|]. split.
  - intros Hfree.
    assert (E : elements (ungroup g s1) = elements s).
    { apply map_eq. intros j. rewrite H2. case_decide as Hin; [|done].
      destruct (elements s !! j) as [el|] eqn:E; [|done]. simpl. f_equal.
      pose proof (Hfree j el Hin E) as Hg. destruct el. simpl in *.
      by subst. }
    unfold ungroup in *. unfold s1, group in *. cbn [fst] in *.
    destruct s. simpl in *. by rewrite E.
  - unfold ungroup. apply Hsame. apply map_eq. intros j.
    rewrite lookup_fmap. destruct (elements s !! j) as [el|] eqn:E; [|done].
    simpl. rewrite decide_False; [done|]. by apply (Hfresh j).
Qed.

Lemma group_then_ungroup_witness :
  ungroup "g" (group ["a"] "g" withA).1 = withA.
Proof.
  assert (H : forall j el, elements withA !! j = Some el ->
                el_groupId el <> Some "g").
  { intros j el E. destruct (decide (j = "a")) as [->|Hne].
    - vm_compute in E. by simplify_eq.
    - change (({[ "a" := elemA ]} : gmap string Element) !! j = Some el) in E.
      by rewrite lookup_singleton_ne in E. }
  apply (proj1 (proj2 (proj2 (group_then_ungroup ["a"] "g" withA H)))).
  intros j el Hin E. apply list_elem_of_singleton in Hin as ->.
  vm_compute in E. by simplify_eq.
Defined.

(** ** Hit testing and boxes *)

Lemma hits_spec p el :
  hits p el = true
  <-> (el_x el <= p_x p /\ p_x p <= el_x el + el_width el
       /\ el_y el <= p_y p /\ p_y p <= el_y el + el_height el)%Q.
Proof.
  unfold hits. rewrite !andb_true_iff, !Qle_bool_iff. tauto.
Qed.

(** X16.  [findElementAtPoint] returns the last element of the list whose
    box, edges included, holds the point: every element after it misses
    the point.  It returns nothing exactly when no element holds the
    point. *)
Theorem findElementAtPoint_topmost (els : list Element) (p : Point) :
  (forall el,
     findElementAtPoint els p = Some el
     <-> exists l1 l2,
           els = l1 ++ el :: l2 /\ hits p el = true
           /\ Forall (fun e => hits p e = false) l2)
  /\ (findElementAtPoint els p = None
      <-> Forall (fun e => hits p e = false) els)
  /\ (forall el,
        hits p el = true
        <-> (el_x el <= p_x p /\ p_x p <= el_x el + el_width el
             /\ el_y el <= p_y p /\ p_y p <= el_y el + el_height el)%Q).
Proof.
  unfold findElementAtPoint. split; [|split; [|intros el; apply hits_spec]].
  - intros el. split.
    + induction els as [|x l IH] using rev_ind; [done|].
      rewrite reverse_snoc. destruct (hits p x) eqn:Hx.
      * rewrite filter_cons_True by (by rewrite Hx). simpl. intros [= ->].
        exists l, []. done.
      * rewrite filter_cons_False by (rewrite Hx; intros []). intros H.
        destruct (IH H) as (l1 & l2 & -> & Hel & Hl2).
        exists l1, (l2 ++ [x]). rewrite <- app_assoc. split; [done|].
        split; [done|]. apply Forall_app. split; [done|].
        by apply Forall_singleton.
    + intros (l1 & l2 & -> & Hel & Hl2).
      rewrite reverse_app, reverse_cons, <- app_assoc, filter_app.
      rewrite (filter_none _ (reverse l2)).
      * simpl. rewrite filter_cons_True by (by rewrite Hel). done.
      * intros x Hx. rewrite elem_of_reverse in Hx.
        rewrite Forall_forall in Hl2. rewrite (Hl2 x Hx). simpl. tauto.
  - rewrite head_None. split.
    + intros H. apply Forall_forall. intros x Hx.
      destruct (hits p x) eqn:E; [|done].
      assert (Hin : x ∈ filter (fun el => hits p el) (reverse els)).
      { apply list_elem_of_filter. rewrite E, elem_of_reverse. done. }
      rewrite H in Hin. by apply elem_of_nil in Hin.
    + intros H. apply filter_none. intros x Hx. rewrite elem_of_reverse in Hx.
      rewrite Forall_forall in H. rewrite (H x Hx). simpl. tauto.
Qed.

Lemma inBox_spec minX maxX minY maxY el :
  inBox minX maxX minY maxY el = true
  <-> (minX <= el_x el /\ el_x el + el_width el <= maxX
       /\ minY <= el_y el /\ el_y el + el_height el <= maxY)%Q.
Proof.
  unfold inBox. rewrite !andb_true_iff, !Qle_bool_iff. tauto.
Qed.

Lemma selectOrderedElements_live s el :
  idsMatch s -> el ∈ selectOrderedElements s ->
  el_id el ∈ elementOrder s /\ elements s !! el_id el = Some el.
Proof.
  intros Hm Hin. unfold selectOrderedElements in Hin.
  apply list_elem_of_omap in Hin as (k & Hk & Hel).
  rewrite (Hm k el Hel). done.
Qed.

(** X17.  The selection box: [findElementsInBox] keeps, in their order,
    exactly the elements that lie wholly between the two corners, edges
    included, whichever corner comes first.  When the box is released the
    selection becomes the identifiers of these elements and nothing else
    changes; with every element stored under its own identifier they are
    all elements of the document. *)
Theorem selection_box_selects_inside (start finish : Point) (s : CanvasState) :
  let els := selectOrderedElements s in
  let found := findElementsInBox els start finish in
  (forall el, el ∈ found <->
     el ∈ els
     /\ (Qmin (p_x start) (p_x finish) <= el_x el
         /\ el_x el + el_width el <= Qmax (p_x start) (p_x finish)
         /\ Qmin (p_y start) (p_y finish) <= el_y el
         /\ el_y el + el_height el <= Qmax (p_y start) (p_y finish))%Q)
  /\ found `sublist_of` els
  /\ findElementsInBox els finish start = found
  /\ selectedIds (marqueeEnd start finish s) = el_id <$> found
  /\ set_selectedIds (selectedIds s) (marqueeEnd start finish s) = s
  /\ (idsMatch s -> selectionInv (marqueeEnd start finish s)).
Proof.
  intros els found.
  assert (Hspec : forall a b el, el ∈ findElementsInBox els a b <->
     el ∈ els
     /\ (Qmin (p_x a) (p_x b) <= el_x el
         /\ el_x el + el_width el <= Qmax (p_x a) (p_x b)
         /\ Qmin (p_y a) (p_y b) <= el_y el
         /\ el_y el + el_height el <= Qmax (p_y a) (p_y b))%Q).
  { intros a b el. unfold findElementsInBox. rewrite list_elem_of_filter.
    rewrite Is_true_true, inBox_spec. tauto. }
  split; [apply Hspec|]. split; [apply sublist_filter|].
  split.
  { unfold found, findElementsInBox. apply list_filter_iff. intros el.
    rewrite !Is_true_true, !inBox_spec.
    rewrite (Q.min_comm (p_x finish)), (Q.max_comm (p_x finish)),
      (Q.min_comm (p_y finish)), (Q.max_comm (p_y finish)). tauto. }
  split; [reflexivity|]. split; [by destruct s|].
  intros Hm i Hi. unfold marqueeEnd, setSelection in *.
  replace (selectedIds (set_selectedIds _ s)) with (el_id <$> found) in Hi
    by (by destruct s).
  replace (elements (set_selectedIds _ s)) with (elements s) by (by destruct s).
  apply list_elem_of_fmap in Hi as (el & -> & Hel).
  apply Hspec in Hel as [Hel _].
  destruct (selectOrderedElements_live s el Hm Hel) as [_ ->]. eauto.
Qed.

Lemma selection_box_selects_inside_witness :
  selectionInv (marqueeEnd (mkPoint 60 60) (mkPoint (-1) (-1)) withA).
Proof.
  assert (H : idsMatch withA).
  { intros k el E. destruct (decide (k = "a")) as [->|Hne].
    - vm_compute in E. by simplify_eq.
    - change (({[ "a" := elemA ]} : gmap string Element) !! k = Some el) in E.
      by rewrite lookup_singleton_ne in E. }
  exact (proj2 (proj2 (proj2 (proj2 (proj2
           (selection_box_selects_inside (mkPoint 60 60) (mkPoint (-1) (-1))
              withA))))) H).
Defined.

Lemma foldl_Qmin_spec {A} (f : A -> Q) (a : Q) (l : list A) :
  (foldl (fun m x => Qmin m (f x)) a l <= a)%Q
  /\ (forall x, x ∈ l -> (foldl (fun m x => Qmin m (f x)) a l <= f x)%Q)
  /\ (forall c, (c <= a)%Q -> (forall x, x ∈ l -> (c <= f x)%Q) ->
        (c <= foldl (fun m x => Qmin m (f x)) a l)%Q).
Proof.
  revert a. induction l as [|y l IH]; intros a; cbn [foldl].
  - split; [apply Qle_refl|]. split; [intros x Hx; by apply elem_of_nil in Hx|].
    intros c Hc _. exact Hc.
  - destruct (IH (Qmin a (f y))) as (H1 & H2 & H3). split; [|split].
    + eapply Qle_trans; [exact H1 | apply Q.le_min_l].
    + intros x Hx. apply elem_of_cons in Hx as [->|Hx]; [|by apply H2].
      eapply Qle_trans; [exact H1 | apply Q.le_min_r].
    + intros c Hc Hall. apply H3.
      * apply Q.min_glb; [done | apply Hall; left].
      * intros x Hx. apply Hall. by right.
Qed.

Lemma foldl_Qmax_spec {A} (f : A -> Q) (a : Q) (l : list A) :
  (a <= foldl (fun m x => Qmax m (f x)) a l)%Q
  /\ (forall x, x ∈ l -> (f x <= foldl (fun m x => Qmax m (f x)) a l)%Q)
  /\ (forall c, (a <= c)%Q -> (forall x, x ∈ l -> (f x <= c)%Q) ->
        (foldl (fun m x => Qmax m (f x)) a l <= c)%Q).
Proof.
  revert a. induction l as [|y l IH]; intros a; cbn [foldl].
  - split; [apply Qle_refl|]. split; [intros x Hx; by apply elem_of_nil in Hx|].
    intros c Hc _. exact Hc.
  - destruct (IH (Qmax a (f y))) as (H1 & H2 & H3). split; [|split].
    + eapply Qle_trans; [apply Q.le_max_l | exact H1].
    + intros x Hx. apply elem_of_cons in Hx as [->|Hx]; [|by apply H2].
      eapply Qle_trans; [apply Q.le_max_r | exact H1].
    + intros c Hc Hall. apply H3.
      * apply Q.max_lub; [done | apply Hall; left].
      * intros x Hx. apply Hall. by right.
Qed.

Lemma getElementsBounds_None_nil els :
  getElementsBounds els = None -> els = [].
Proof. by destruct els. Qed.

Lemma getElementsBounds_within els b :
  getElementsBounds els = Some b -> forall el, el ∈ els -> within b el.
Proof.
  intros Hb. destruct els as [|e rest]; [done|]. simpl in Hb.
  injection Hb as <-.
  destruct (foldl_Qmin_spec el_x (el_x e) rest) as (X1 & X2 & X3).
  destruct (foldl_Qmin_spec el_y (el_y e) rest) as (Y1 & Y2 & Y3).
  destruct (foldl_Qmax_spec (fun el => el_x el + el_width el)%Q
              (el_x e + el_width e)%Q rest) as (R1 & R2 & R3).
  destruct (foldl_Qmax_spec (fun el => el_y el + el_height el)%Q
              (el_y e + el_height e)%Q rest) as (B1 & B2 & B3).
  intros el Hel. unfold within. cbn [b_x b_y b_width b_height].
  apply elem_of_cons in Hel as [->|Hel].
  - repeat split; lra.
  - specialize (X2 el Hel). specialize (Y2 el Hel).
    specialize (R2 el Hel). specialize (B2 el Hel). simpl in R2, B2.
    repeat split; lra.
Qed.

(** X18.  [getElementsBounds] has no box for an empty list only.  The box
    of a non-empty list holds every element of the list, and it is the
    smallest such box: any box that holds them all holds it. *)
Theorem getElementsBounds_smallest_box (els : list Element) :
  (getElementsBounds els = None <-> els = [])
  /\ forall b, getElementsBounds els = Some b ->
       (forall el, el ∈ els -> within b el)
       /\ (forall b', (forall el, el ∈ els -> within b' el) ->
             (b_x b' <= b_x b /\ b_x b + b_width b <= b_x b' + b_width b'
              /\ b_y b' <= b_y b
              /\ b_y b + b_height b <= b_y b' + b_height b')%Q).
Proof.
  split; [destruct els; simpl; split; done|].
  intros b Hb. destruct els as [|e rest]; [done|]. simpl in Hb.
  injection Hb as <-.
  destruct (foldl_Qmin_spec el_x (el_x e) rest) as (X1 & X2 & X3).
  destruct (foldl_Qmin_spec el_y (el_y e) rest) as (Y1 & Y2 & Y3).
  destruct (foldl_Qmax_spec (fun el => el_x el + el_width el)%Q
              (el_x e + el_width e)%Q rest) as (R1 & R2 & R3).
  destruct (foldl_Qmax_spec (fun el => el_y el + el_height el)%Q
              (el_y e + el_height e)%Q rest) as (B1 & B2 & B3).
  split.
  - intros el Hel. unfold within. cbn [b_x b_y b_width b_height].
    apply elem_of_cons in Hel as [->|Hel].
    + repeat split; lra.
    + specialize (X2 el Hel). specialize (Y2 el Hel).
      specialize (R2 el Hel). specialize (B2 el Hel). simpl in R2, B2.
      repeat split; lra.
  - intros b' Hall. cbn [b_x b_y b_width b_height].
    assert (He : within b' e) by (apply Hall; left).
    assert (Hr : forall el, el ∈ rest -> within b' el)
      by (intros el Hel; apply Hall; by right).
    unfold within in He, Hr.
    specialize (X3 (b_x b') ltac:(tauto) (fun el Hel => proj1 (Hr el Hel))).
    specialize (Y3 (b_y b') ltac:(tauto)
                  (fun el Hel => proj1 (proj2 (proj2 (Hr el Hel))))).
    specialize (R3 (b_x b' + b_width b')%Q ltac:(tauto)
                  (fun el Hel => proj1 (proj2 (Hr el Hel)))).
    specialize (B3 (b_y b' + b_height b')%Q ltac:(tauto)
                  (fun el Hel => proj2 (proj2 (proj2 (Hr el Hel))))).
    repeat split; lra.
Qed.

Lemma getElementsBounds_smallest_box_witness :
  exists b, getElementsBounds [elemA; box100] = Some b /\ within b box100.
Proof.
  eexists. split; [reflexivity|].
  apply (proj1 (proj2 (getElementsBounds_smallest_box [elemA; box100]) _
                  eq_refl)).
  apply elem_of_cons. right. apply elem_of_cons. by left.
Defined.

(** X19.  The selection border is where the hit test looks: with a
    positive scale, a screen point lies in [screenBounds] of a box
    exactly when [screenToCanvas] takes it to a point of the box; so a
    click inside the border drawn for an element hits that element. *)
Theorem overlay_matches_hit_test (t : Transform) (b : Bounds) (sx sy : Q) :
  (0 < t_scale t)%Q ->
  let sb := screenBounds t b in
  let p := screenToCanvas t sx sy in
  ((b_x sb <= sx /\ sx <= b_x sb + b_width sb
    /\ b_y sb <= sy /\ sy <= b_y sb + b_height sb)%Q
   <-> (b_x b <= p_x p /\ p_x p <= b_x b + b_width b
        /\ b_y b <= p_y p /\ p_y p <= b_y b + b_height b)%Q)
  /\ forall el,
       b = mkBounds (el_x el) (el_y el) (el_width el) (el_height el) ->
       (hits p el = true
        <-> (b_x sb <= sx /\ sx <= b_x sb + b_width sb
             /\ b_y sb <= sy /\ sy <= b_y sb + b_height sb)%Q).
Proof.
  intros Hs sb p.
  assert (Hx : (sx == p_x p * t_scale t + t_x t)%Q).
  { unfold p, screenToCanvas. simpl. field. lra. }
  assert (Hy : (sy == p_y p * t_scale t + t_y t)%Q).
  { unfold p, screenToCanvas. simpl. field. lra. }
  assert (Hmono : forall u v : Q,
            (u * t_scale t + t_x t <= v * t_scale t + t_x t <-> u <= v)%Q).
  { intros u v. split; intros H.
    - apply (Qmult_le_r _ _ (t_scale t)); [done | lra].
    - apply (Qmult_le_r _ _ (t_scale t)) in H; [lra | done]. }
  assert (Hmonoy : forall u v : Q,
            (u * t_scale t + t_y t <= v * t_scale t + t_y t <-> u <= v)%Q).
  { intros u v. split; intros H.
    - apply (Qmult_le_r _ _ (t_scale t)); [done | lra].
    - apply (Qmult_le_r _ _ (t_scale t)) in H; [lra | done]. }
  assert (Main :
    (b_x sb <= sx /\ sx <= b_x sb + b_width sb
     /\ b_y sb <= sy /\ sy <= b_y sb + b_height sb)%Q
    <-> (b_x b <= p_x p /\ p_x p <= b_x b + b_width b
         /\ b_y b <= p_y p /\ p_y p <= b_y b + b_height b)%Q).
  { unfold sb, screenBounds. cbn [b_x b_y b_width b_height].
    rewrite Hx, Hy.
    rewrite (Hmono (b_x b) (p_x p)), (Hmonoy (b_y b) (p_y p)).
    rewrite <- (Hmono (p_x p) (b_x b + b_width b)%Q).
    rewrite <- (Hmonoy (p_y p) (b_y b + b_height b)%Q).
    split; intros (?&?&?&?); repeat split; lra. }
  split; [exact Main|].
  intros el ->. rewrite hits_spec. rewrite Main. simpl. tauto.
Qed.

Lemma overlay_matches_hit_test_witness :
  hits (screenToCanvas (mkTransform 10 10 2) 30 30) elemA = true.
Proof.
  assert (H : (0 < t_scale (mkTransform 10 10 2))%Q) by reflexivity.
  apply (proj2 (overlay_matches_hit_test (mkTransform 10 10 2)
                  (mkBounds 0 0 50 50) 30 30 H) elemA eq_refl).
  vm_compute. intuition discriminate.
Defined.

(** ** The grid *)

Lemma Qfloor_unique (x : Q) (k : Z) :
  (inject_Z k <= x)%Q -> (x < inject_Z (k + 1))%Q -> Qfloor x = k.
Proof.
  intros H1 H2.
  pose proof (Qfloor_le x) as F1. pose proof (Qlt_floor x) as F2.
  assert (A : (Qfloor x < k + 1)%Z).
  { rewrite Zlt_Qlt. eapply Qle_lt_trans; [exact F1 | exact H2]. }
  assert (B : (k < Qfloor x + 1)%Z).
  { rewrite Zlt_Qlt. eapply Qle_lt_trans; [exact H1 | exact F2]. }
  lia.
Qed.

Lemma jsRound_grid (g : Q) (k : Z) :
  ~ (g == 0)%Q -> jsRound (inject_Z k * g / g) = k.
Proof.
  intros Hg. unfold jsRound. apply Qfloor_unique.
  - assert (E : (inject_Z k * g / g == inject_Z k)%Q) by (field; exact Hg).
    rewrite E. lra.
  - assert (E : (inject_Z k * g / g == inject_Z k)%Q) by (field; exact Hg).
    rewrite E. rewrite inject_Z_plus. change (inject_Z 1) with (1 # 1). lra.
Qed.

(** X20.  Snapping to a grid of positive size moves a coordinate by at
    most half a cell, to a multiple of the cell size; a multiple of the
    cell size is not moved, so snapping twice is snapping once, for a
    coordinate and for a point.  With snapping switched off a point is
    left as it is. *)
Theorem snap_to_grid_nearest (g v : Q) (s : CanvasState) (p : Point) :
  (0 < g)%Q ->
  (v - g / 2 < snapCoord true g v /\ snapCoord true g v <= v + g / 2)%Q
  /\ (forall k : Z, snapCoord true g (inject_Z k * g) = (inject_Z k * g)%Q)
  /\ snapCoord true g (snapCoord true g v) = snapCoord true g v
  /\ (gridSize s = g ->
      snapToGridPoint s (snapToGridPoint s p) = snapToGridPoint s p)
  /\ (snapToGrid s = false -> snapToGridPoint s p = p).
Proof.
  intros Hg.
  assert (Hne : ~ (g == 0)%Q) by lra.
  assert (Hfix : forall k : Z,
            snapCoord true g (inject_Z k * g) = (inject_Z k * g)%Q).
  { intros k. unfold snapCoord. by rewrite jsRound_grid. }
  split; [|split; [exact Hfix|split; [apply Hfix|split]]].
  - unfold snapCoord, jsRound.
    pose proof (Qfloor_le (v / g + (1 # 2))) as F1.
    pose proof (Qlt_floor (v / g + (1 # 2))) as F2.
    rewrite inject_Z_plus in F2. change (inject_Z 1) with (1 # 1) in F2.
    remember (inject_Z (Qfloor (v / g + (1 # 2)))) as k eqn:Hk. clear Hk.
    remember (v / g)%Q as q eqn:Hq.
    assert (E : (v == q * g)%Q) by (subst q; field; exact Hne).
    clear Hq. split.
    + assert (H : ((q - (1 # 2)) * g < k * g)%Q).
      { apply Qmult_lt_r; [exact Hg | lra]. }
      rewrite E.
      assert (R : ((q - (1 # 2)) * g == q * g - g / 2)%Q) by field.
      rewrite R in H. exact H.
    + assert (H : (k * g <= (q + (1 # 2)) * g)%Q).
      { apply Qmult_le_r; [exact Hg | lra]. }
      rewrite E.
      assert (R : ((q + (1 # 2)) * g == q * g + g / 2)%Q) by field.
      rewrite R in H. exact H.
  - intros <-. unfold snapToGridPoint. destruct (snapToGrid s); [|done].
    cbn [p_x p_y].
    assert (Hidem : forall x, snapCoord true (gridSize s)
                                (snapCoord true (gridSize s) x)
                              = snapCoord true (gridSize s) x)
      by (intros x; apply Hfix).
    by rewrite !Hidem.
  - intros Hoff. unfold snapToGridPoint. by rewrite Hoff.
Qed.

Lemma snap_to_grid_nearest_witness :
  snapCoord true 20 (snapCoord true 20 (37 # 1)) = snapCoord true 20 (37 # 1).
Proof.
  assert (H : (0 < 20)%Q) by reflexivity.
  exact (proj1 (proj2 (proj2
           (snap_to_grid_nearest 20 (37 # 1) initialState (mkPoint 0 0) H)))).
Defined.

(** ** Drawing *)

Lemma Qltb_max1 (a : Q) : Qltb 5 (Qmax a 1) = Qltb 5 a.
Proof.
  destruct (Qltb 5 a) eqn:E.
  - apply Qltb_lt in E. apply Qltb_lt.
    eapply Qlt_le_trans; [exact E | apply Q.le_max_l].
  - apply Qltb_ge in E. apply Qltb_ge. apply Q.max_lub; [exact E | discriminate].
Qed.

Lemma drawMove_shape dragStart canvasPoint current s :
  isDrawing s = true ->
  isShapeType (el_type current) = true
    \/ ((el_type current = line \/ el_type current = arrow)
        /\ isPath current = true) ->
  let sp := snapToGridPoint s canvasPoint in
  let st := snapToGridPoint s
              (screenToCanvas (transform s) (p_x dragStart) (p_y dragStart)) in
  let el := drawMove dragStart canvasPoint current s in
  el_id el = el_id current /\ el_type el = el_type current
  /\ (el_x el == Qmin (p_x st) (p_x sp))%Q
  /\ (el_y el == Qmin (p_y st) (p_y sp))%Q
  /\ Qltb 5 (el_width el) = Qltb 5 (Qabs (p_x sp - p_x st))
  /\ Qltb 5 (el_height el) = Qltb 5 (Qabs (p_y sp - p_y st)).
Proof.
  intros Hd Ht sp st el. unfold el, drawMove. rewrite Hd. fold sp st.
  destruct (isShapeType (el_type current)) eqn:Hs.
  - simpl. split; [done|]. split; [done|].
    split; [apply Q.min_comm|]. split; [apply Q.min_comm|]. done.
  - destruct Ht as [?|[[Ht|Ht] _]]; [done| |]; rewrite Ht; simpl;
      rewrite !Qltb_max1; (split; [done|]); (split; [by rewrite Ht|]);
      (split; [reflexivity|]); (split; [reflexivity|]); done.
Qed.

(** X21.  What becomes of a drawn shape, line or arrow when the button is
    released: the element sits at the corner nearest the origin of the
    snapped start and end points, and it is added, selected, with the
    select tool active and one step to undo, exactly when the pointer
    has moved by more than 5 on both axes.  Otherwise nothing is added, so
    a line or arrow drawn along an axis is always dropped, and so is the
    element of a press that is released before the pointer moves.  In
    both cases drawing is over. *)
Theorem drawn_element_kept_iff_moved (dragStart canvasPoint : Point)
    (current : Element) (hid : string) (ts : Z) (s : CanvasState) :
  isDrawing s = true ->
  isShapeType (el_type current) = true
    \/ ((el_type current = line \/ el_type current = arrow)
        /\ isPath current = true) ->
  let sp := snapToGridPoint s canvasPoint in
  let st := snapToGridPoint s
              (screenToCanvas (transform s) (p_x dragStart) (p_y dragStart)) in
  let el := drawMove dragStart canvasPoint current s in
  let s' := drawEnd el hid ts s in
  (el_id el = el_id current /\ el_type el = el_type current
   /\ (el_x el == Qmin (p_x st) (p_x sp))%Q
   /\ (el_y el == Qmin (p_y st) (p_y sp))%Q)
  /\ ((5 < Qabs (p_x sp - p_x st) /\ 5 < Qabs (p_y sp - p_y st))%Q ->
      elements s' !! el_id current = Some el
      /\ elementOrder s' = elementOrder s ++ [el_id current]
      /\ selectedIds s' = [el_id current]
      /\ activeTool s' = tool_select
      /\ selectCanUndo s' = true
      /\ isDrawing s' = false)
  /\ (~ (5 < Qabs (p_x sp - p_x st) /\ 5 < Qabs (p_y sp - p_y st))%Q ->
      s' = setDrawing false s)
  /\ (forall type x y newId now detail,
        drawEnd (createBaseElement type x y newId now detail) hid ts s
        = setDrawing false s).
Proof.
  intros Hd Ht sp st el s'.
  destruct (drawMove_shape dragStart canvasPoint current s Hd Ht)
    as (Hid & Hty & Hx & Hy & Hw & Hh).
  fold sp st el in Hid, Hty, Hx, Hy, Hw, Hh.
  split; [done|]. unfold s', drawEnd. rewrite Hd, Hw, Hh. split.
  - intros [H1 H2]. apply Qltb_lt in H1, H2. rewrite H1, H2. simpl.
    destruct (pushHistory_frame
                (mkInput hist_add [el_id el] {[el_id el := None]}
                         {[el_id el := Some el]}) hid ts
                (set_doc (<[el_id el:=el]> (elements s))
                         (elementOrder s ++ [el_id el]) s))
      as (He & Ho & _).
    destruct (pushHistory_cursor
                (mkInput hist_add [el_id el] {[el_id el := None]}
                         {[el_id el := Some el]}) hid ts
                (set_doc (<[el_id el:=el]> (elements s))
                         (elementOrder s ++ [el_id el]) s))
      as (Hc & _).
    unfold addElement. rewrite He, Ho. simpl. rewrite <- Hid.
    split; [apply lookup_insert_eq|]. split; [done|]. split; [done|].
    split; [done|]. split; [|done].
    unfold selectCanUndo. simpl. by apply bool_decide_eq_true.
  - split.
    + intros Hn.
      destruct (Qltb 5 (Qabs (p_x sp - p_x st))) eqn:E1;
        destruct (Qltb 5 (Qabs (p_y sp - p_y st))) eqn:E2; try done.
      exfalso. apply Hn. split; by apply Qltb_lt.
    + intros type x y newId now detail. reflexivity.
Qed.

Lemma drawn_element_kept_iff_moved_witness :
  drawEnd (drawMove (mkPoint 0 0) (mkPoint 300 0) lineDraft drawingState)
          "h" 1 drawingState
  = setDrawing false drawingState.
Proof.
  assert (H1 : isDrawing drawingState = true) by reflexivity.
  assert (H2 : isShapeType (el_type lineDraft) = true
               \/ ((el_type lineDraft = line \/ el_type lineDraft = arrow)
                   /\ isPath lineDraft = true))
    by (right; split; [left|]; reflexivity).
  apply (proj1 (proj2 (proj2 (drawn_element_kept_iff_moved (mkPoint 0 0)
           (mkPoint 300 0) lineDraft "h" 1 drawingState H1 H2)))).
  intros [_ H]. vm_compute in H. discriminate.
Defined.

(** ** Resizing, again *)

(** X22.  Before the grid is applied, a resize never moves the edge
    opposite to the handle, whatever the pointer does: with a handle whose
    name has a [w] the east edge of the new box is the east edge of the
    element, with any other handle the west edge is; likewise for [n] and
    the south and north edges. *)
Theorem resize_keeps_opposite_edge (el : Element) (h : ResizeHandle)
    (dx dy : Q) :
  let b := applyResize el h dx dy in
  (if hasWest h
   then (b_x b + b_width b == el_x el + el_width el)%Q
   else b_x b = el_x el)
  /\ (if hasNorth h
      then (b_y b + b_height b == el_y el + el_height el)%Q
      else b_y b = el_y el).
Proof.
  intros b. unfold b, applyResize, clampMin, hasWest, hasNorth.
  destruct h; cbn;
    repeat match goal with
           | |- context [Qltb ?a ?b] => destruct (Qltb a b)
           end; cbn; split; try reflexivity; unfold minSize; ring.
Qed.

(** ** Zoom to fit *)



(** ** The end of a drag *)

Lemma find_by_id s i el :
  idsMatch s -> i ∈ elementOrder s -> elements s !! i = Some el ->
  head (filter (fun e => bool_decide (el_id e = i)) (selectOrderedElements s))
  = Some el.
Proof.
  intros Hm Hi Hel.
  destruct (head (filter (fun e => bool_decide (el_id e = i))
                         (selectOrderedElements s))) as [x|] eqn:Hh.
  - apply head_Some_elem_of in Hh. apply list_elem_of_filter in Hh as [Hx Hin].
    apply bool_decide_unpack in Hx.
    destruct (selectOrderedElements_live s x Hm Hin) as [_ Hl].
    rewrite Hx in Hl. congruence.
  - apply head_None in Hh.
    assert (Hin : el ∈ filter (fun e => bool_decide (el_id e = i))
                          (selectOrderedElements s)).
    { apply list_elem_of_filter. split.
      - apply bool_decide_pack. by apply Hm.
      - unfold selectOrderedElements. apply list_elem_of_omap. eauto. }
    rewrite Hh in Hin. by apply elem_of_nil in Hin.
Qed.

Lemma find_by_id_inv s i x :
  idsMatch s ->
  head (filter (fun e => bool_decide (el_id e = i)) (selectOrderedElements s))
  = Some x ->
  elements s !! i = Some x.
Proof.
  intros Hm Hh.
  apply head_Some_elem_of in Hh. apply list_elem_of_filter in Hh as [Hx Hin].
  apply bool_decide_unpack in Hx.
  destruct (selectOrderedElements_live s x Hm Hin) as [_ Hl].
  by rewrite Hx in Hl.
Qed.

(** The elements of two states agree on everything but [updatedAt]. *)
Lemma sameButStamp_refl el : sameButStamp el el.
Proof. unfold sameButStamp. by destruct el. Qed.

Lemma assign_position cur el now :
  sameButStamp cur el ->
  sameButStamp (assign cur (positionPatch (el_x el) (el_y el)) now) el.
Proof.
  unfold sameButStamp. intros ->. unfold assign, positionPatch. simpl. done.
Qed.

Lemma dragEnd_fold (s : CanvasState) (now : nat -> Z) (hid : nat -> string)
    (ts : nat -> Z) (l : list (nat * (string * Point))) (acc : CanvasState) :
  idsMatch s ->
  (forall j, match elements acc !! j, elements s !! j with
             | Some a, Some b => sameButStamp a b
             | None, None => True
             | _, _ => False
             end) ->
  let acc' :=
    foldl (fun acc '(k, (i, startPos)) =>
             match head (filter (fun el => bool_decide (el_id el = i))
                                (selectOrderedElements s)) with
             | Some el =>
                 if negb (Qeq_bool (el_x el) (p_x startPos))
                    || negb (Qeq_bool (el_y el) (p_y startPos))
                 then updateElement i (positionPatch (el_x el) (el_y el))
                                    (now k) (hid k) (ts k) acc
                 else acc
             | None => acc
             end) acc l in
  (forall j, match elements acc' !! j, elements s !! j with
             | Some a, Some b => sameButStamp a b
             | None, None => True
             | _, _ => False
             end)
  /\ elementOrder acc' = elementOrder acc
  /\ selectedIds acc' = selectedIds acc.
Proof.
  intros Hm. revert acc. induction l as [|[k [i sp]] l IH]; intros acc Hacc.
  - done.
  - cbn [foldl].
    match goal with |- context [foldl ?f ?a l] => set (a1 := a) end.
    assert (H1 : (forall j, match elements a1 !! j, elements s !! j with
                            | Some a, Some b => sameButStamp a b
                            | None, None => True
                            | _, _ => False
                            end)
                 /\ elementOrder a1 = elementOrder acc
                 /\ selectedIds a1 = selectedIds acc).
    { unfold a1.
      destruct (head _) as [el|] eqn:Hh; [|done].
      destruct (negb _ || negb _); [|done].
      pose proof (find_by_id_inv s i el Hm Hh) as Hel.
      unfold updateElement.
      pose proof (Hacc i) as Hi. rewrite Hel in Hi.
      destruct (elements acc !! i) as [cur|] eqn:Hcur; [|done].
      match goal with |- context [pushHistory ?e ?h ?t ?s0] =>
        destruct (pushHistory_frame e h t s0) as (-> & -> & -> & _) end.
      simpl. split; [|done]. intros j.
      destruct (decide (j = i)) as [->|Hne].
      - rewrite lookup_insert_eq, Hel. by apply assign_position.
      - rewrite lookup_insert_ne by done. apply Hacc. }
    destruct H1 as (Ha & Ho & Hs).
    destruct (IH a1 Ha) as (I1 & I2 & I3).
    split; [exact I1|]. split; congruence.
Qed.

(** X24.  The end of a drag, with every element stored under its own
    identifier: the positions and all other fields but [updatedAt] stay as
    the drag left them, and the order and the selection are kept.  For a
    single dragged element that has moved, one entry is recorded whose
    two snapshots both hold the position where the element was dropped, so
    [undo] gives back the elements as they were at the drop and does not
    take the element to where the drag began.  For an element that has
    not moved nothing is recorded. *)
Theorem drag_end_records_drop (d : DragSession) (now : nat -> Z)
    (hid : nat -> string) (ts : nat -> Z) (s : CanvasState) :
  idsMatch s ->
  let s' := dragEnd d now hid ts s in
  (forall j, match elements s' !! j, elements s !! j with
             | Some a, Some b => sameButStamp a b
             | None, None => True
             | _, _ => False
             end)
  /\ elementOrder s' = elementOrder s
  /\ selectedIds s' = selectedIds s
  /\ (forall i start el,
        draggedElementStart d = [(i, start)] ->
        i ∈ elementOrder s -> elements s !! i = Some el ->
        (~ (el_x el == p_x start /\ el_y el == p_y start)%Q ->
         at_index (history s') (historyIndex s')
         = Some (mkEntry (hid 0%nat) (ts 0%nat) hist_update [i]
                   {[ i := Some el ]}
                   {[ i := Some (assign el (positionPatch (el_x el) (el_y el))
                                        (now 0%nat)) ]})
         /\ exists s'', undo s' = Some s'' /\ elements s'' = elements s)
        /\ ((el_x el == p_x start /\ el_y el == p_y start)%Q -> s' = s)).
Proof.
  intros Hm s'.
  assert (Hrefl : forall j, match elements s !! j, elements s !! j with
                            | Some a, Some b => sameButStamp a b
                            | None, None => True
                            | _, _ => False
                            end).
  { intros j. destruct (elements s !! j); [apply sameButStamp_refl | done]. }
  destruct (dragEnd_fold s now hid ts
              (imap (fun k x => (k, x)) (draggedElementStart d)) s Hm Hrefl)
    as (H1 & H2 & H3).
  split; [exact H1|]. split; [exact H2|]. split; [exact H3|].
  intros i start el Hd Hi Hel. unfold s', dragEnd. rewrite Hd.
  cbn [imap foldl]. rewrite (find_by_id s i el Hm Hi Hel). split.
  - intros Hmoved.
    assert (Hc : negb (Qeq_bool (el_x el) (p_x start))
                 || negb (Qeq_bool (el_y el) (p_y start)) = true).
    { destruct (Qeq_bool (el_x el) (p_x start)) eqn:E1;
        destruct (Qeq_bool (el_y el) (p_y start)) eqn:E2; try done.
      exfalso. apply Hmoved. split; by apply Qeq_bool_iff. }
    rewrite Hc. unfold updateElement. rewrite Hel.
    set (el' := assign el (positionPatch (el_x el) (el_y el)) (now 0%nat)).
    set (s1 := set_elements (<[i:=el']> (elements s)) s).
    assert (Haft : elements s1 !! i = Some el')
      by (unfold s1; simpl; apply lookup_insert_eq).
    rewrite Haft.
    set (e := mkInput hist_update [i] {[i := Some el]} {[i := Some el']}).
    destruct (pushHistory_cursor e (hid 0%nat) (ts 0%nat) s1) as (_ & _ & Hat).
    split; [exact Hat|].
    destruct (undo_after_push e (hid 0%nat) (ts 0%nat) s1)
      as (s2 & Hu & _ & _ & Hel2).
    { intros j Hj. apply list_elem_of_singleton in Hj as ->. simpl.
      rewrite lookup_singleton_eq. eauto. }
    exists s2. split; [exact Hu|]. apply map_eq. intros j. rewrite Hel2.
    simpl. case_decide as Hin.
    + apply list_elem_of_singleton in Hin as ->. unfold snapAt.
      rewrite lookup_singleton_eq. simpl. done.
    + rewrite lookup_insert_ne; [done|].
      intros <-. apply Hin. by apply list_elem_of_singleton.
  - intros [Ex Ey]. apply Qeq_bool_iff in Ex, Ey. rewrite Ex, Ey. done.
Qed.

Lemma withA_idsMatch : idsMatch withA.
Proof.
  intros k el E. destruct (decide (k = "a")) as [->|Hne].
  - vm_compute in E. by simplify_eq.
  - change (({[ "a" := elemA ]} : gmap string Element) !! k = Some el) in E.
    by rewrite lookup_singleton_ne in E.
Qed.

Lemma drag_end_records_drop_witness :
  exists s'',
    undo (dragEnd (mkDrag (mkPoint 0 0) [("a", mkPoint (-40) 0)])
                  (fun _ => 7) (fun _ => "h") (fun _ => 7) withA) = Some s''
    /\ elements s'' = elements withA.
Proof.
  pose proof (proj1 (proj2 (proj2 (proj2
    (drag_end_records_drop (mkDrag (mkPoint 0 0) [("a", mkPoint (-40) 0)])
       (fun _ => 7) (fun _ => "h") (fun _ => 7) withA withA_idsMatch)))
    "a" (mkPoint (-40) 0) elemA eq_refl
    ltac:(apply list_elem_of_singleton; reflexivity) eq_refl)) as H.
  apply H. intros [E _]. vm_compute in E. discriminate.
Defined.

(** ** Alignment *)

Lemma set_elements_same s : set_elements (elements s) s = s.
Proof. by destruct s. Qed.

Lemma set_elements_twice m m' s :
  set_elements m (set_elements m' s) = set_elements m s.
Proof. by destruct s. Qed.

(** The loop of [alignElements] and of similar writes: each element of
    the list is written through its identifier with a value computed from
    the element as it was before the loop. *)
Lemma writeAll_spec (F : Element -> Element -> Element) (els : list Element)
    (s : CanvasState) :
  (forall el, el ∈ els -> elements s !! el_id el = Some el) ->
  (forall el, F el (F el el) = F el el) ->
  exists s',
    foldl (fun acc el => acc ≫= writeAt (el_id el) (F el)) (Some s) els
    = Some s'
    /\ set_elements (elements s) s' = s
    /\ forall j, elements s' !! j
         = if decide (j ∈ el_id <$> els)
           then (fun el => F el el) <$> elements s !! j
           else elements s !! j.
Proof.
  intros Hl HF. induction els as [|x l IH] using rev_ind.
  - exists s. split; [done|]. split; [apply set_elements_same|]. done.
  - destruct IH as (s1 & Hf & Hfr & Hlk).
    { intros el Hel. apply Hl. apply elem_of_app. by left. }
    assert (Hx : elements s !! el_id x = Some x).
    { apply Hl. apply elem_of_app. right. by apply list_elem_of_singleton. }
    rewrite foldl_app. cbn [foldl]. rewrite Hf. cbn [mbind option_bind].
    unfold writeAt.
    assert (Hcur : exists cur, elements s1 !! el_id x = Some cur
                               /\ F x cur = F x x).
    { rewrite Hlk, Hx. case_decide; simpl; eauto. }
    destruct Hcur as (cur & Hcur & HFc). rewrite Hcur, HFc.
    eexists. split; [reflexivity|]. split.
    + rewrite set_elements_twice. exact Hfr.
    + intros j. replace (elements (set_elements _ s1))
        with (<[el_id x := F x x]> (elements s1)) by (by destruct s1).
      rewrite fmap_app. cbn [fmap list_fmap].
      destruct (decide (j = el_id x)) as [->|Hne].
      * rewrite lookup_insert_eq, decide_True, Hx; [done|].
        apply elem_of_app. right. by apply list_elem_of_singleton.
      * rewrite lookup_insert_ne by done. rewrite Hlk.
        case_decide as Hin.
        -- rewrite decide_True; [done|]. apply elem_of_app. by left.
        -- rewrite decide_False; [done|].
           rewrite elem_of_app, list_elem_of_singleton. tauto.
Qed.

Lemma alignOne_idem al b el : 
  alignOne al b el (alignOne al b el el) = alignOne al b el el.
Proof. by destruct al. Qed.

(** X25.  [alignElements], with every element stored under its own
    identifier.  With fewer than two of the listed elements in the
    document nothing changes.  Otherwise only the map of elements
    changes, so the alignment cannot be undone; the elements that are not
    listed stay as they are; each listed element keeps its size and its
    other fields and is moved along one axis, to the edge or to the centre
    line of the common box of the listed elements, and it stays inside
    that box. *)
Theorem alignElements_aligns (ids : list string) (al : AlignmentType)
    (s : CanvasState) :
  idsMatch s ->
  let els := omap (fun i => elements s !! i) ids in
  ((length els < 2)%nat -> alignElements ids al s = Some s)
  /\ ((2 <= length els)%nat ->
      exists b s',
        getElementsBounds els = Some b
        /\ alignElements ids al s = Some s'
        /\ set_elements (elements s) s' = s
        /\ (forall j, j ∉ ids -> elements s' !! j = elements s !! j)
        /\ (forall j, elements s !! j = None -> elements s' !! j = None)
        /\ forall j el,
             j ∈ ids -> elements s !! j = Some el ->
             exists el',
               elements s' !! j = Some el'
               /\ with_y (el_y el) (with_x (el_x el) el') = el
               /\ aligned al b el el'
               /\ within b el').
Proof.
  intros Hm els. unfold alignElements. fold els. split.
  - intros Hlt. by rewrite decide_True.
  - intros Hge. rewrite decide_False by lia.
    destruct (getElementsBounds els) as [b|] eqn:Hb.
    2:{ apply getElementsBounds_None_nil in Hb. rewrite Hb in Hge.
        simpl in Hge. lia. }
    assert (Hin : forall el, el ∈ els ->
              el_id el ∈ ids /\ elements s !! el_id el = Some el).
    { intros el Hel. apply list_elem_of_omap in Hel as (k & Hk & Hel).
      rewrite (Hm k el Hel). done. }
    destruct (writeAll_spec (alignOne al b) els s) as (s' & Hf & Hfr & Hlk).
    { intros el Hel. by apply Hin. }
    { intros el. apply alignOne_idem. }
    exists b, s'. split; [done|]. split; [exact Hf|]. split; [exact Hfr|].
    split; [|split].
    + intros j Hj. rewrite Hlk, decide_False; [done|].
      intros Hjn. apply list_elem_of_fmap in Hjn as (el & -> & Hel).
      apply Hj. by apply Hin.
    + intros j Hj. rewrite Hlk, Hj. by case_decide.
    + intros j el Hj Hel.
      assert (Helin : el ∈ els) by (apply list_elem_of_omap; eauto).
      assert (Hid : el_id el = j) by (by apply Hm).
      rewrite Hlk, decide_True, Hel.
      2:{ apply list_elem_of_fmap. exists el. done. }
      exists (alignOne al b el el). split; [done|].
      assert (Hw : within b el).
      { apply (getElementsBounds_within els b Hb el Helin). }
      unfold within in Hw. destruct Hw as (W1 & W2 & W3 & W4).
      split; [destruct al, el; reflexivity|].
      split.
      * destruct al; simpl; split; try reflexivity; field.
      * unfold within. destruct al; simpl; unfold Qdiv;
          change (/ 2)%Q with (1 # 2)%Q;
          (split; [lra|]); (split; [lra|]); split; lra.
Qed.

Lemma twoBoxes_idsMatch : idsMatch twoBoxes.
Proof.
  intros k el E.
  change ((<[ "box" := box100 ]> ({[ "a" := elemA ]} : gmap string Element))
            !! k = Some el) in E.
  destruct (decide (k = "box")) as [->|H1].
  - rewrite lookup_insert_eq in E. by simplify_eq.
  - rewrite lookup_insert_ne in E by done.
    destruct (decide (k = "a")) as [->|H2].
    + rewrite lookup_singleton_eq in E. by simplify_eq.
    + by rewrite lookup_singleton_ne in E.
Qed.

Lemma alignElements_aligns_witness :
  exists b s',
    getElementsBounds (omap (fun i => elements twoBoxes !! i) ["a"; "box"])
    = Some b
    /\ alignElements ["a"; "box"] al_right twoBoxes = Some s'.
Proof.
  destruct (proj2 (alignElements_aligns ["a"; "box"] al_right twoBoxes
                     twoBoxes_idsMatch))
    as (b & s' & H1 & H2 & _).
  - vm_compute. lia.
  - exists b, s'. split; [exact H1 | exact H2].
Defined.

(** ** Distribution *)

Lemma insertSorted_perm key x l : insertSorted key x l ≡ₚ x :: l.
Proof.
  induction l as [|y l IH]; simpl; [done|].
  destruct (Qle_bool (key x) (key y)); [done|].
  rewrite IH. apply Permutation_swap.
Qed.

Lemma sortBy_perm key l : sortBy key l ≡ₚ l.
Proof.
  induction l as [|x l IH]; simpl; [done|].
  rewrite insertSorted_perm. by rewrite IH.
Qed.

Lemma insertSorted_sorted key x l :
  StronglySorted (fun a b => (key a <= key b)%Q) l ->
  StronglySorted (fun a b => (key a <= key b)%Q) (insertSorted key x l).
Proof.
  induction 1 as [|y l Hs IH Hall]; simpl.
  - by repeat constructor.
  - destruct (Qle_bool (key x) (key y)) eqn:E.
    + apply Qle_bool_iff in E. constructor; [by constructor|].
      constructor; [done|]. eapply Forall_impl; [exact Hall|].
      intros z Hz. simpl in Hz. eapply Qle_trans; [exact E | exact Hz].
    + assert (Hlt : (key y <= key x)%Q).
      { destruct (Qlt_le_dec (key y) (key x)) as [H|H]; [by apply Qlt_le_weak|].
        apply Qle_bool_iff in H. congruence. }
      constructor; [exact IH|].
      rewrite insertSorted_perm. by constructor.
Qed.

Lemma sortBy_sorted key l :
  StronglySorted (fun a b => (key a <= key b)%Q) (sortBy key l).
Proof.
  induction l as [|x l IH]; simpl; [constructor|].
  by apply insertSorted_sorted.
Qed.

Lemma NoDup_omap_ids s ids :
  idsMatch s -> NoDup ids ->
  NoDup (el_id <$> omap (fun i => elements s !! i) ids).
Proof.
  intros Hm. induction 1 as [|i ids Hi Hnd IH]; [constructor|].
  cbn [omap list_omap]. destruct (elements s !! i) as [el|] eqn:E; [|done].
  cbn [fmap list_fmap]. constructor; [|done].
  rewrite (Hm i el E). intros Hin.
  apply list_elem_of_fmap in Hin as (x & Hx & Hin).
  apply list_elem_of_omap in Hin as (k & Hk & Hel).
  rewrite (Hm k x Hel) in Hx. by subst.
Qed.

Lemma totalSizeOf_from d a l :
  (foldl (fun sum el => sum + axisSize d el) a l == a + totalSizeOf d l)%Q.
Proof.
  unfold totalSizeOf. revert a. induction l as [|x l IH]; intros a; cbn [foldl].
  - ring.
  - rewrite (IH (a + axisSize d x)%Q), (IH (0 + axisSize d x)%Q). ring.
Qed.

Lemma totalSizeOf_cons d x l :
  (totalSizeOf d (x :: l) == axisSize d x + totalSizeOf d l)%Q.
Proof.
  unfold totalSizeOf at 1. cbn [foldl]. rewrite totalSizeOf_from. ring.
Qed.

Lemma totalSizeOf_snoc d x l :
  (totalSizeOf d (l ++ [x]) == totalSizeOf d l + axisSize d x)%Q.
Proof.
  induction l as [|y l IH].
  - simpl. rewrite totalSizeOf_cons. unfold totalSizeOf. simpl. ring.
  - cbn [app]. rewrite !totalSizeOf_cons, IH. ring.
Qed.

Lemma posAt_succ d gap l : forall pos k el,
  l !! k = Some el ->
  posAt d gap pos l (S k) = (posAt d gap pos l k + (axisSize d el + gap))%Q.
Proof.
  induction l as [|x l IH]; intros pos k el Hk; [done|].
  destruct k as [|k].
  - simpl in Hk. injection Hk as ->. reflexivity.
  - simpl in Hk. change (posAt d gap pos (x :: l) (S (S k)))
      with (posAt d gap (pos + (axisSize d x + gap))%Q l (S k)).
    rewrite (IH _ k el Hk). reflexivity.
Qed.

Lemma posAt_app d gap l r : forall pos k,
  (k <= length l)%nat -> posAt d gap pos (l ++ r) k = posAt d gap pos l k.
Proof.
  induction l as [|x l IH]; intros pos k Hk.
  - simpl in Hk. assert (k = 0%nat) as -> by lia. by destruct r.
  - destruct k as [|k]; [done|]. simpl in Hk. cbn [app posAt].
    apply IH. lia.
Qed.

Lemma posAt_end d gap l : forall pos,
  (posAt d gap pos l (length l)
   == pos + totalSizeOf d l + inject_Z (Z.of_nat (length l)) * gap)%Q.
Proof.
  induction l as [|x l IH]; intros pos.
  - simpl. unfold totalSizeOf. simpl. ring.
  - cbn [length posAt]. rewrite IH, totalSizeOf_cons.
    rewrite Nat2Z.inj_succ, <- Z.add_1_r, inject_Z_plus.
    change (inject_Z 1) with (1 # 1). ring.
Qed.

Lemma with_axisPos_same d el : with_axisPos d (axisPos d el) el = el.
Proof. by destruct d, el. Qed.

Lemma placeAll_spec d gap l : forall pos s,
  NoDup (el_id <$> l) ->
  (forall e, e ∈ l -> elements s !! el_id e = Some e) ->
  exists pend s',
    placeAll d gap pos l s = Some (pend, s')
    /\ set_elements (elements s) s' = s
    /\ (forall j, j ∉ el_id <$> l -> elements s' !! j = elements s !! j)
    /\ forall k e, l !! k = Some e ->
         elements s' !! el_id e
         = Some (with_axisPos d (posAt d gap pos l k) e).
Proof.
  induction l as [|x l IH]; intros pos s Hnd Hlive.
  - exists pos, s. split; [done|]. split; [apply set_elements_same|].
    split; [done|]. intros k e Hk. by rewrite lookup_nil in Hk.
  - cbn [fmap list_fmap] in Hnd. apply NoDup_cons in Hnd as [Hx Hnd].
    assert (Hxl : elements s !! el_id x = Some x) by (apply Hlive; left).
    unfold placeAll. cbn [foldl mbind option_bind]. unfold writeAt at 2.
    rewrite Hxl. cbn [mbind option_bind].
    set (s1 := set_elements (<[el_id x:=with_axisPos d pos x]> (elements s)) s).
    destruct (IH (pos + (axisSize d x + gap))%Q s1 Hnd)
      as (pend & s' & Hp & Hfr & Hoth & Hk).
    { intros e He. unfold s1. simpl. rewrite lookup_insert_ne.
      - apply Hlive. by right.
      - intros Heq. apply Hx. rewrite Heq. apply list_elem_of_fmap. eauto. }
    exists pend, s'. split; [exact Hp|]. split.
    { rewrite <- (set_elements_twice (elements s) (elements s1) s').
      rewrite Hfr. unfold s1. rewrite set_elements_twice.
      apply set_elements_same. }
    split.
    + intros j Hj. cbn [fmap list_fmap] in Hj.
      apply not_elem_of_cons in Hj as [Hne Hj].
      rewrite (Hoth j Hj). unfold s1. simpl. by rewrite lookup_insert_ne.
    + intros k e Hke. destruct k as [|k].
      * simpl in Hke. injection Hke as <-. rewrite (Hoth _ Hx).
        unfold s1. simpl. by rewrite lookup_insert_eq.
      * simpl in Hke. apply (Hk k e Hke).
Qed.

(** X26.  [distributeElements], with every element stored under its own
    identifier and no identifier listed twice.  With fewer than three of
    the listed elements in the document nothing changes.  Otherwise the
    elements are taken in the order of their positions on the axis; only
    the map of elements changes, so the distribution cannot be undone;
    the elements that are not listed stay; each listed element changes its
    position on the axis only; the first stays where it is, the far edge
    of the last stays where it is, and the space between each element and
    the next is the same. *)
Theorem distributeElements_even_gaps (ids : list string) (d : Direction)
    (s : CanvasState) :
  idsMatch s -> NoDup ids ->
  let els := omap (fun i => elements s !! i) ids in
  let sorted := sortBy (axisPos d) els in
  ((length els < 3)%nat -> distributeElements ids d s = Some s)
  /\ ((3 <= length els)%nat ->
      sorted ≡ₚ els
      /\ StronglySorted (fun a b => (axisPos d a <= axisPos d b)%Q) sorted
      /\ exists s' gap,
           distributeElements ids d s = Some s'
           /\ set_elements (elements s) s' = s
           /\ (forall j, j ∉ ids -> elements s' !! j = elements s !! j)
           /\ forall k el, sorted !! k = Some el ->
                exists el',
                  elements s' !! el_id el = Some el'
                  /\ with_axisPos d (axisPos d el) el' = el
                  /\ (k = 0%nat -> el' = el)
                  /\ (S k = length sorted ->
                      (axisPos d el' + axisSize d el'
                       == axisPos d el + axisSize d el)%Q)
                  /\ forall nxt nxt',
                       sorted !! S k = Some nxt ->
                       elements s' !! el_id nxt = Some nxt' ->
                       (axisPos d nxt'
                        == axisPos d el' + axisSize d el' + gap)%Q).
Proof.
  intros Hm Hnd els sorted. unfold distributeElements. fold els sorted. split.
  - intros Hlt. by rewrite decide_True.
  - intros Hge. rewrite decide_False by lia.
    pose proof (sortBy_perm (axisPos d) els) as Hperm. fold sorted in Hperm.
    split; [exact Hperm|]. split; [apply sortBy_sorted|].
    assert (Hlen : length sorted = length els) by (by rewrite Hperm).
    assert (Hin : forall el, el ∈ sorted ->
              el_id el ∈ ids /\ elements s !! el_id el = Some el).
    { intros el Hel. rewrite Hperm in Hel.
      apply list_elem_of_omap in Hel as (k & Hk & Hel).
      rewrite (Hm k el Hel). done. }
    assert (Hnds : NoDup (el_id <$> sorted)).
    { rewrite Hperm. by apply NoDup_omap_ids. }
    destruct (head sorted) as [first|] eqn:Hfirst.
    2:{ apply head_None in Hfirst. rewrite Hfirst in Hlen. simpl in Hlen. lia. }
    destruct (last sorted) as [lst|] eqn:Hlast.
    2:{ apply last_None in Hlast. rewrite Hlast in Hlen. simpl in Hlen. lia. }
    set (gap := ((axisPos d lst + axisSize d lst - axisPos d first
                  - totalSizeOf d sorted)
                 / inject_Z (Z.of_nat (length sorted) - 1))%Q).
    destruct (placeAll_spec d gap sorted (axisPos d first) s Hnds)
      as (pend & s' & Hp & Hfr & Hoth & Hk).
    { intros e He. by apply Hin. }
    rewrite Hp. exists s', gap. split; [done|]. split; [exact Hfr|].
    split.
    { intros j Hj. apply Hoth. intros Hjn.
      apply list_elem_of_fmap in Hjn as (el & -> & Hel).
      apply Hj. by apply Hin. }
    intros k el Hkel. rewrite (Hk k el Hkel).
    assert (Hd : forall v e, axisPos d (with_axisPos d v e) = v
                             /\ axisSize d (with_axisPos d v e) = axisSize d e
                             /\ with_axisPos d (axisPos d e) (with_axisPos d v e)
                                = e)
      by (intros v e; by destruct d, e).
    eexists. split; [reflexivity|].
    split; [apply Hd|]. split; [|split].
    + intros ->. rewrite head_lookup in Hfirst.
      rewrite Hfirst in Hkel. injection Hkel as ->.
      apply with_axisPos_same.
    + intros HSk.
      destruct (Hd (posAt d gap (axisPos d first) sorted k) el) as (-> & -> & _).
      assert (Hel : el = lst).
      { rewrite last_lookup in Hlast. rewrite <- HSk in Hlast.
        simpl in Hlast. congruence. }
      subst lst.
      assert (Hsplit : sorted = take k sorted ++ [el]).
      { rewrite <- (take_drop_middle sorted k el Hkel) at 1.
        rewrite (drop_ge sorted (S k)) by lia. done. }
      assert (Hlk : length (take k sorted) = k)
        by (rewrite length_take; lia).
      assert (Hpos : (posAt d gap (axisPos d first) sorted k
                      == axisPos d first + totalSizeOf d (take k sorted)
                         + inject_Z (Z.of_nat k) * gap)%Q).
      { assert (E1 : posAt d gap (axisPos d first) sorted k
                     = posAt d gap (axisPos d first) (take k sorted) k).
        { rewrite Hsplit at 1. apply posAt_app. lia. }
        pose proof (posAt_end d gap (take k sorted) (axisPos d first)) as E2.
        rewrite Hlk in E2. rewrite E1. exact E2. }
      assert (Htot : (totalSizeOf d sorted
                      == totalSizeOf d (take k sorted) + axisSize d el)%Q).
      { rewrite Hsplit at 1. apply totalSizeOf_snoc. }
      assert (Hgap : (inject_Z (Z.of_nat k) * gap
                      == axisPos d el + axisSize d el - axisPos d first
                         - totalSizeOf d sorted)%Q).
      { unfold gap. rewrite <- HSk.
        replace (Z.of_nat (S k) - 1)%Z with (Z.of_nat k) by lia.
        field. intros Hz.
        assert (Hk0 : (0 < inject_Z (Z.of_nat k))%Q).
        { change 0%Q with (inject_Z 0). rewrite <- Zlt_Qlt. lia. }
        lra. }
      rewrite Hpos, Hgap, Htot. ring.
    + intros nxt nxt' Hnxt Hnxt'.
      assert (Hn : nxt' = with_axisPos d
                            (posAt d gap (axisPos d first) sorted (S k)) nxt)
        by (rewrite (Hk (S k) nxt Hnxt) in Hnxt'; congruence).
      rewrite Hn.
      destruct (Hd (posAt d gap (axisPos d first) sorted (S k)) nxt)
        as (-> & _ & _).
      destruct (Hd (posAt d gap (axisPos d first) sorted k) el)
        as (-> & -> & _).
      rewrite (posAt_succ d gap sorted _ k el Hkel). ring.
Qed.

Lemma threeBoxes_idsMatch : idsMatch threeBoxes.
Proof.
  intros k el E. unfold threeBoxes in E. simpl in E.
  destruct (decide (k = "c")) as [->|H0].
  { rewrite lookup_insert_eq in E. by simplify_eq. }
  rewrite lookup_insert_ne in E by done.
  destruct (decide (k = "box")) as [->|H1].
  - rewrite lookup_insert_eq in E. by simplify_eq.
  - rewrite lookup_insert_ne in E by done.
    destruct (decide (k = "a")) as [->|H2].
    + rewrite lookup_singleton_eq in E. by simplify_eq.
    + by rewrite lookup_singleton_ne in E.
Qed.

Lemma distributeElements_even_gaps_witness :
  exists s',
    distributeElements ["c"; "a"; "box"] horizontal threeBoxes = Some s'
    /\ set_elements (elements threeBoxes) s' = threeBoxes.
Proof.
  assert (Hnd : NoDup ["c"; "a"; "box"])
    by (apply (bool_decide_unpack _); vm_compute; exact I).
  assert (Hlen : (3 <= length (omap (fun i => elements threeBoxes !! i)
                                    ["c"; "a"; "box"]))%nat)
    by (vm_compute; lia).
  destruct (proj2 (proj2 (proj2 (distributeElements_even_gaps
             ["c"; "a"; "box"] horizontal threeBoxes threeBoxes_idsMatch Hnd)
             Hlen)))
    as (s' & gap & H1 & H2 & _).
  exists s'. split; [exact H1 | exact H2].
Defined.

(** ** Dragging *)

Lemma dragMove_spec (p0 : Point) (l : list (string * Point)) (p : Point)
    (clock : nat -> Z) (s : CanvasState) :
  NoDup l.*1 ->
  let s' := dragMove (mkDrag p0 l) p clock s in
  set_elements (elements s) s' = s
  /\ (forall j, j ∉ l.*1 -> elements s' !! j = elements s !! j)
  /\ forall k j start,
       l !! k = Some (j, start) ->
       elements s' !! j
       = (fun el =>
            assign el
              (positionPatch
                 (snapCoord (snapToGrid s) (gridSize s)
                            (p_x start + (p_x p - p_x p0)))
                 (snapCoord (snapToGrid s) (gridSize s)
                            (p_y start + (p_y p - p_y p0))))
              (clock k)) <$> elements s !! j.
Proof.
  induction l as [|[i st] l IH] using rev_ind; intros Hnd s'.
  - split; [apply set_elements_same|]. split; [done|].
    intros k j start Hk. by rewrite lookup_nil in Hk.
  - rewrite fmap_app in Hnd. apply NoDup_app in Hnd as (Hndl & Hdisj & _).
    assert (Hi : i ∉ l.*1).
    { intros Hin. apply (Hdisj i Hin). simpl. left. }
    destruct (IH Hndl) as (Hfr & Hoth & Hk).
    unfold s', dragMove in *. cbn [draggedElementStart dragStartCanvas] in *.
    rewrite imap_app, foldl_app. cbn [imap foldl].
    match goal with |- context [updateElementSilent i ?u ?c ?a] =>
      set (acc := a) in *; set (patch := u); set (ck := c) end.
    assert (Hacc : elements acc !! i = elements s !! i) by (by apply Hoth).
    unfold updateElementSilent.
    destruct (elements s !! i) as [el|] eqn:Hel.
    + rewrite Hacc. split; [|split].
      * rewrite set_elements_twice. exact Hfr.
      * intros j Hj. rewrite fmap_app in Hj.
        apply not_elem_of_app in Hj as [Hj Hji]. simpl in Hji.
        apply not_elem_of_cons in Hji as [Hne _].
        replace (elements (set_elements _ acc))
          with (<[i := assign el patch ck]> (elements acc)) by (by destruct acc).
        rewrite lookup_insert_ne by done. by apply Hoth.
      * intros k j start Hkj.
        replace (elements (set_elements _ acc))
          with (<[i := assign el patch ck]> (elements acc)) by (by destruct acc).
        destruct (decide (k < length l)%nat) as [Hlt|Hge].
        -- rewrite lookup_app_l in Hkj by done.
           assert (Hne : j <> i).
           { intros ->. apply Hi. apply list_elem_of_fmap.
             exists (i, start). split; [done|].
             by apply list_elem_of_lookup_2 in Hkj. }
           rewrite lookup_insert_ne by done. by apply Hk.
        -- rewrite lookup_app_r in Hkj by lia.
           destruct (k - length l)%nat as [|n] eqn:Hn; [|done].
           simpl in Hkj. injection Hkj as -> ->.
           rewrite lookup_insert_eq, Hel. simpl. unfold patch, ck.
           replace (length l + 0)%nat with k by lia. done.
    + rewrite Hacc. split; [exact Hfr|]. split.
      * intros j Hj. apply Hoth. rewrite fmap_app in Hj.
        by apply not_elem_of_app in Hj as [Hj _].
      * intros k j start Hkj.
        destruct (decide (k < length l)%nat) as [Hlt|Hge].
        -- rewrite lookup_app_l in Hkj by done. by apply Hk.
        -- rewrite lookup_app_r in Hkj by lia.
           destruct (k - length l)%nat as [|n] eqn:Hn; [|done].
           simpl in Hkj. injection Hkj as -> ->.
           rewrite Hacc, Hel. done.
Qed.

(** X27.  While elements are dragged, with no identifier twice in the
    session and, when snapping is on, a grid of positive size: only the
    map of elements changes, so the moves are not recorded in the
    history; the elements outside the session are not touched; each
    element of the session is put at its start position plus the distance
    that the pointer has covered since the press, snapped to the grid
    when snapping is on, and keeps its size and its other fields but
    [updatedAt].  With snapping off, a pointer back at the point of the
    press puts the element back at its start position. *)
Theorem drag_follows_pointer (d : DragSession) (p : Point) (clock : nat -> Z)
    (s : CanvasState) :
  NoDup (draggedElementStart d).*1 ->
  (snapToGrid s = true -> (0 < gridSize s)%Q) ->
  let s' := dragMove d p clock s in
  let dx := (p_x p - p_x (dragStartCanvas d))%Q in
  let dy := (p_y p - p_y (dragStartCanvas d))%Q in
  set_elements (elements s) s' = s
  /\ (forall j, j ∉ (draggedElementStart d).*1 ->
        elements s' !! j = elements s !! j)
  /\ forall k j start el,
       draggedElementStart d !! k = Some (j, start) ->
       elements s !! j = Some el ->
       exists el',
         elements s' !! j = Some el'
         /\ el_x el' = snapCoord (snapToGrid s) (gridSize s) (p_x start + dx)
         /\ el_y el' = snapCoord (snapToGrid s) (gridSize s) (p_y start + dy)
         /\ with_y (el_y el) (with_x (el_x el) el')
            = assign el (positionPatch (el_x el) (el_y el)) (clock k)
         /\ (snapToGrid s = false ->
             (el_x el' - p_x start == dx)%Q /\ (el_y el' - p_y start == dy)%Q
             /\ (p = dragStartCanvas d ->
                 (el_x el' == p_x start)%Q /\ (el_y el' == p_y start)%Q)).
Proof.
  intros Hnd _ s' dx dy. destruct d as [p0 l]. simpl in *.
  destruct (dragMove_spec p0 l p clock s Hnd) as (Hfr & Hoth & Hk).
  split; [exact Hfr|]. split; [exact Hoth|].
  intros k j start el Hkj Hel. unfold s'. rewrite (Hk k j start Hkj), Hel.
  eexists. split; [reflexivity|]. split; [reflexivity|].
  split; [reflexivity|]. split; [reflexivity|].
  intros Hoff. rewrite Hoff. cbn [assign positionPatch el_x el_y snapCoord
                                  default u_x u_y from_option].
  unfold dx, dy. split; [simpl; ring|]. split; [simpl; ring|].
  intros ->. split; simpl; ring.
Qed.

Lemma drag_follows_pointer_witness :
  exists el',
    elements (dragMove (mkDrag (mkPoint 10 10) [("a", mkPoint 0 0)])
                       (mkPoint 50 10) (fun _ => 5) withA) !! "a" = Some el'
    /\ el_x el' = snapCoord (snapToGrid withA) (gridSize withA)
                    (0 + (50 - 10)).
Proof.
  assert (Hnd : NoDup (draggedElementStart
                         (mkDrag (mkPoint 10 10) [("a", mkPoint 0 0)])).*1)
    by (apply (bool_decide_unpack _); vm_compute; exact I).
  assert (Hg : snapToGrid withA = true -> (0 < gridSize withA)%Q)
    by (intros _; reflexivity).
  destruct (proj2 (proj2 (drag_follows_pointer
              (mkDrag (mkPoint 10 10) [("a", mkPoint 0 0)])
              (mkPoint 50 10) (fun _ => 5) withA Hnd Hg))
              0%nat "a" (mkPoint 0 0) elemA eq_refl eq_refl)
    as (el' & H1 & H2 & _).
  exists el'. split; [exact H1 | exact H2].
Defined.

(** ** The selection *)

(** X28.  [addToSelection] puts an identifier into the selection once:
    it makes no duplicate and a second call changes nothing.
    [removeFromSelection] takes every occurrence out and leaves the other
    identifiers; removing an identifier that was added, and was not
    selected before, gives the state back.  Neither looks at the
    document. *)
Theorem selection_add_remove (i : string) (s : CanvasState) :
  i ∈ selectedIds (addToSelection i s)
  /\ (NoDup (selectedIds s) -> NoDup (selectedIds (addToSelection i s)))
  /\ addToSelection i (addToSelection i s) = addToSelection i s
  /\ (i ∉ selectedIds (removeFromSelection i s))
  /\ (forall j, j <> i ->
        (j ∈ selectedIds (removeFromSelection i s) <-> j ∈ selectedIds s))
  /\ ((i ∉ selectedIds s) -> removeFromSelection i (addToSelection i s) = s)
  /\ set_selectedIds (selectedIds s) (addToSelection i s) = s
  /\ set_selectedIds (selectedIds s) (removeFromSelection i s) = s.
Proof.
  assert (Hsel : forall l, selectedIds (set_selectedIds l s) = l)
    by (intros l; by destruct s).
  unfold addToSelection, removeFromSelection, includes.
  destruct (bool_decide (i ∈ selectedIds s)) eqn:E.
  - pose proof E as E'. apply bool_decide_eq_true in E'.
    split; [done|]. split; [done|]. split; [by rewrite E|].
    rewrite Hsel. split.
    { intros Hin. apply list_elem_of_filter in Hin as [Hne _]. by apply Hne. }
    split.
    { intros j Hne. rewrite list_elem_of_filter. tauto. }
    split; [done|]. split; by destruct s.
  - apply bool_decide_eq_false in E. rewrite !Hsel.
    split; [apply elem_of_app; right; by apply list_elem_of_singleton|].
    split.
    { intros Hnd. apply NoDup_app. split; [done|]. split.
      - intros x Hx Hx'. apply list_elem_of_singleton in Hx' as ->. done.
      - apply NoDup_singleton. }
    split.
    { rewrite bool_decide_eq_true_2; [done|].
      apply elem_of_app. right. by apply list_elem_of_singleton. }
    split.
    { intros Hin. apply list_elem_of_filter in Hin as [Hne _]. by apply Hne. }
    split.
    { intros j Hne. rewrite list_elem_of_filter. tauto. }
    split.
    { intros _. rewrite filter_app, (filter_all _ (selectedIds s)).
      - rewrite filter_cons_False by (intros H; by apply H). simpl.
        rewrite app_nil_r. by destruct s.
      - intros x Hx ->. done. }
    split; by destruct s.
Qed.

Lemma selection_add_remove_witness :
  removeFromSelection "b" (addToSelection "b" selectedA) = selectedA.
Proof.
  apply (proj1 (proj2 (proj2 (proj2 (proj2 (proj2
           (selection_add_remove "b" selectedA))))))).
  apply (bool_decide_unpack _). vm_compute. exact I.
Defined.
